(** * ShiftB3: the ETL pipeline of [src/etl/pipeline.js]

    A shallow embedding of the Extract / Transform / Load pipeline and of the
    single-flight orchestrator [runETLPipeline], with the properties stated in
    the specification.

    JavaScript data is modelled as the program has it:
    - a Number is an IEEE 754 binary64 value, i.e. Rocq's primitive [float];
    - a String is a sequence of UTF-16 code units ([list N]);
    - a raw value is a JSON-shaped value (what [JSON.parse] can produce), plus
      [undefined] for an absent property;
    - an exception is a value of [result], threaded by a small error monad. *)

From Stdlib Require Import ZArith NArith List Bool Lia String Ascii Floats.
From Stdlib Require Import Permutation Sorted.
Import ListNotations.

Set Implicit Arguments.

(** ** Exceptions *)

Inductive js_error : Type :=
| TypeError
| SyntaxError
| UserError.

Inductive result (A : Type) : Type :=
| Ok (a : A)
| Throw (e : js_error).

Arguments Ok {A} a.
Arguments Throw {A} e.

Definition bind {A B : Type} (r : result A) (k : A -> result B) : result B :=
  match r with
  | Ok a => k a
  | Throw e => Throw e
  end.

Declare Scope js_scope.
Delimit Scope js_scope with js.
Notation "'let*' x ':=' r 'in' k" := (bind r (fun x => k))
  (at level 10, x name, r at level 100, k at level 200) : js_scope.
Local Open Scope js_scope.

(** [Array.prototype.map] with a callback that may throw: the first exception
    aborts the traversal. *)
Fixpoint mapM {A B : Type} (f : A -> result B) (l : list A) : result (list B) :=
  match l with
  | [] => Ok []
  | x :: l' =>
      let* y := f x in
      let* ys := mapM f l' in
      Ok (y :: ys)
  end.

(** ** Strings: sequences of UTF-16 code units *)

Module JSString.

Definition code_unit := N.
Definition js_string := list code_unit.

(** An ASCII literal of the source, as code units. *)
Definition lit (s : string) : js_string :=
  map N_of_ascii (list_ascii_of_string s).

Fixpoint str_eqb (s t : js_string) : bool :=
  match s, t with
  | [], [] => true
  | c :: s', d :: t' => N.eqb c d && str_eqb s' t'
  | _, _ => false
  end.

Definition is_empty (s : js_string) : bool :=
  match s with [] => true | _ => false end.

(** WhiteSpace and LineTerminator code points (ECMA-262, 12.2 and 12.3): the
    characters removed by [String.prototype.trim] and skipped around a numeric
    string. *)
Definition isWhiteSpace (c : code_unit) : bool :=
  ((9 <=? c) && (c <=? 13)          (* TAB LF VT FF CR *)
   || (c =? 32) || (c =? 160)       (* SP, NBSP *)
   || (c =? 5760)                   (* U+1680 *)
   || ((8192 <=? c) && (c <=? 8202)) (* U+2000 .. U+200A *)
   || (c =? 8232) || (c =? 8233)    (* LS, PS *)
   || (c =? 8239) || (c =? 8287)    (* U+202F, U+205F *)
   || (c =? 12288) || (c =? 65279)  (* U+3000, U+FEFF *))%N.

Fixpoint trimStart (s : js_string) : js_string :=
  match s with
  | c :: s' => if isWhiteSpace c then trimStart s' else s
  | [] => []
  end.

Definition trimEnd (s : js_string) : js_string :=
  rev (trimStart (rev s)).

(** [String.prototype.trim] *)
Definition trim (s : js_string) : js_string :=
  trimEnd (trimStart s).

(** Upper-case mapping of one code unit.  Covered: Basic Latin, Latin-1
    Supplement, the two letters outside Latin-1 whose upper case is an ASCII
    letter (dotless i, long s) and the Latin ligatures that expand to ASCII
    letters; every other code unit is left as it is.  No other character has an
    upper case made of ASCII letters only, so a lookup of the result among ASCII
    keys is exact. *)
Definition upper_code_unit (c : code_unit) : js_string :=
  (if (97 <=? c) && (c <=? 122) then [c - 32]
   else if c =? 181 then [924]                        (* micro sign *)
   else if c =? 223 then [83; 83]                     (* sharp s -> SS *)
   else if (224 <=? c) && (c <=? 254) && negb (c =? 247) then [c - 32]
   else if c =? 255 then [376]
   else if c =? 305 then [73]                         (* dotless i -> I *)
   else if c =? 383 then [83]                         (* long s -> S *)
   else if c =? 64256 then [70; 70]                   (* ff *)
   else if c =? 64257 then [70; 73]                   (* fi *)
   else if c =? 64258 then [70; 76]                   (* fl *)
   else if c =? 64259 then [70; 70; 73]               (* ffi *)
   else if c =? 64260 then [70; 70; 76]               (* ffl *)
   else if (c =? 64261) || (c =? 64262) then [83; 84] (* st *)
   else [c])%N.

(** [String.prototype.toUpperCase] *)
Definition toUpperCase (s : js_string) : js_string :=
  flat_map upper_code_unit s.

Fixpoint join (sep : js_string) (l : list js_string) : js_string :=
  match l with
  | [] => []
  | [s] => s
  | s :: l' => s ++ sep ++ join sep l'
  end.

End JSString.

Import JSString.

(** ** Numbers: IEEE 754 binary64 *)

Module JSNumber.

Local Open Scope Z_scope.

(** The binary64 value nearest to [(-1)^neg * m * 2^e] (ties to even), for
    [0 <= m]; overflow gives an infinity. *)
Definition round_to_float (neg : bool) (m e : Z) : float :=
  SF2Prim (binary_normalize prec emax (if neg then - m else m) e neg).

(** The binary64 value nearest to [(-1)^neg * d * 10^k], for [0 <= d]: the
    rounding of a decimal literal (ECMA-262, StringNumericValue).  A quotient
    is computed with more than 64 bits and a sticky last bit, so that one
    rounding of it is the rounding of the exact value. *)
Definition dec_to_float (neg : bool) (d k : Z) : float :=
  if d =? 0 then (if neg then neg_zero else zero)
  else if 0 <=? k then
    if 1025 <=? Z.log2 d + 3 * k then (if neg then neg_infinity else infinity)
    else round_to_float neg (d * 10 ^ k) 0
  else
    if Z.log2 d + 1 + 3 * k <? -1080 then (if neg then neg_zero else zero)
    else
      let p := 10 ^ (- k) in
      let s := 66 + Z.log2 p in
      let q := (d * 2 ^ s) / p in
      let r := (d * 2 ^ s) mod p in
      round_to_float neg (2 * q + (if r =? 0 then 0 else 1)) (- (s + 1)).

(** [Math.round]: the integral Number closest to [x], ties towards +infinity;
    [x] itself when it is not finite or already integral; a zero of the sign of
    [x] when the result is zero. *)
Definition Math_round (x : float) : float :=
  match Prim2SF x with
  | S754_finite s m e =>
      if 0 <=? e then x
      else
        let n := (2 * (if s then Z.neg m else Z.pos m) + 2 ^ (- e)) / 2 ^ (1 - e) in
        if n =? 0 then (if s then neg_zero else zero)
        else round_to_float (n <? 0) (Z.abs n) 0
  | _ => x
  end.

(** *** Reading a number from a string *)

Definition is_digit (c : code_unit) : bool := ((48 <=? c) && (c <=? 57))%N.

(** The longest run of decimal digits at the head of [s]: its value continued
    from [acc], its length, and the rest of the string. *)
Fixpoint read_digits (s : js_string) (acc : Z) (len : Z) : Z * Z * js_string :=
  match s with
  | c :: s' =>
      if is_digit c then read_digits s' (10 * acc + (Z.of_N c - 48)) (len + 1)
      else (acc, len, s)
  | [] => (acc, len, [])
  end.

Fixpoint starts_with (p s : js_string) : option js_string :=
  match p, s with
  | [], _ => Some s
  | c :: p', d :: s' => if N.eqb c d then starts_with p' s' else None
  | _ :: _, [] => None
  end.

Definition read_sign (s : js_string) : bool * js_string :=
  match s with
  | 45%N :: s' => (true, s')
  | 43%N :: s' => (false, s')
  | _ => (false, s)
  end.

(** The optional ExponentPart at the head of [s]: when [e] or [E] is not
    followed by an optionally signed, non-empty run of digits, no exponent is
    read and [s] is returned whole. *)
Definition read_exponent (s : js_string) : Z * js_string :=
  match s with
  | c :: s' =>
      if (N.eqb c 101 || N.eqb c 69)%bool then
        let '(neg, s'') := read_sign s' in
        let '(v, len, rest) := read_digits s'' 0 0 in
        if len =? 0 then (0, s) else ((if neg then - v else v), rest)
      else (0, s)
  | [] => (0, [])
  end.

(** The longest prefix of [s] that is a StrDecimalLiteral: its value and the
    rest of [s]; [None] when no prefix is one. *)
Definition read_decimal (s : js_string) : option (float * js_string) :=
  let '(neg, s1) := read_sign s in
  match starts_with (lit "Infinity") s1 with
  | Some rest => Some ((if neg then neg_infinity else infinity), rest)
  | None =>
      let '(i, ilen, s2) := read_digits s1 0 0 in
      let '(d, flen, s3) :=
        match s2 with
        | 46%N :: s2' =>
            let '(d, flen, s3) := read_digits s2' i 0 in
            if (ilen =? 0) && (flen =? 0) then (i, 0, s2) else (d, flen, s3)
        | _ => (i, 0, s2)
        end in
      if (ilen =? 0) && (flen =? 0) then None
      else
        let '(e, s4) := read_exponent s3 in
        Some (dec_to_float neg d (e - flen), s4)
  end.

Definition digit_value (radix : Z) (c : code_unit) : option Z :=
  let v :=
    if is_digit c then Z.of_N c - 48
    else if ((97 <=? c) && (c <=? 102))%N then Z.of_N c - 87
    else if ((65 <=? c) && (c <=? 70))%N then Z.of_N c - 55
    else 99 in
  if v <? radix then Some v else None.

Fixpoint read_radix (radix : Z) (s : js_string) (acc : Z) : option Z :=
  match s with
  | [] => Some acc
  | c :: s' =>
      match digit_value radix c with
      | Some v => read_radix radix s' (radix * acc + v)
      | None => None
      end
  end.

(** NonDecimalIntegerLiteral: [0x], [0o], [0b] (either case) and at least one
    digit of the radix. *)
Definition read_non_decimal (s : js_string) : option float :=
  match s with
  | 48%N :: c :: (_ :: _) as ds =>
      let radix :=
        if (N.eqb c 120 || N.eqb c 88)%bool then 16
        else if (N.eqb c 111 || N.eqb c 79)%bool then 8
        else if (N.eqb c 98 || N.eqb c 66)%bool then 2
        else 0 in
      if radix =? 0 then None
      else option_map (fun v => round_to_float false v 0) (read_radix radix ds 0)
  | _ => None
  end.

(** StringToNumber (ECMA-262, 7.1.4.1.1): what [Number(s)] is for a string. *)
Definition StringToNumber (s : js_string) : float :=
  let t := trim s in
  match t with
  | [] => zero
  | _ =>
      match read_non_decimal t with
      | Some v => v
      | None =>
          match read_decimal t with
          | Some (v, []) => v
          | _ => nan
          end
      end
  end.

(** [parseFloat] on a string: leading white space is skipped and the longest
    decimal prefix is read. *)
Definition parseFloat_string (s : js_string) : float :=
  match read_decimal (trimStart s) with
  | Some (v, _) => v
  | None => nan
  end.

(** *** Writing a number as a string *)

Fixpoint dec_digits_aux (fuel : nat) (n : Z) (acc : js_string) : js_string :=
  match fuel with
  | O => acc
  | S fuel' =>
      let acc' := Z.to_N (48 + n mod 10) :: acc in
      if n <? 10 then acc' else dec_digits_aux fuel' (n / 10) acc'
  end.

(** The decimal digits of [0 <= n]. *)
Definition dec_digits (n : Z) : js_string :=
  dec_digits_aux (S (Z.to_nat (Z.log2 n))) n [].

(** [v < 10^n] for the positive rational [v = num / den]. *)
Definition below_pow10 (num den n : Z) : bool :=
  if 0 <=? n then num <? 10 ^ n * den else num * 10 ^ (- n) <? den.

(** The least [n], from [n0] on, with [v < 10^n]. *)
Fixpoint decimal_exponent (fuel : nat) (num den n0 : Z) : Z :=
  match fuel with
  | O => n0
  | S fuel' =>
      if below_pow10 num den n0 then n0
      else decimal_exponent fuel' num den (n0 + 1)
  end.

(** The shortest decimal significand: the least [k], from [k] on, for which an
    integer [s] of [k] digits has [s * 10^(n-k)] round to [x]; of the two
    integers around [v / 10^(n-k)], the one nearer to it (the even one on a
    tie).  Returns [(s, n, k)] (ECMA-262, Number::toString, step 5). *)
Fixpoint shortest_digits (fuel : nat) (x : float) (num den n k : Z) : Z * Z * Z :=
  let e := n - k in
  let tnum := if 0 <=? e then num else num * 10 ^ (- e) in
  let tden := if 0 <=? e then den * 10 ^ e else den in
  let lo := tnum / tden in
  let hi := lo + 1 in
  let ok c := Leibniz.eqb (dec_to_float false c e) x in
  let pick c := if c =? 10 ^ k then (10 ^ (k - 1), n + 1, k) else (c, n, k) in
  let twice := 2 * (tnum mod tden) ?= tden in
  let lo_first :=
    match twice with
    | Lt => true
    | Gt => false
    | Eq => Z.even lo
    end in
  let c1 := if lo_first then lo else hi in
  let c2 := if lo_first then hi else lo in
  if ok c1 then pick c1
  else if ok c2 then pick c2
  else
    match fuel with
    | O => pick c1
    | S fuel' => shortest_digits fuel' x num den n (k + 1)
    end.

Definition zeros (n : Z) : js_string := repeat 48%N (Z.to_nat n).

(** Number::toString for radix 10 (ECMA-262, 6.1.6.1.20). *)
Definition Number_toString (x : float) : js_string :=
  match Prim2SF x with
  | S754_nan => lit "NaN"
  | S754_zero _ => lit "0"
  | S754_infinity s => (if s then lit "-" else []) ++ lit "Infinity"
  | S754_finite sg m e =>
      let num := if 0 <=? e then Z.pos m * 2 ^ e else Z.pos m in
      let den := if 0 <=? e then 1 else 2 ^ (- e) in
      let est := (Z.log2 num - Z.log2 den) * 30103 / 100000 in
      let n0 := decimal_exponent 8 num den (est - 2) in
      let '(s, n, k) := shortest_digits 17 (abs x) num den n0 1 in
      let ds := dec_digits s in
      let body :=
        if (k <=? n) && (n <=? 21) then ds ++ zeros (n - k)
        else if (0 <? n) && (n <=? 21) then
          firstn (Z.to_nat n) ds ++ lit "." ++ skipn (Z.to_nat n) ds
        else if (-6 <? n) && (n <=? 0) then
          lit "0." ++ zeros (- n) ++ ds
        else
          let ex := n - 1 in
          let exs := (if ex <? 0 then lit "-" else lit "+") ++ dec_digits (Z.abs ex) in
          if k =? 1 then ds ++ lit "e" ++ exs
          else firstn 1 ds ++ lit "." ++ skipn 1 ds ++ lit "e" ++ exs in
      (if sg then lit "-" else []) ++ body
  end.

End JSNumber.

Import JSNumber.

(** ** Values

    The values a raw record can hold: what [JSON.parse] produces, and
    [undefined] for a property that is absent. *)

#[warnings="-register-all"] Inductive JsVal : Type :=
| Undefined
| Null
| Bool (b : bool)
| Num (x : float)
| Str (s : js_string)
| Arr (elems : list JsVal)
| Obj (props : list (js_string * JsVal)).

(** Own property lookup; the first binding of a key is the property. *)
Fixpoint own_property (k : js_string) (props : list (js_string * JsVal)) : option JsVal :=
  match props with
  | [] => None
  | (k', v) :: props' => if str_eqb k k' then Some v else own_property k props'
  end.

(** [v.k] for the property names the pipeline reads ([nom_batiment],
    [type_infra], ...): none of them is a property of a prototype, so the
    access is an own-property lookup on an object and [undefined] on any other
    value, except that reading a property of [null] or [undefined] throws. *)
Definition get_property (v : JsVal) (k : js_string) : result JsVal :=
  match v with
  | Undefined | Null => Throw TypeError
  | Obj props =>
      match own_property k props with
      | Some x => Ok x
      | None => Ok Undefined
      end
  | _ => Ok Undefined
  end.

(** ToString (ECMA-262, 7.1.17).  An array is joined with commas, [null] and
    [undefined] elements giving the empty string; an object is
    ["[object Object]"], unless an own property shadows [toString]: its value is
    not callable, [valueOf] returns the object, and the conversion throws. *)
Fixpoint ToString (v : JsVal) : result js_string :=
  match v with
  | Undefined => Ok (lit "undefined")
  | Null => Ok (lit "null")
  | Bool b => Ok (if b then lit "true" else lit "false")
  | Num x => Ok (Number_toString x)
  | Str s => Ok s
  | Arr elems =>
      let* parts :=
        (fix go (l : list JsVal) : result (list js_string) :=
           match l with
           | [] => Ok []
           | x :: l' =>
               let* s := match x with
                         | Undefined | Null => Ok []
                         | _ => ToString x
                         end in
               let* r := go l' in
               Ok (s :: r)
           end) elems in
      Ok (join (lit ",") parts)
  | Obj props =>
      match own_property (lit "toString") props with
      | Some _ => Throw TypeError
      | None => Ok (lit "[object Object]")
      end
  end.

(** ToNumber (ECMA-262, 7.1.4): what [Number(v)] is. *)
Definition ToNumber (v : JsVal) : result float :=
  match v with
  | Undefined => Ok nan
  | Null => Ok zero
  | Bool b => Ok (if b then one else zero)
  | Num x => Ok x
  | Str s => Ok (StringToNumber s)
  | Arr _ | Obj _ =>
      let* s := ToString v in
      Ok (StringToNumber s)
  end.

(** ToBoolean on a Number and on a String. *)
Definition truthy_num (x : float) : bool := negb (is_zero x || is_nan x).
Definition truthy_str (s : js_string) : bool := negb (is_empty s).

(** ToBoolean (ECMA-262, 7.1.2). *)
Definition ToBoolean (v : JsVal) : bool :=
  match v with
  | Undefined | Null => false
  | Bool b => b
  | Num x => truthy_num x
  | Str s => truthy_str s
  | Arr _ | Obj _ => true
  end.

(** The global [parseFloat]: the argument is converted to a string first. *)
Definition parseFloat (v : JsVal) : result float :=
  let* s := ToString v in
  Ok (parseFloat_string s).

(** [value === null || value === undefined || value === ''] *)
Definition is_blank (value : JsVal) : bool :=
  match value with
  | Null | Undefined | Str [] => true
  | _ => false
  end.

(** ** pipeline.js: utility functions *)

Definition cleanString (value : JsVal) : result js_string :=
  if is_blank value then Ok []
  else
    let* s := ToString value in
    Ok (trim s).

Definition toNumber (value : JsVal) : result float :=
  if is_blank value then Ok zero
  else
    let* num := ToNumber value in
    Ok (if is_nan num then zero else Math_round num).

Definition toFloat (value : JsVal) : result float :=
  if is_blank value then Ok zero
  else
    let* num := parseFloat value in
    Ok (if is_nan num then zero else num).

(** The labels of [normalizeType]; the accented letters are written by their
    code units (E acute is 201, e grave is 232). *)
Definition Autre : js_string := lit "Autre".
Definition Ecole : js_string := 201%N :: lit "cole".
Definition Piscine : js_string := lit "Piscine".
Definition Mairie : js_string := lit "Mairie".
Definition Bibliotheque : js_string := lit "Biblioth" ++ 232%N :: lit "que".
Definition Gymnase : js_string := lit "Gymnase".
Definition Creche : js_string := lit "Cr" ++ 232%N :: lit "che".

(** The object literal [map] of [normalizeType]. *)
Definition type_map : list (js_string * js_string) :=
  [ (lit "ECOLE", Ecole);
    (lit "PISCINE", Piscine);
    (lit "MAIRIE", Mairie);
    (lit "BIBLIOTHEQUE", Bibliotheque);
    (lit "GYMNASE", Gymnase);
    (lit "CRECHE", Creche) ].

Fixpoint map_get (k : js_string) (m : list (js_string * js_string)) : option js_string :=
  match m with
  | [] => None
  | (k', v) :: m' => if str_eqb k k' then Some v else map_get k m'
  end.

(** [normalizeType]: a falsy [type] gives ['Autre']; [type.toUpperCase()] is a
    method of strings only, and calling it on any other (truthy) value throws;
    [map[...] || type] is the label, or [type] itself when the key is not in
    [map] (every label is a non-empty string, and no upper-cased string is the
    name of a property [map] inherits). *)
Definition normalizeType (type : JsVal) : result js_string :=
  if negb (ToBoolean type) then Ok Autre
  else
    match type with
    | Str s =>
        match map_get (toUpperCase s) type_map with
        | Some label => Ok label
        | None => Ok s
        end
    | _ => Throw TypeError
    end.

Inductive consumption_level : Type := low | medium | high.

Local Open Scope float_scope.

Definition getConsumptionLevel (totalEnergy surface : float) : consumption_level :=
  if surface <=? 0 then medium
  else
    let intensity := totalEnergy / surface in
    if intensity <? 30 then low
    else if intensity <? 60 then medium
    else high.

(** ** pipeline.js: Transform *)

(** The object built by the first [map] of [transform]. *)
Module Mapped.
Record t : Type := make {
  nom : js_string;
  type : js_string;
  adresse : js_string;
  electricite_kwh : float;
  gaz_kwh : float;
  eau_m3 : float;
  surface_m2 : float;
  annee : float;
  latitude : float;
  longitude : float;
  classe_dpe : js_string;
  occupants : float
}.
End Mapped.

(** The object built by the second [map]: the twelve mapped fields (the spread
    [...record]) and the four computed ones. *)
Record canonical : Type := {
  nom : js_string;
  type : js_string;
  adresse : js_string;
  electricite_kwh : float;
  gaz_kwh : float;
  eau_m3 : float;
  surface_m2 : float;
  annee : float;
  latitude : float;
  longitude : float;
  classe_dpe : js_string;
  occupants : float;
  energie_totale_kwh : float;
  intensite_energetique : float;
  intensite_eau : float;
  niveau_conso : consumption_level
}.

(** The twelve fields a canonical record took from its mapped record. *)
Definition mapped_fields (c : canonical) : Mapped.t :=
  Mapped.make (nom c) (type c) (adresse c) (electricite_kwh c) (gaz_kwh c)
    (eau_m3 c) (surface_m2 c) (annee c) (latitude c) (longitude c)
    (classe_dpe c) (occupants c).

(** [x || 0] on a Number. *)
Definition or_zero (x : float) : float := if truthy_num x then x else zero.

(** 1. Rename fields: the callback of the first [map]. *)
Definition rename_fields (record : JsVal) : result Mapped.t :=
  let* v := get_property record (lit "nom_batiment") in
  let* nom := cleanString v in
  let* v := get_property record (lit "type_infra") in
  let* type := normalizeType v in
  let* v := get_property record (lit "adresse_postale") in
  let* adresse := cleanString v in
  let* v := get_property record (lit "conso_elec_kwh") in
  let* electricite_kwh := toNumber v in
  let* v := get_property record (lit "conso_gaz_kwh") in
  let* gaz_kwh := toNumber v in
  let* v := get_property record (lit "conso_eau_m3") in
  let* eau_m3 := toNumber v in
  let* v := get_property record (lit "surface_m2") in
  let* surface_m2 := toNumber v in
  let* v := get_property record (lit "annee") in
  let* annee := toNumber v in
  let* v := get_property record (lit "lat") in
  let* latitude := toFloat v in
  let* v := get_property record (lit "lng") in
  let* longitude := toFloat v in
  let* v := get_property record (lit "dpe_classe") in
  let* classe_dpe := cleanString v in
  let* v := get_property record (lit "nb_occupants") in
  let* occupants := toNumber v in
  Ok (Mapped.make nom type adresse electricite_kwh gaz_kwh eau_m3 surface_m2
        annee latitude longitude classe_dpe (or_zero occupants)).

(** 2. Filter out invalid entries: the callback of [filter]. *)
Definition is_valid (r : Mapped.t) : bool :=
  truthy_str (Mapped.nom r)
  && truthy_num (Mapped.latitude r) && truthy_num (Mapped.longitude r)
  && (0 <? Mapped.electricite_kwh r).

(** 3. Add computed fields: the callback of the second [map]. *)
Definition add_computed (record : Mapped.t) : canonical :=
  {| nom := Mapped.nom record;
     type := Mapped.type record;
     adresse := Mapped.adresse record;
     electricite_kwh := Mapped.electricite_kwh record;
     gaz_kwh := Mapped.gaz_kwh record;
     eau_m3 := Mapped.eau_m3 record;
     surface_m2 := Mapped.surface_m2 record;
     annee := Mapped.annee record;
     latitude := Mapped.latitude record;
     longitude := Mapped.longitude record;
     classe_dpe := Mapped.classe_dpe record;
     occupants := Mapped.occupants record;
     energie_totale_kwh := Mapped.electricite_kwh record + Mapped.gaz_kwh record;
     intensite_energetique :=
       if 0 <? Mapped.surface_m2 record
       then Math_round ((Mapped.electricite_kwh record + Mapped.gaz_kwh record)
                        / Mapped.surface_m2 record * 10) / 10
       else 0;
     intensite_eau :=
       if 0 <? Mapped.surface_m2 record
       then Math_round (Mapped.eau_m3 record / Mapped.surface_m2 record * 100) / 100
       else 0;
     niveau_conso :=
       getConsumptionLevel (Mapped.electricite_kwh record + Mapped.gaz_kwh record)
         (Mapped.surface_m2 record) |}.

(** 4. Sort: the comparator [(a, b) => b.energie_totale_kwh - a.energie_totale_kwh]. *)
Definition by_total_desc (a b : canonical) : float :=
  energie_totale_kwh b - energie_totale_kwh a.

(** [Array.prototype.sort] with a comparator.  The result of the comparator is
    read as ECMA-262's SortCompare does (NaN counts as 0), [x] goes after [y]
    only when the comparator is positive on [(x, y)], and the sort is stable, as
    the standard requires; it is written as an insertion sort.  When the
    comparator is a consistent ordering the standard leaves no other result;
    when it is not, the order is implementation-defined and this is one. *)
Section ArraySort.
Variable A : Type.
Variable comparefn : A -> A -> float.

Definition SortCompare (x y : A) : float :=
  let v := comparefn x y in
  if is_nan v then 0 else v.

Fixpoint sort_insert (x : A) (l : list A) : list A :=
  match l with
  | [] => [x]
  | y :: l' =>
      if 0 <? SortCompare x y then y :: sort_insert x l' else x :: l
  end.

Definition Array_sort (l : list A) : list A :=
  fold_right sort_insert [] l.
End ArraySort.

(** [transform]: [rawData.map] exists only on an array. *)
Definition transform (rawData : JsVal) : result (list canonical) :=
  match rawData with
  | Arr records =>
      let* renamed := mapM rename_fields records in
      Ok (Array_sort by_total_desc (map add_computed (filter is_valid renamed)))
  | _ => Throw TypeError
  end.

(** ** pipeline.js: Extract and Load *)

(** [JSON.parse(JSON.stringify(v))] for a value other than [undefined]: a
    number that is not finite becomes [null], a finite one is written and read
    back; in an array [undefined] becomes [null]; in an object a property whose
    value is [undefined] is dropped. *)
Fixpoint json_copy (v : JsVal) : JsVal :=
  match v with
  | Undefined => Null
  | Null => Null
  | Bool b => Bool b
  | Num x => if is_finite x then Num (StringToNumber (Number_toString x)) else Null
  | Str s => Str s
  | Arr elems => Arr (map json_copy elems)
  | Obj props =>
      Obj ((fix copy_props (ps : list (js_string * JsVal)) : list (js_string * JsVal) :=
              match ps with
              | [] => []
              | (k, x) :: ps' =>
                  match x with
                  | Undefined => copy_props ps'
                  | _ => (k, json_copy x) :: copy_props ps'
                  end
              end) props)
  end.

(** [extract], given the value of the imported constant [RAW_API_RESPONSE]
    (module [../data/rawData.js]).  [JSON.stringify(undefined)] is [undefined],
    which [JSON.parse] rejects; the log line reads [raw.length], which throws
    when [raw] is [null]. *)
Definition extract (RAW_API_RESPONSE : JsVal) : result JsVal :=
  let* resultats := get_property RAW_API_RESPONSE (lit "resultats") in
  match resultats with
  | Undefined => Throw SyntaxError
  | _ =>
      let raw := json_copy resultats in
      match raw with
      | Null => Throw TypeError
      | _ => Ok raw
      end
  end.

Definition load (transformedData : list canonical) : list canonical :=
  transformedData.

(** ** pipeline.js: the orchestrator [runETLPipeline]

    The module state is [processedData] and [isProcessing].  What the run makes
    observable outside the module is recorded in [events]: the calls of the
    progress callback and the [etl:complete] event. *)

Inductive step_name : Type := extract_step | transform_step | load_step.
Inductive step_status : Type := active | done.

Inductive event : Type :=
| StepUpdate (step : step_name) (status : step_status)
| EtlComplete (data : list canonical).

Record app_state : Type := {
  processedData : list canonical;
  isProcessing : bool;
  events : list event
}.

Definition initial_state : app_state :=
  {| processedData := []; isProcessing := false; events := [] |}.

Definition getData (st : app_state) : list canonical := processedData st.
Definition isETLProcessing (st : app_state) : bool := isProcessing st.

(** The argument [onStepUpdate]: absent, or a function that may throw. *)
Definition callback : Type := option (step_name -> step_status -> result unit).

(** Code that reads and writes the module state and may throw. *)
Definition M (A : Type) : Type := app_state -> app_state * result A.

Definition ret {A : Type} (a : A) : M A := fun st => (st, Ok a).

Definition bindM {A B : Type} (m : M A) (k : A -> M B) : M B :=
  fun st =>
    match m st with
    | (st', Ok a) => k a st'
    | (st', Throw e) => (st', Throw e)
    end.

Notation "x <- m ;; k" := (bindM m (fun x => k))
  (at level 61, m at next level, right associativity) : js_scope.
Notation "m ;; k" := (bindM m (fun _ => k))
  (at level 61, right associativity) : js_scope.

Definition lift {A : Type} (r : result A) : M A := fun st => (st, r).

(** Code that leaves [isProcessing] as it found it. *)
Definition keeps_flag {A : Type} (m : M A) : Prop :=
  forall st, isProcessing (fst (m st)) = isProcessing st.

Definition set_isProcessing (b : bool) (st : app_state) : app_state :=
  {| processedData := processedData st; isProcessing := b; events := events st |}.

Definition set_processedData (d : list canonical) : M unit :=
  fun st =>
    ({| processedData := d; isProcessing := isProcessing st; events := events st |}, Ok tt).

Definition emit (ev : event) (st : app_state) : app_state :=
  {| processedData := processedData st; isProcessing := isProcessing st;
     events := events st ++ [ev] |}.

(** [onStepUpdate?.(step, status)] *)
Definition notify (onStepUpdate : callback) (step : step_name) (status : step_status) : M unit :=
  fun st =>
    match onStepUpdate with
    | None => (st, Ok tt)
    | Some f => (emit (StepUpdate step status) st, f step status)
    end.

(** [window.dispatchEvent(new CustomEvent('etl:complete', ...))]; returns the
    published data, as the [return processedData] that follows it. *)
Definition dispatch_complete : M (list canonical) :=
  fun st => (emit (EtlComplete (processedData st)) st, Ok (processedData st)).

(** The three places where a run is suspended ([await delay(...)]), with the
    local variables that are live there. *)
Inductive suspended : Type :=
| await_delay_600
| await_delay_800 (rawData : JsVal)
| await_delay_500 (transformedData : list canonical).

(** The promise returned by a call of [runETLPipeline]. *)
Inductive promise : Type :=
| Pending (at_ : suspended) (onStepUpdate : callback)
| Fulfilled (value : list canonical)
| Rejected (reason : js_error).

Section Orchestrator.
Variable RAW_API_RESPONSE : JsVal.

(** The code of the [try] block from one suspension to the next, or to the
    [return]. *)
Definition try_block_from_start (onStepUpdate : callback) : M (suspended + list canonical) :=
  notify onStepUpdate extract_step active ;;
  ret (inl await_delay_600).

Definition try_block_after (at_ : suspended) (onStepUpdate : callback)
  : M (suspended + list canonical) :=
  match at_ with
  | await_delay_600 =>
      rawData <- lift (extract RAW_API_RESPONSE) ;;
      notify onStepUpdate extract_step done ;;
      notify onStepUpdate transform_step active ;;
      ret (inl (await_delay_800 rawData))
  | await_delay_800 rawData =>
      transformedData <- lift (transform rawData) ;;
      notify onStepUpdate transform_step done ;;
      notify onStepUpdate load_step active ;;
      ret (inl (await_delay_500 transformedData))
  | await_delay_500 transformedData =>
      set_processedData (load transformedData) ;;
      notify onStepUpdate load_step done ;;
      data <- dispatch_complete ;;
      ret (inr data)
  end.

(** [try { ... } finally { isProcessing = false; }]: the [finally] block runs
    when the [try] block returns or throws, not when it is suspended. *)
Definition with_finally (onStepUpdate : callback)
    (r : app_state * result (suspended + list canonical)) : app_state * promise :=
  match r with
  | (st, Ok (inl at_)) => (st, Pending at_ onStepUpdate)
  | (st, Ok (inr value)) => (set_isProcessing false st, Fulfilled value)
  | (st, Throw e) => (set_isProcessing false st, Rejected e)
  end.

(** A call of [runETLPipeline], up to its first suspension. *)
Definition runETLPipeline (onStepUpdate : callback) (st : app_state) : app_state * promise :=
  if isProcessing st then (st, Fulfilled (processedData st))
  else with_finally onStepUpdate
         (try_block_from_start onStepUpdate (set_isProcessing true st)).

(** A suspended run continues when its timer fires. *)
Definition resume (at_ : suspended) (onStepUpdate : callback) (st : app_state)
  : app_state * promise :=
  with_finally onStepUpdate (try_block_after at_ onStepUpdate st).

(** The application: the module state and the promises of the calls made so
    far.  One thread runs the calls and the timers, one at a time. *)
Record system : Type := {
  app : app_state;
  promises : list promise
}.

Definition initial_system : system :=
  {| app := initial_state; promises := [] |}.

Inductive action : Type :=
| Call (onStepUpdate : callback)
| TimerFires (i : nat).

Fixpoint replace_nth {A : Type} (i : nat) (x : A) (l : list A) : list A :=
  match l, i with
  | [], _ => []
  | _ :: l', O => x :: l'
  | y :: l', S i' => y :: replace_nth i' x l'
  end.

Definition perform (a : action) (s : system) : option system :=
  match a with
  | Call onStepUpdate =>
      let '(st, p) := runETLPipeline onStepUpdate (app s) in
      Some {| app := st; promises := promises s ++ [p] |}
  | TimerFires i =>
      match nth_error (promises s) i with
      | Some (Pending at_ onStepUpdate) =>
          let '(st, p) := resume at_ onStepUpdate (app s) in
          Some {| app := st; promises := replace_nth i p (promises s) |}
      | _ => None
      end
  end.

Inductive reachable : system -> Prop :=
| reachable_initial : reachable initial_system
| reachable_step (a : action) (s s' : system) :
    reachable s -> perform a s = Some s' -> reachable s'.

Definition is_pending (p : promise) : bool :=
  match p with
  | Pending _ _ => true
  | _ => false
  end.

Definition pending_count (l : list promise) : nat :=
  List.length (filter is_pending l).

(** The number of runs in progress. *)
Definition runs_in_progress (s : system) : nat :=
  pending_count (promises s).

(** A schedule: calls and timers, in the order they happen. *)
Fixpoint run_actions (acts : list action) (s : system) : option system :=
  match acts with
  | [] => Some s
  | a :: acts' =>
      match perform a s with
      | Some s' => run_actions acts' s'
      | None => None
      end
  end.
End Orchestrator.

(** ** The order of Numbers, and what the properties are stated with *)

Local Open Scope Z_scope.

(** An order-preserving numbering of the binary64 values other than NaN: a
    finite number [m * 2^e] is counted in units of [2^emin]. *)
Definition rank (f : spec_float) : Z :=
  match f with
  | S754_zero _ => 0
  | S754_infinity s => if s then - 2 ^ 2100 else 2 ^ 2100
  | S754_nan => 0
  | S754_finite s m e => cond_Zopp s (Z.pos m * 2 ^ (e - emin))
  end.

Definition not_nan (f : spec_float) : Prop := f <> S754_nan.

Definition frank (x : float) : Z := rank (Prim2SF x).

Local Close Scope Z_scope.

(** [a] may stand before [b] in a list sorted by decreasing total energy. *)
Definition total_ge (a b : canonical) : Prop :=
  (energie_totale_kwh b <=? energie_totale_kwh a) = true.

(** Non-increasing by [energie_totale_kwh], every record against every later
    one. *)
Definition non_increasing (l : list canonical) : Prop :=
  StronglySorted total_ge l.

(** The records whose total energy equals [t], in the order of [l]. *)
Definition with_total (t : float) (l : list canonical) : list canonical :=
  filter (fun c => energie_totale_kwh c =? t) l.

(** ** Integers among the Numbers *)

Local Open Scope Z_scope.

(** The integer that a Number is, when it is one. *)
Definition integer_of (x : float) : option Z :=
  match Prim2SF x with
  | S754_zero _ => Some 0
  | S754_finite s m e =>
      if 0 <=? e then Some (cond_Zopp s (Z.pos m * 2 ^ e))
      else if Z.pos m mod 2 ^ (- e) =? 0 then Some (cond_Zopp s (Z.pos m / 2 ^ (- e)))
      else None
  | _ => None
  end.

(** An integer or an infinity: a Number without a fractional part. *)
Definition integral (x : float) : Prop :=
  x = infinity \/ x = neg_infinity \/ exists n, integer_of x = Some n.

(** [n] is the integer nearest to the finite Number [num], the upper one when
    two are as near: [n - 1/2 <= num < n + 1/2], written for [num] as
    [sm * 2^e]. *)
Definition nearest_integer (num : float) (n : Z) : Prop :=
  match Prim2SF num with
  | S754_zero _ => n = 0
  | S754_finite s m e =>
      let sm := cond_Zopp s (Z.pos m) in
      if 0 <=? e then n = sm * 2 ^ e
      else 2 ^ (- e) * (2 * n - 1) <= 2 * sm < 2 ^ (- e) * (2 * n + 1)
  | _ => False
  end.

Local Close Scope Z_scope.

(** ** The grammar of decimal literals

    StrDecimalLiteral of ECMA-262 (7.1.4.1), the syntax that [parseFloat]
    looks for at the head of a text and that [Number] looks for in the whole
    of it, written as data: a literal, the text it stands for, and its
    value. *)

Inductive literal_sign : Type := no_sign | plus_sign | minus_sign.

(** ExponentPart: the indicator ([e] or [E]), a sign and digits. *)
Record ExponentPart : Type := {
  exponent_indicator : code_unit;
  exponent_sign : literal_sign;
  exponent_digits : js_string
}.

(** StrUnsignedDecimalLiteral: [Infinity]; digits, a point, digits or none,
    and an exponent or none; a point and digits; digits alone; the last three
    with an exponent or none. *)
Inductive StrUnsignedDecimalLiteral : Type :=
| Infinity_literal
| digits_point (int frac : js_string) (exponent : option ExponentPart)
| point_digits (frac : js_string) (exponent : option ExponentPart)
| digits_only (int : js_string) (exponent : option ExponentPart).

Record StrDecimalLiteral : Type := {
  literal_sign_of : literal_sign;
  unsigned_literal : StrUnsignedDecimalLiteral
}.

(** DecimalDigits: one decimal digit or more. *)
Definition DecimalDigits (ds : js_string) : bool :=
  negb (is_empty ds) && forallb is_digit ds.

Definition well_formed_exponent (exponent : option ExponentPart) : bool :=
  match exponent with
  | None => true
  | Some e =>
      (N.eqb (exponent_indicator e) 101 || N.eqb (exponent_indicator e) 69)
      && DecimalDigits (exponent_digits e)
  end.

Definition well_formed (l : StrDecimalLiteral) : bool :=
  match unsigned_literal l with
  | Infinity_literal => true
  | digits_point int frac exponent =>
      DecimalDigits int && forallb is_digit frac && well_formed_exponent exponent
  | point_digits frac exponent => DecimalDigits frac && well_formed_exponent exponent
  | digits_only int exponent => DecimalDigits int && well_formed_exponent exponent
  end.

Definition sign_text (s : literal_sign) : js_string :=
  match s with
  | no_sign => []
  | plus_sign => [43%N]
  | minus_sign => [45%N]
  end.

Definition exponent_text (exponent : option ExponentPart) : js_string :=
  match exponent with
  | None => []
  | Some e => exponent_indicator e :: sign_text (exponent_sign e) ++ exponent_digits e
  end.

(** The text of a literal. *)
Definition literal_text (l : StrDecimalLiteral) : js_string :=
  sign_text (literal_sign_of l)
  ++ match unsigned_literal l with
     | Infinity_literal => lit "Infinity"
     | digits_point int frac exponent => int ++ [46%N] ++ frac ++ exponent_text exponent
     | point_digits frac exponent => [46%N] ++ frac ++ exponent_text exponent
     | digits_only int exponent => int ++ exponent_text exponent
     end.

(** The number written by decimal digits, continued from [acc]. *)
Definition digits_value (acc : Z) (ds : js_string) : Z :=
  fold_left (fun a c => 10 * a + (Z.of_N c - 48))%Z ds acc.

Definition is_minus (s : literal_sign) : bool :=
  match s with
  | minus_sign => true
  | _ => false
  end.

Definition exponent_value (exponent : option ExponentPart) : Z :=
  match exponent with
  | None => 0
  | Some e =>
      let v := digits_value 0 (exponent_digits e) in
      if is_minus (exponent_sign e) then (- v)%Z else v
  end.

(** The value of a literal (StringNumericValue): the digits before and after
    the point as one integer, scaled by the power of ten of the exponent less
    the number of digits after the point, and rounded to a Number. *)
Definition literal_value (l : StrDecimalLiteral) : float :=
  let neg := is_minus (literal_sign_of l) in
  match unsigned_literal l with
  | Infinity_literal => if neg then neg_infinity else infinity
  | digits_point int frac exponent =>
      dec_to_float neg (digits_value 0 (int ++ frac))
        (exponent_value exponent - Z.of_nat (List.length frac))
  | point_digits frac exponent =>
      dec_to_float neg (digits_value 0 frac)
        (exponent_value exponent - Z.of_nat (List.length frac))
  | digits_only int exponent =>
      dec_to_float neg (digits_value 0 int) (exponent_value exponent)
  end.

(** The text [rest] begins with a decimal digit; with a point; with an
    exponent part. *)
Definition begins_with_digit (rest : js_string) : bool :=
  match rest with
  | c :: _ => is_digit c
  | [] => false
  end.

Definition begins_with_point (rest : js_string) : bool :=
  match rest with
  | c :: _ => N.eqb c 46
  | [] => false
  end.

Definition begins_with_exponent (rest : js_string) : bool :=
  match rest with
  | c :: rest' =>
      (N.eqb c 101 || N.eqb c 69)
      && match rest' with
         | d :: rest'' =>
             if (N.eqb d 43 || N.eqb d 45)%bool then begins_with_digit rest''
             else is_digit d
         | [] => false
         end
  | [] => false
  end.

(** The literal [l], followed by [rest], cannot be made longer: what follows
    does not continue it. *)
Definition ends_before (l : StrDecimalLiteral) (rest : js_string) : bool :=
  match unsigned_literal l with
  | Infinity_literal => true
  | digits_only _ None =>
      negb (begins_with_digit rest) && negb (begins_with_point rest)
      && negb (begins_with_exponent rest)
  | digits_point _ _ None | point_digits _ None =>
      negb (begins_with_digit rest) && negb (begins_with_exponent rest)
  | digits_point _ _ (Some _) | point_digits _ (Some _) | digits_only _ (Some _) =>
      negb (begins_with_digit rest)
  end.

(** The literal [l] begins the text [t]. *)
Definition begins_with_literal (t : js_string) (l : StrDecimalLiteral) : Prop :=
  well_formed l = true /\ exists rest, t = literal_text l ++ rest.

(** The literal [l] is the longest of the literals that begin [t]. *)
Definition longest_literal_of (t : js_string) (l : StrDecimalLiteral) : Prop :=
  begins_with_literal t l
  /\ forall l', begins_with_literal t l' ->
                (List.length (literal_text l') <= List.length (literal_text l))%nat.

(** What the proofs on [read_decimal] distinguish: a text that begins with a
    sign; what an exponent part, and a fraction with its exponent part, must
    not be followed by. *)
Definition begins_with_sign (s : js_string) : bool :=
  match s with
  | c :: _ => N.eqb c 43 || N.eqb c 45
  | [] => false
  end.

Definition exponent_stop (exponent : option ExponentPart) (rest : js_string) : bool :=
  match exponent with
  | None => negb (begins_with_exponent rest)
  | Some _ => negb (begins_with_digit rest)
  end.

Definition fraction_stop (exponent : option ExponentPart) (rest : js_string) : bool :=
  match exponent with
  | None => negb (begins_with_digit rest) && negb (begins_with_exponent rest)
  | Some _ => negb (begins_with_digit rest)
  end.

(** An exponent part with one digit more. *)
Definition exponent_with_digit (ex : ExponentPart) (c : code_unit) : ExponentPart :=
  {| exponent_indicator := exponent_indicator ex;
     exponent_sign := exponent_sign ex;
     exponent_digits := exponent_digits ex ++ [c] |}.

(** ** The fields of the output *)

(** [x] is the figure that the raw value [value] stands for, rounded: never
    NaN and without a fractional part; 0 for a blank value and for one that
    [Number] does not read (NaN); the infinity that [Number] reads; and for
    a finite reading [num] the integer nearest to it.  [Number] reads a Number
    as it is and a text that is a decimal literal, white space apart, as the
    value of the literal; a text of decimal digits, white space apart, that
    write an integer below [2^53] gives that integer. *)
Definition rounded_figure (value : JsVal) (x : float) : Prop :=
  is_nan x = false
  /\ integral x
  /\ (forall s, value = Str s -> DecimalDigits (trim s) = true ->
                (digits_value 0 (trim s) < 2 ^ 53)%Z ->
                integer_of x = Some (digits_value 0 (trim s)))
  /\ (is_blank value = true -> x = zero)
  /\ (is_blank value = false ->
      exists num,
        ToNumber value = Ok num
        /\ (forall n, value = Num n -> num = n)
        /\ (forall s l, value = Str s -> well_formed l = true ->
                        trim s = literal_text l -> num = literal_value l)
        /\ (is_nan num = true -> x = zero)
        /\ (num = infinity \/ num = neg_infinity -> x = num)
        /\ (is_finite num = true -> exists n, nearest_integer num n)
        /\ (forall n, nearest_integer num n -> integer_of x = Some n)).

(** The value [transform] reads for the property [name] of a raw record. *)
Definition raw_field (record : JsVal) (name : string) : JsVal :=
  match get_property record (lit name) with
  | Ok v => v
  | Throw _ => Undefined
  end.

(** ** Further notions on the pipeline *)

(** [data] is what a run publishes for the source: the result of [transform]
    on the result of [extract]. *)
Definition published_by (RAW_API_RESPONSE : JsVal) (data : list canonical) : Prop :=
  exists raw, extract RAW_API_RESPONSE = Ok raw /\ transform raw = Ok data.

(** The progress notifications a run makes: none without a callback. *)
Definition notified (onStepUpdate : callback) (l : list event) : list event :=
  match onStepUpdate with
  | None => []
  | Some _ => l
  end.

(** The levels in their order: low, medium, high. *)
Definition level_rank (l : consumption_level) : nat :=
  match l with
  | low => 0
  | medium => 1
  | high => 2
  end.

(** No [undefined] anywhere in a value. *)
Fixpoint no_undefined (v : JsVal) : bool :=
  match v with
  | Undefined => false
  | Arr elems => forallb no_undefined elems
  | Obj props => forallb (fun p => no_undefined (snd p)) props
  | _ => true
  end.

(** A value made of [null], booleans and strings, in arrays and objects: no
    number, no [undefined]. *)
Fixpoint textual (v : JsVal) : bool :=
  match v with
  | Undefined => false
  | Num _ => false
  | Arr elems => forallb textual elems
  | Obj props => forallb (fun p => textual (snd p)) props
  | _ => true
  end.

(** A string neither starts nor ends with a white-space character. *)
Definition no_outer_space (s : js_string) : Prop :=
  (forall c rest, s = c :: rest -> isWhiteSpace c = false) /\
  (forall c front, s = front ++ [c] -> isWhiteSpace c = false).

(** A computation returns (it does not throw). *)
Definition returns {A : Type} (r : result A) : bool :=
  match r with
  | Ok _ => true
  | Throw _ => false
  end.

(** The properties of a raw record that [transform] converts with
    [cleanString], [toNumber] or [toFloat]. *)
Definition converted_fields : list string :=
  [ "nom_batiment"; "adresse_postale"; "conso_elec_kwh"; "conso_gaz_kwh";
    "conso_eau_m3"; "surface_m2"; "annee"; "lat"; "lng"; "dpe_classe";
    "nb_occupants" ]%string.

(** A record that the first [map] of [transform] can map: it is neither
    [undefined] nor [null], the values of its converted properties have a
    string conversion, and its category is falsy or a string. *)
Definition convertible_record (record : JsVal) : bool :=
  match record with
  | Undefined | Null => false
  | _ =>
      forallb (fun name => returns (ToString (raw_field record name))) converted_fields
      && (negb (ToBoolean (raw_field record "type_infra"))
          || match raw_field record "type_infra" with
             | Str _ => true
             | _ => false
             end)
  end.

(** A string starts or ends with a white-space character. *)
Definition has_outer_space (s : js_string) : bool :=
  match s with
  | [] => false
  | c :: _ => isWhiteSpace c || isWhiteSpace (last s c)
  end.

(** What a suspended run holds comes from the source: the raw data is the
    result of [extract], the transformed data the result of [transform] on
    it. *)
Definition suspended_ok (RAW_API_RESPONSE : JsVal) (at_ : suspended) : Prop :=
  match at_ with
  | await_delay_600 => True
  | await_delay_800 rawData => extract RAW_API_RESPONSE = Ok rawData
  | await_delay_500 transformedData => published_by RAW_API_RESPONSE transformedData
  end.

(** A promise of a run holds only such data. *)
Definition promise_ok (RAW_API_RESPONSE : JsVal) (p : promise) : Prop :=
  match p with
  | Pending at_ _ => suspended_ok RAW_API_RESPONSE at_
  | Fulfilled value => value = [] \/ published_by RAW_API_RESPONSE value
  | Rejected _ => True
  end.

(** A completion event carries a published result. *)
Definition event_ok (RAW_API_RESPONSE : JsVal) (ev : event) : Prop :=
  match ev with
  | StepUpdate _ _ => True
  | EtlComplete data => published_by RAW_API_RESPONSE data
  end.

(** The module state holds the initial dataset or a published result, and
    its events are in order. *)
Definition state_ok (RAW_API_RESPONSE : JsVal) (st : app_state) : Prop :=
  (processedData st = [] \/ published_by RAW_API_RESPONSE (processedData st)) /\
  Forall (event_ok RAW_API_RESPONSE) (events st).

(** [v] is [null] or [undefined]. *)
Definition is_nullish (v : JsVal) : bool :=
  match v with
  | Undefined | Null => true
  | _ => false
  end.

(** The properties of a raw record that [transform] reads. *)
Definition read_fields : list string :=
  "type_infra"%string :: converted_fields.

(** Two raw records that [transform] cannot tell apart. *)
Definition same_read_fields (record record' : JsVal) : Prop :=
  is_nullish record = is_nullish record' /\
  Forall (fun name => raw_field record name = raw_field record' name) read_fields.

(** Strictly decreasing by [energie_totale_kwh]: no two totals are equal. *)
Definition strictly_decreasing (l : list canonical) : Prop :=
  StronglySorted
    (fun a b => (energie_totale_kwh b <? energie_totale_kwh a)%float = true) l.

(** ** Object literals used as tables

    [table[key] || fallback] on an object literal whose own values are
    non-empty strings: the own value when [key] is an own property; otherwise
    the property of that name that the literal inherits from
    [Object.prototype], when there is one (a function or an object, which is
    truthy); otherwise the fallback. *)

Definition Object_prototype_names : list js_string :=
  map lit
    [ "constructor"; "hasOwnProperty"; "isPrototypeOf"; "propertyIsEnumerable";
      "toLocaleString"; "toString"; "valueOf"; "__proto__";
      "__defineGetter__"; "__defineSetter__";
      "__lookupGetter__"; "__lookupSetter__" ]%string.

Inductive table_value : Type :=
| Text (s : js_string)
| InheritedProperty (name : js_string).

Definition table_get_or (table : list (js_string * js_string)) (key fallback : js_string)
  : table_value :=
  match map_get key table with
  | Some v => Text v
  | None =>
      if existsb (str_eqb key) Object_prototype_names then InheritedProperty key
      else Text fallback
  end.

(** ** visualization.js *)

(** The horizontal ellipsis, U+2026. *)
Definition ellipsis : code_unit := 8230%N.

(** [truncateLabel(label, maxLen = 20)]; [label.slice(0, maxLen)] is the first
    [maxLen] code units. *)
Definition truncateLabel (label : js_string) (maxLen : nat) : js_string :=
  if (maxLen <? List.length label)%nat then firstn maxLen label ++ [ellipsis]
  else label.

(** [s.slice(start, end)] for indices [0 <= start <= end]. *)
Definition slice (s : js_string) (start end_ : nat) : js_string :=
  firstn (end_ - start) (skipn start s).

(** [s.padStart(targetLength, fill)] for a filler of one code unit. *)
Definition padStart (s : js_string) (targetLength : nat) (fill : code_unit) : js_string :=
  repeat fill (targetLength - List.length s) ++ s.

(** The longest run of digits of the radix at the head of [s]: its value,
    continued from [acc]; [None] when there is no digit ([any] tells whether
    one was read). *)
Fixpoint read_radix_prefix (radix : Z) (s : js_string) (acc : Z) (any : bool) : option Z :=
  match s with
  | c :: s' =>
      match digit_value radix c with
      | Some v => read_radix_prefix radix s' (radix * acc + v)%Z true
      | None => if any then Some acc else None
      end
  | [] => if any then Some acc else None
  end.

(** [parseInt(s, 16)] (ECMA-262, 19.2.5): leading white space is skipped, a
    sign is read, then an optional [0x] or [0X], then the longest run of
    hexadecimal digits; without a digit the result is NaN. *)
Definition parseInt_16 (s : js_string) : float :=
  let '(neg, t) := read_sign (trimStart s) in
  let digits :=
    match t with
    | 48%N :: c :: rest => if (N.eqb c 120 || N.eqb c 88)%bool then rest else t
    | _ => t
    end in
  match read_radix_prefix 16 digits 0 false with
  | None => nan
  | Some n =>
      if (n =? 0)%Z then (if neg then neg_zero else zero)
      else round_to_float neg n 0
  end.

(** The digit of value [0 <= v < 16], in lower case. *)
Definition hex_digit (v : Z) : code_unit :=
  Z.to_N (if (v <? 10)%Z then 48 + v else 87 + v).

Fixpoint hex_digits_aux (fuel : nat) (n : Z) (acc : js_string) : js_string :=
  match fuel with
  | O => acc
  | S fuel' =>
      let acc' := hex_digit (n mod 16) :: acc in
      if (n <? 16)%Z then acc' else hex_digits_aux fuel' (n / 16) acc'
  end.

(** The hexadecimal digits of [0 <= n]. *)
Definition hex_digits (n : Z) : js_string :=
  hex_digits_aux (S (Z.to_nat (Z.log2 n))) n [].

(** The hexadecimal digits of the fraction [num / 2^k], for [0 <= num < 2^k]:
    the expansion is finite. *)
Fixpoint hex_fraction (fuel : nat) (num k : Z) : js_string :=
  match fuel with
  | O => []
  | S fuel' =>
      if (num =? 0)%Z then []
      else
        let scaled := (16 * num)%Z in
        hex_digit (scaled / 2 ^ k) :: hex_fraction fuel' (scaled mod 2 ^ k) k
  end.

(** [x.toString(16)] (ECMA-262, 21.1.3.6).  The standard fixes the result for
    NaN, the zeros and the infinities, and leaves the algorithm for the rest to
    the implementation, as a generalisation of the decimal one; an integral
    value is written with all its digits, and a fractional part is written
    here exactly. *)
Definition Number_toString_16 (x : float) : js_string :=
  match Prim2SF x with
  | S754_nan => lit "NaN"
  | S754_zero _ => lit "0"
  | S754_infinity s => if s then lit "-Infinity" else lit "Infinity"
  | S754_finite s m e =>
      (if s then lit "-" else [])
      ++ (if (0 <=? e)%Z then hex_digits (Z.pos m * 2 ^ e)
          else
            let whole := (Z.pos m / 2 ^ (- e))%Z in
            let part := (Z.pos m mod 2 ^ (- e))%Z in
            hex_digits whole
            ++ (if (part =? 0)%Z then []
                else lit "." ++ hex_fraction (Z.to_nat (- e)) part (- e)))
  end.

Definition interpolateColor (hex1 hex2 : js_string) (ratio : float) : js_string :=
  let r1 := parseInt_16 (slice hex1 1 3) in
  let g1 := parseInt_16 (slice hex1 3 5) in
  let b1 := parseInt_16 (slice hex1 5 7) in
  let r2 := parseInt_16 (slice hex2 1 3) in
  let g2 := parseInt_16 (slice hex2 3 5) in
  let b2 := parseInt_16 (slice hex2 5 7) in
  let r := Math_round (r1 + (r2 - r1) * ratio) in
  let g := Math_round (g1 + (g2 - g1) * ratio) in
  let b := Math_round (b1 + (b2 - b1) * ratio) in
  lit "#" ++ padStart (Number_toString_16 r) 2 48%N
          ++ padStart (Number_toString_16 g) 2 48%N
          ++ padStart (Number_toString_16 b) 2 48%N.

(** The Number that is the length of an array, or an index. *)
Definition Number_of_nat (n : nat) : float :=
  round_to_float false (Z.of_nat n) 0.

(** [generateColors(color1, color2, count)], for the length [count] of an
    array: the pair of [bg] and [border]. *)
Definition generateColors (color1 color2 : js_string) (count : nat)
  : list js_string * list js_string :=
  let border :=
    map (fun i =>
           let ratio :=
             if 1 <? Number_of_nat count
             then Number_of_nat i / (Number_of_nat count - 1)
             else 0 in
           interpolateColor color1 color2 ratio)
      (seq 0 count) in
  (map (fun c => c ++ lit "99") border, border).

(** A colour as an [<input type="color">] gives it, or with capitals: [#] and
    six hexadecimal digits. *)
Definition is_hex_digit (c : code_unit) : bool :=
  match digit_value 16 c with
  | Some _ => true
  | None => false
  end.

Definition is_hex_color (c : js_string) : bool :=
  match c with
  | [h; r; r'; g; g'; b; b'] =>
      N.eqb h 35 && forallb is_hex_digit [r; r'; g; g'; b; b']
  | _ => false
  end.

(** The colour with its digits in lower case. *)
Definition lower_hex (c : code_unit) : code_unit :=
  if ((65 <=? c) && (c <=? 70))%N then (c + 32)%N else c.

Definition lower_color (c : js_string) : js_string := map lower_hex c.

(** The hexadecimal digits, and their values. *)
Definition hex_chars : list code_unit :=
  [48; 49; 50; 51; 52; 53; 54; 55; 56; 57;
   97; 98; 99; 100; 101; 102; 65; 66; 67; 68; 69; 70]%N.

Definition hex_value (c : code_unit) : nat :=
  match digit_value 16 c with
  | Some v => Z.to_nat v
  | None => 0
  end.

(** One channel of [interpolateColor], from the values of the two colours. *)
Definition channel (v1 v2 : nat) (ratio : float) : js_string :=
  padStart
    (Number_toString_16
       (Math_round (Number_of_nat v1 + (Number_of_nat v2 - Number_of_nat v1) * ratio)))
    2 48%N.

(** [v < 256] written with two hexadecimal digits. *)
Definition two_hex_digits (v : nat) : js_string :=
  [hex_digit (Z.of_nat (v / 16)); hex_digit (Z.of_nat (v mod 16))].

(** ** dataTable.js *)

Definition getIntensityClass (value : float) : js_string :=
  if value <? 30 then lit "consumption-low"
  else if value <? 60 then lit "consumption-medium"
  else lit "consumption-high".

(** The object literal [map] of [getBadgeClass]. *)
Definition badge_map : list (js_string * js_string) :=
  [ (Ecole, lit "ecole");
    (Piscine, lit "piscine");
    (Mairie, lit "mairie");
    (Bibliotheque, lit "bibliotheque");
    (Gymnase, lit "gymnase");
    (Creche, lit "creche") ].

Definition getBadgeClass (type : js_string) : table_value :=
  table_get_or badge_map type (lit "ecole").

(** The header click listener of [renderTable]: the sort state is the pair of
    module variables [sortField] (initially [null]) and [sortDirection]. *)
Inductive sort_direction : Type := asc | desc.

Record sort_state : Type := {
  sortField : option js_string;
  sortDirection : sort_direction
}.

Definition initial_sort_state : sort_state :=
  {| sortField := None; sortDirection := asc |}.

Definition click_header (field : js_string) (st : sort_state) : sort_state :=
  match sortField st with
  | Some current =>
      if str_eqb current field then
        {| sortField := Some current;
           sortDirection := match sortDirection st with asc => desc | desc => asc end |}
      else {| sortField := Some field; sortDirection := asc |}
  | None => {| sortField := Some field; sortDirection := asc |}
  end.

(** The columns of [COLUMN_CONFIG] whose values are numbers. *)
Inductive numeric_column : Type :=
| col_electricite_kwh
| col_gaz_kwh
| col_eau_m3
| col_energie_totale_kwh
| col_surface_m2
| col_intensite_energetique
| col_occupants.

Definition column_number (col : numeric_column) (row : canonical) : float :=
  match col with
  | col_electricite_kwh => electricite_kwh row
  | col_gaz_kwh => gaz_kwh row
  | col_eau_m3 => eau_m3 row
  | col_energie_totale_kwh => energie_totale_kwh row
  | col_surface_m2 => surface_m2 row
  | col_intensite_energetique => intensite_energetique row
  | col_occupants => occupants row
  end.

(** The comparator of the sort in [renderTable] and [downloadCSV] when
    [sortField] is a numeric column: both values are numbers. *)
Definition by_column (col : numeric_column) (direction : sort_direction)
    (a b : canonical) : float :=
  let va := column_number col a in
  let vb := column_number col b in
  match direction with
  | asc => va - vb
  | desc => vb - va
  end.

(** [[...filtered].sort(...)] *)
Definition sort_rows (col : numeric_column) (direction : sort_direction)
    (filtered : list canonical) : list canonical :=
  Array_sort (by_column col direction) filtered.

(** [a] may stand before [b] in a table sorted by [col] in [direction]. *)
Definition in_order (col : numeric_column) (direction : sort_direction)
    (a b : canonical) : Prop :=
  match direction with
  | asc => (column_number col a <=? column_number col b)%float = true
  | desc => (column_number col b <=? column_number col a)%float = true
  end.

(** The place of a row in the order of the sort, as an integer: the rank of
    its value, counted downwards for a descending sort. *)
Definition column_position (col : numeric_column) (direction : sort_direction)
    (row : canonical) : Z :=
  match direction with
  | asc => frank (column_number col row)
  | desc => (- frank (column_number col row))%Z
  end.

(** The rows of [downloadCSV].  A value that is [null] or [undefined] gives
    the empty field; of any other value, the [replace] on [String(val)] doubles
    every double quote (code unit 34) and the result is put between double
    quotes.  The fields of a row are joined with semicolons.  A value is given
    here by [String(val)], or [None] for [null] and [undefined]. *)
Definition csv_escape (s : js_string) : js_string :=
  flat_map (fun c => if (c =? 34)%N then [34%N; 34%N] else [c]) s.

Definition csv_field (val : option js_string) : js_string :=
  match val with
  | None => []
  | Some s => 34%N :: csv_escape s ++ [34%N]
  end.

Definition csv_line (vals : list (option js_string)) : js_string :=
  join (lit ";") (map csv_field vals).

(** [row[col.key]] for the ten columns of [COLUMN_CONFIG], in order. *)
Definition column_values (row : canonical) : list (option js_string) :=
  [ Some (nom row); Some (type row);
    Some (Number_toString (electricite_kwh row));
    Some (Number_toString (gaz_kwh row));
    Some (Number_toString (eau_m3 row));
    Some (Number_toString (energie_totale_kwh row));
    Some (Number_toString (surface_m2 row));
    Some (Number_toString (intensite_energetique row));
    Some (classe_dpe row);
    Some (Number_toString (occupants row)) ].

(** The line of a row. *)
Definition csv_row (row : canonical) : js_string :=
  csv_line (column_values row).

(** What may follow the closing quote of a field: not a quote. *)
Definition not_quote_first (x : js_string) : Prop :=
  match x with
  | [] => True
  | c :: _ => c <> 34%N
  end.

(** The end of a field in a line: the end of the line, or a semicolon. *)
Definition field_end (x : js_string) : Prop :=
  x = [] \/ exists rest, x = 59%N :: rest.

(** The labels of [COLUMN_CONFIG], by their code units where they are not
    ASCII. *)
Definition COLUMN_LABELS : list js_string :=
  [ 66%N :: 226%N :: lit "timent";
    lit "Type";
    201%N :: lit "lectricit" ++ 233%N :: lit " (kWh)";
    lit "Gaz (kWh)";
    lit "Eau (m" ++ 179%N :: lit ")";
    201%N :: lit "nergie Totale (kWh)";
    lit "Surface (m" ++ 178%N :: lit ")";
    lit "Intensit" ++ 233%N :: lit " (kWh/m" ++ 178%N :: lit ")";
    lit "DPE";
    lit "Occupants" ].

(** [csvContent]: the line of the labels and the lines of the rows, joined
    with line feeds (code unit 10). *)
Definition csv_content (filtered : list canonical) : js_string :=
  join [10%N] (join (lit ";") COLUMN_LABELS :: map csv_row filtered).

(** The texts of the ten columns of a row. *)
Definition column_texts (row : canonical) : list js_string :=
  [ nom row; type row;
    Number_toString (electricite_kwh row);
    Number_toString (gaz_kwh row);
    Number_toString (eau_m3 row);
    Number_toString (energie_totale_kwh row);
    Number_toString (surface_m2 row);
    Number_toString (intensite_energetique row);
    classe_dpe row;
    Number_toString (occupants row) ].

(** The end of a row in the file: the end of the text, or a line feed. *)
Definition row_end (z : js_string) : Prop :=
  z = [] \/ exists rest, z = 10%N :: rest.

(** ** cartography.js *)

(** [TYPE_ICONS]: the emoji are written by their code units. *)
Definition TYPE_ICONS : list (js_string * js_string) :=
  [ (Ecole, [55356; 57323]);
    (Piscine, [55356; 57290]);
    (Mairie, [55356; 57307; 65039]);
    (Bibliotheque, [55357; 56538]);
    (Gymnase, [55356; 57291; 65039]);
    (Creche, [55357; 56438]) ]%N.

(** The icon of a building whose type has none. *)
Definition default_icon : js_string := [55356; 57314]%N.

(** What [addMarkers] gives to Leaflet for one building: the position, the
    level used as a class of the icon, and the icon.  The popup, whose text is
    formatted by [Intl.NumberFormat], is not represented. *)
Record marker : Type := {
  marker_position : float * float;
  marker_level : consumption_level;
  marker_icon : table_value
}.

Definition marker_of (building : canonical) : marker :=
  {| marker_position := (latitude building, longitude building);
     marker_level := niveau_conso building;
     marker_icon := table_get_or TYPE_ICONS (type building) default_icon |}.

(** [addMarkers(data)]: nothing without a layer; otherwise the layer is cleared
    and receives one marker for every building whose latitude and longitude
    are truthy, in the order of [data]. *)
Definition addMarkers (markersLayer : option (list marker)) (data : list canonical)
  : option (list marker) :=
  match markersLayer with
  | None => None
  | Some _ =>
      Some (flat_map
              (fun building =>
                 if negb (truthy_num (latitude building))
                    || negb (truthy_num (longitude building))
                 then []
                 else [marker_of building])
              data)
  end.

(** ** Sample records

    Raw records on which the properties below are evaluated. *)

Definition raw_record (fields : list (string * JsVal)) : JsVal :=
  Obj (map (fun '(k, v) => (lit k, v)) fields).

Definition text (s : string) : JsVal := Str (lit s).

(** The example of the specification: the school "Ecole Pasteur" (E acute). *)
Definition sample_pasteur : JsVal :=
  raw_record
    [ ("nom_batiment", Str (201%N :: lit "cole Pasteur"));
      ("type_infra", text "ECOLE");
      ("conso_elec_kwh", text "15000");
      ("conso_gaz_kwh", text "8000");
      ("surface_m2", text "500");
      ("lat", text "45.75");
      ("lng", text "4.83") ]%string.

(** No electricity consumption. *)
Definition sample_no_elec : JsVal :=
  raw_record
    [ ("nom_batiment", text "Gymnase Nord");
      ("type_infra", text "gymnase");
      ("conso_elec_kwh", text "0");
      ("conso_gaz_kwh", text "1200");
      ("surface_m2", text "800");
      ("lat", text "45.76");
      ("lng", text "4.84") ]%string.

(** A category outside the table, a negative gas figure, no floor area. *)
Definition sample_hopital : JsVal :=
  raw_record
    [ ("nom_batiment", text "Clinique");
      ("type_infra", text "HOPITAL");
      ("conso_elec_kwh", Num 2996);
      ("conso_gaz_kwh", text "-100");
      ("lat", Num 45);
      ("lng", Num 5) ]%string.

(** A consumption near the largest binary64 number. *)
Definition sample_huge : JsVal :=
  raw_record
    [ ("nom_batiment", text "Usine");
      ("conso_elec_kwh", text "1e308");
      ("surface_m2", Num 1);
      ("lat", Num 45);
      ("lng", Num 5) ]%string.

(** Infinite figures of opposite signs: the total is NaN. *)
Definition sample_nan_total : JsVal :=
  raw_record
    [ ("nom_batiment", text "Inconnu");
      ("conso_elec_kwh", text "Infinity");
      ("conso_gaz_kwh", text "-Infinity");
      ("surface_m2", Num 1);
      ("lat", Num 45);
      ("lng", Num 5) ]%string.

(** A category that is a number, not a string. *)
Definition sample_numeric_type : JsVal :=
  raw_record
    [ ("nom_batiment", text "Mairie annexe");
      ("type_infra", Num 42);
      ("conso_elec_kwh", text "100");
      ("lat", Num 45);
      ("lng", Num 5) ]%string.

(** Unrounded intensity 29.96, displayed as 30.0. *)
Definition sample_margin : JsVal :=
  raw_record
    [ ("nom_batiment", text "Annexe");
      ("type_infra", text "mairie");
      ("conso_elec_kwh", Num 2996);
      ("surface_m2", Num 100);
      ("lat", Num 45);
      ("lng", Num 5) ]%string.

(** A source of two records, a source without [resultats], and a source with
    a record whose category is a number. *)
Definition sample_source : JsVal :=
  raw_record [("resultats", Arr [sample_no_elec; sample_pasteur])]%string.

Definition sample_source_missing : JsVal :=
  raw_record [("total", Num 0)]%string.

Definition sample_source_bad_type : JsVal :=
  raw_record [("resultats", Arr [sample_pasteur; sample_numeric_type])]%string.

(** The application right after a first call without callback. *)
Definition sample_running : system :=
  {| app := set_isProcessing true initial_state;
     promises := [Pending await_delay_600 None] |}.

(** A progress callback that accepts every notification, and one that throws
    when Transform is done. *)
Definition quiet_callback : callback := Some (fun _ _ => Ok tt).

Definition failing_callback : callback :=
  Some (fun step status =>
          match step, status with
          | transform_step, done => Throw UserError
          | _, _ => Ok tt
          end).

(** The result of a computation that is known to return. *)
Definition returned {A : Type} (default : A) (r : result A) : A :=
  match r with
  | Ok a => a
  | Throw _ => default
  end.

Definition empty_mapped : Mapped.t :=
  Mapped.make [] [] [] zero zero zero zero zero zero zero [] zero.

(** [sample_hopital] with its properties in another order and two more. *)
Definition sample_hopital_annotated : JsVal :=
  raw_record
    [ ("lng", Num 5);
      ("source", text "PISTE");
      ("lat", Num 45);
      ("conso_gaz_kwh", text "-100");
      ("nom_batiment", text "Clinique");
      ("conso_elec_kwh", Num 2996);
      ("type_infra", text "HOPITAL");
      ("telephone", Null) ]%string.

(** The application after a whole run on [sample_source], without callback. *)
Definition sample_completed : system :=
  match run_actions sample_source
          [Call None; TimerFires 0; TimerFires 0; TimerFires 0] initial_system with
  | Some s => s
  | None => initial_system
  end.

(** A progress callback that throws when Load is done, and the application
    with a run of it suspended before Load. *)
Definition late_failing_callback (step : step_name) (status : step_status) : result unit :=
  match step, status with
  | load_step, done => Throw UserError
  | _, _ => Ok tt
  end.

Definition sample_loading : system :=
  {| app := set_isProcessing true initial_state;
     promises :=
       [Pending (await_delay_500 (returned [] (transform (Arr [sample_pasteur]))))
          (Some late_failing_callback)] |}.

(** A record with compass letters after its coordinates. *)
Definition sample_compass : JsVal :=
  raw_record
    [ ("nom_batiment", text "Gymnase du Parc");
      ("type_infra", text "GYMNASE");
      ("conso_elec_kwh", text "5000");
      ("lat", text "45.75N");
      ("lng", text "4.5E") ]%string.

(** The literals [45.75] and [-4.5e1]. *)
Definition literal_45_75 : StrDecimalLiteral :=
  {| literal_sign_of := no_sign;
     unsigned_literal := digits_point (lit "45") (lit "75") None |}.

Definition literal_minus_45 : StrDecimalLiteral :=
  {| literal_sign_of := minus_sign;
     unsigned_literal :=
       digits_point (lit "4") (lit "5")
         (Some {| exponent_indicator := 101%N;
                  exponent_sign := no_sign;
                  exponent_digits := lit "1" |}) |}.

(** * Properties *)

(** ** Facts on binary64 arithmetic *)

Module FloatFacts.
Local Open Scope Z_scope.

Lemma digits2_pos_bounds (m : positive) :
  2 ^ (Z.pos (digits2_pos m) - 1) <= Z.pos m < 2 ^ Z.pos (digits2_pos m).
Proof.
  assert (Hstep : forall d, 0 < d -> 2 ^ d = 2 * 2 ^ (d - 1)).
  { intros d Hd. replace d with (Z.succ (d - 1)) at 1 by lia.
    apply Z.pow_succ_r. lia. }
  induction m as [p IH | p IH | ]; simpl digits2_pos.
  - rewrite Pos2Z.inj_succ, Pos2Z.inj_xI.
    replace (Z.succ (Z.pos (digits2_pos p)) - 1) with (Z.pos (digits2_pos p)) by lia.
    rewrite (Hstep (Z.succ _)) by lia.
    replace (Z.succ (Z.pos (digits2_pos p)) - 1) with (Z.pos (digits2_pos p)) by lia.
    rewrite (Hstep (Z.pos (digits2_pos p))) in * by lia.
    clear Hstep. revert IH. generalize (2 ^ (Z.pos (digits2_pos p) - 1)). intros; lia.
  - rewrite Pos2Z.inj_succ. change (Z.pos p~0) with (2 * Z.pos p).
    replace (Z.succ (Z.pos (digits2_pos p)) - 1) with (Z.pos (digits2_pos p)) by lia.
    rewrite (Hstep (Z.succ _)) by lia.
    replace (Z.succ (Z.pos (digits2_pos p)) - 1) with (Z.pos (digits2_pos p)) by lia.
    rewrite (Hstep (Z.pos (digits2_pos p))) in * by lia.
    clear Hstep. revert IH. generalize (2 ^ (Z.pos (digits2_pos p) - 1)). intros; lia.
  - simpl. lia.
Qed.

Lemma shr_1_m (mrs : shr_record) :
  0 <= shr_m mrs -> shr_m (shr_1 mrs) = shr_m mrs / 2.
Proof.
  destruct mrs as [m r s]; simpl. intros Hm.
  destruct m as [ | [p | p | ] | p ]; simpl; try reflexivity; try lia.
  - rewrite Pos2Z.inj_xI. apply Z.div_unique with 1; lia.
  - change (Z.pos p~0) with (2 * Z.pos p). apply Z.div_unique with 0; lia.
Qed.

Lemma iter_shr_1_m (p : positive) : forall mrs,
  0 <= shr_m mrs ->
  shr_m (iter_pos shr_1 p mrs) = shr_m mrs / 2 ^ Z.pos p.
Proof.
  induction p as [p IH | p IH | ]; intros mrs Hm; simpl iter_pos.
  - assert (H1 : 0 <= shr_m (shr_1 mrs)) by (rewrite shr_1_m by assumption; apply Z.div_pos; lia).
    assert (H2 : 0 <= shr_m (iter_pos shr_1 p (shr_1 mrs)))
      by (rewrite IH by assumption; apply Z.div_pos; [assumption | apply Z.pow_pos_nonneg; lia]).
    rewrite IH, IH, shr_1_m by assumption.
    rewrite !Z.div_div by (try apply Z.pow_pos_nonneg; lia).
    f_equal. rewrite Pos2Z.inj_xI.
    replace (2 * Z.pos p + 1) with (1 + Z.pos p + Z.pos p) by lia.
    rewrite !Z.pow_add_r by lia. simpl (2 ^ 1). lia.
  - assert (H2 : 0 <= shr_m (iter_pos shr_1 p mrs))
      by (rewrite IH by assumption; apply Z.div_pos; [assumption | apply Z.pow_pos_nonneg; lia]).
    rewrite IH, IH by assumption.
    rewrite !Z.div_div by (try apply Z.pow_pos_nonneg; lia).
    f_equal. change (Z.pos p~0) with (2 * Z.pos p).
    replace (2 * Z.pos p) with (Z.pos p + Z.pos p) by lia.
    rewrite !Z.pow_add_r by lia. lia.
  - rewrite shr_1_m by assumption. reflexivity.
Qed.

Lemma shr_record_of_loc_m m l : shr_m (shr_record_of_loc m l) = m.
Proof. destruct l as [ | [ | | ] ]; reflexivity. Qed.

(** Shifting a positive mantissa to its canonical exponent leaves it positive,
    as long as the exponent is not below [emin]. *)
Lemma shr_fexp_pos (m : positive) (e : Z) (l : location) :
  emin <= e ->
  0 < shr_m (fst (shr_fexp prec emax (Z.pos m) e l)) /\
  emin <= snd (shr_fexp prec emax (Z.pos m) e l).
Proof.
  intros He. unfold shr_fexp, shr.
  pose proof (digits2_pos_bounds m) as [Hlo Hhi].
  simpl Zdigits2.
  destruct (fexp prec emax (Z.pos (digits2_pos m) + e) - e) as [ | n | n ] eqn:En;
    simpl fst; simpl snd; try (rewrite shr_record_of_loc_m; lia).
  rewrite iter_shr_1_m by (rewrite shr_record_of_loc_m; lia).
  rewrite shr_record_of_loc_m.
  unfold fexp, SpecFloat.emin, prec, emax in *.
  assert (Hn : Z.pos n <= Z.pos (digits2_pos m) - 1) by lia.
  split; [ | lia].
  apply Z.div_str_pos. split; [apply Z.pow_pos_nonneg; lia | ].
  apply Z.le_trans with (2 ^ (Z.pos (digits2_pos m) - 1)); [ | assumption].
  apply Z.pow_le_mono_r; lia.
Qed.

Lemma round_nearest_even_ge mx lx : mx <= round_nearest_even mx lx.
Proof.
  destruct lx as [ | [ | | ] ]; simpl; try lia.
  destruct (Z.even mx); lia.
Qed.

(** Rounding a positive mantissa at an exponent not below [emin] gives a
    finite number or an infinity of the given sign: never a zero, never NaN. *)
Lemma binary_round_aux_pos (sx : bool) (m : positive) (e : Z) (l : location) :
  emin <= e ->
  (exists m' e', binary_round_aux prec emax sx (Z.pos m) e l = S754_finite sx m' e')
  \/ binary_round_aux prec emax sx (Z.pos m) e l = S754_infinity sx.
Proof.
  intros He. unfold binary_round_aux.
  pose proof (shr_fexp_pos m l He) as [H1 H1e].
  destruct (shr_fexp prec emax (Z.pos m) e l) as [mrs' e'] eqn:E1.
  simpl fst in H1; simpl snd in H1e.
  pose proof (round_nearest_even_ge (shr_m mrs') (loc_of_shr_record mrs')) as Hr.
  destruct (round_nearest_even (shr_m mrs') (loc_of_shr_record mrs')) as [ | m1 | m1 ] eqn:E2;
    try lia.
  pose proof (shr_fexp_pos m1 loc_Exact H1e) as [H2 _].
  destruct (shr_fexp prec emax (Z.pos m1) e' loc_Exact) as [mrs'' e''] eqn:E3.
  simpl fst in H2.
  destruct (shr_m mrs'') as [ | m2 | m2 ]; try lia.
  destruct (e'' <=? emax - prec); [left; eauto | right; reflexivity].
Qed.

Lemma shl_align_exp m e e' : emin <= e -> emin <= e' -> emin <= snd (shl_align m e e').
Proof. intros. unfold shl_align. destruct (e' - e); simpl; lia. Qed.

Lemma binary_round_pos (sx : bool) (m : positive) (e : Z) :
  emin <= e ->
  (exists m' e', binary_round prec emax sx m e = S754_finite sx m' e')
  \/ binary_round prec emax sx m e = S754_infinity sx.
Proof.
  intros He. unfold binary_round.
  pose proof (@shl_align_exp m e (fexp prec emax (Z.pos (digits2_pos m) + e)) He) as Ha.
  destruct (shl_align m e (fexp prec emax (Z.pos (digits2_pos m) + e))) as [mz ez].
  apply binary_round_aux_pos. apply Ha.
  unfold fexp, SpecFloat.emin, prec, emax. lia.
Qed.


Lemma iter_xO_value (m d : positive) : Z.pos (Pos.iter xO m d) = Z.pos m * 2 ^ Z.pos d.
Proof.
  induction d as [ | d IH] using Pos.peano_ind.
  - simpl. lia.
  - rewrite Pos.iter_succ, Pos2Z.inj_succ, Z.pow_succ_r by lia.
    change (Z.pos (Pos.iter xO m d)~0) with (2 * Z.pos (Pos.iter xO m d)).
    rewrite IH. lia.
Qed.

Lemma shl_align_value (m : positive) (e ez : Z) :
  ez <= e -> Z.pos (fst (shl_align m e ez)) = Z.pos m * 2 ^ (e - ez).
Proof.
  intros Hle. unfold shl_align.
  destruct (ez - e) as [ | d | d ] eqn:Ed; simpl fst.
  - replace (e - ez) with 0 by lia. simpl. lia.
  - lia.
  - rewrite iter_xO_value. f_equal. f_equal. lia.
Qed.

(** What [bounded] says of a mantissa and its exponent. *)
Lemma bounded_inv (m : positive) (e : Z) :
  bounded prec emax m e = true ->
  emin <= e /\ Z.pos m < 2 ^ 53 /\ (emin < e -> 2 ^ 52 <= Z.pos m).
Proof.
  unfold bounded, canonical_mantissa. intros H.
  apply andb_true_iff in H as [H _]. apply Z.eqb_eq in H.
  pose proof (digits2_pos_bounds m) as [Hlo Hhi].
  unfold fexp, SpecFloat.emin, prec, emax in *.
  split; [lia | ]. split.
  - apply Z.lt_le_trans with (1 := Hhi). apply Z.pow_le_mono_r; lia.
  - intros Hlt. replace (Z.pos (digits2_pos m)) with 53 in Hlo by lia. exact Hlo.
Qed.

Lemma finite_rank_bounds (m : positive) (e : Z) :
  bounded prec emax m e = true ->
  0 < Z.pos m * 2 ^ (e - emin) < 2 ^ 2100.
Proof.
  intros H. pose proof (bounded_inv _ _ H) as (He & Hm & _).
  unfold bounded in H. apply andb_true_iff in H as [_ H]. apply Z.leb_le in H.
  unfold SpecFloat.emin, prec, emax in *.
  assert (Hp : 0 < 2 ^ (e - (3 - 1024 - 53))) by (apply Z.pow_pos_nonneg; lia).
  assert (Hq : 2 ^ (e - (3 - 1024 - 53)) <= 2 ^ 2045) by (apply Z.pow_le_mono_r; lia).
  split; [apply Z.mul_pos_pos; lia | ].
  apply Z.lt_le_trans with (2 ^ 53 * 2 ^ (e - (3 - 1024 - 53))).
  - apply Z.mul_lt_mono_pos_r; assumption.
  - apply Z.le_trans with (2 ^ 53 * 2 ^ 2045).
    + apply Z.mul_le_mono_nonneg_l; [apply Z.pow_nonneg; lia | assumption].
    + rewrite <- Z.pow_add_r by lia. apply Z.pow_le_mono_r; lia.
Qed.

(** On valid numbers other than NaN, [SFcompare] is the comparison of ranks. *)
Lemma SFcompare_rank (a b : spec_float) :
  valid_binary a = true -> valid_binary b = true ->
  not_nan a -> not_nan b ->
  SFcompare a b = Some (rank a ?= rank b).
Proof.
  intros Va Vb Na Nb.
  destruct a as [sa | sa | | sa ma ea]; try (now elim Na);
  destruct b as [sb | sb | | sb mb eb]; try (now elim Nb);
  simpl valid_binary in *; clear Na Nb;
  try (pose proof (finite_rank_bounds _ _ Va) as Ha);
  try (pose proof (finite_rank_bounds _ _ Vb) as Hb);
  try (destruct sa); try (destruct sb);
  try (cbv beta iota delta [SFcompare rank cond_Zopp]; f_equal; symmetry;
       first [ apply Z.compare_eq_iff; lia
             | apply Z.compare_lt_iff; lia
             | apply Z.compare_gt_iff; lia ]).
  all: pose proof (bounded_inv _ _ Va) as (Hea & Hma & Hna).
  all: pose proof (bounded_inv _ _ Vb) as (Heb & Hmb & Hnb).
  all: assert (Hscale : forall m1 e1 m2 e2,
               emin <= e1 -> e1 < e2 -> Z.pos m1 < 2 ^ 53 -> 2 ^ 52 <= Z.pos m2 ->
               Z.pos m1 * 2 ^ (e1 - emin) < Z.pos m2 * 2 ^ (e2 - emin))
    by (intros m1 e1 m2 e2 H1 H2 H3 H4;
        replace (e2 - emin) with ((e2 - e1) + (e1 - emin)) by lia;
        rewrite Z.pow_add_r by lia;
        assert (Hp : 0 < 2 ^ (e1 - emin)) by (apply Z.pow_pos_nonneg; lia);
        assert (Hk : 2 ^ 1 <= 2 ^ (e2 - e1)) by (apply Z.pow_le_mono_r; lia);
        rewrite Z.mul_assoc; apply Z.mul_lt_mono_pos_r; [assumption | ];
        apply Z.lt_le_trans with (2 ^ 52 * 2 ^ 1); [exact H3 | ];
        apply Z.mul_le_mono_nonneg; lia).
  all: cbv beta iota delta [SFcompare rank cond_Zopp].
  all: destruct (Z.compare_spec ea eb) as [Heq | Hlt | Hgt];
    [ subst eb; rewrite Pos.compare_cont_spec; simpl Pos.switch_Eq;
      assert (Hp : 0 < 2 ^ (ea - emin)) by (apply Z.pow_pos_nonneg; lia)
    | specialize (Hscale ma ea mb eb Hea Hlt Hma (Hnb ltac:(lia)))
    | specialize (Hscale mb eb ma ea Heb Hgt Hmb (Hna ltac:(lia))) ].
  all: f_equal; symmetry.
  all: try (first [ apply Z.compare_lt_iff; lia | apply Z.compare_gt_iff; lia ]).
  - destruct (Pos.compare_spec ma mb) as [E | L | G]; simpl CompOpp;
      [ subst mb; apply Z.compare_eq_iff; lia
      | apply Z.compare_gt_iff; nia
      | apply Z.compare_lt_iff; nia ].
  - destruct (Pos.compare_spec ma mb) as [E | L | G];
      [ subst mb; apply Z.compare_eq_iff; lia
      | apply Z.compare_lt_iff; nia
      | apply Z.compare_gt_iff; nia ].
Qed.


Lemma SFltb_zero_signed (s : bool) (r : spec_float) :
  (exists m e, r = S754_finite s m e) \/ r = S754_infinity s ->
  SFltb (S754_zero false) r = negb s.
Proof.
  intros [(m & e & ->) | ->]; destruct s; reflexivity.
Qed.

(** The sign of a difference: [b - a] is positive exactly when [a] is below
    [b].  (The difference of two equal infinities is NaN, which is not
    positive either.) *)
Lemma SFsub_positive (a b : spec_float) :
  valid_binary a = true -> valid_binary b = true ->
  not_nan a -> not_nan b ->
  SFltb (S754_zero false) (SFsub prec emax b a) = (rank a <? rank b).
Proof.
  intros Va Vb Na Nb.
  destruct a as [sa | sa | | sa ma ea]; try (now elim Na);
  destruct b as [sb | sb | | sb mb eb]; try (now elim Nb);
  simpl valid_binary in *; clear Na Nb;
  try (pose proof (finite_rank_bounds _ _ Va) as Ha);
  try (pose proof (finite_rank_bounds _ _ Vb) as Hb).
  1-8: try (destruct sa); try (destruct sb);
    cbv beta iota delta [SFsub SFltb SFcompare rank cond_Zopp negb];
    symmetry; first [ apply Z.ltb_lt; lia | apply Z.ltb_ge; lia ].
  pose proof (bounded_inv _ _ Va) as (Hea & _).
  pose proof (bounded_inv _ _ Vb) as (Heb & _).
  unfold SFsub.
  set (ez := Z.min eb ea).
  assert (Hez : emin <= ez) by (unfold ez; lia).
  rewrite !shl_align_value by (unfold ez; lia).
  set (P := 2 ^ (ez - emin)).
  assert (HP : 0 < P) by (apply Z.pow_pos_nonneg; lia).
  assert (Hra : rank (S754_finite sa ma ea) = cond_Zopp sa (Z.pos ma * 2 ^ (ea - ez)) * P).
  { unfold rank, P. replace (ea - emin) with ((ea - ez) + (ez - emin)) by lia.
    rewrite Z.pow_add_r by (unfold ez; lia). destruct sa; unfold cond_Zopp; ring. }
  assert (Hrb : rank (S754_finite sb mb eb) = cond_Zopp sb (Z.pos mb * 2 ^ (eb - ez)) * P).
  { unfold rank, P. replace (eb - emin) with ((eb - ez) + (ez - emin)) by lia.
    rewrite Z.pow_add_r by (unfold ez; lia). destruct sb; unfold cond_Zopp; ring. }
  rewrite Hra, Hrb.
  set (vb := cond_Zopp sb (Z.pos mb * 2 ^ (eb - ez))).
  set (va := cond_Zopp sa (Z.pos ma * 2 ^ (ea - ez))).
  destruct (vb - va) as [ | d | d ] eqn:Ed; unfold binary_normalize.
  - symmetry. apply Z.ltb_ge. nia.
  - rewrite (SFltb_zero_signed (binary_round_pos false d Hez)).
    symmetry. apply Z.ltb_lt. nia.
  - rewrite (SFltb_zero_signed (binary_round_pos true d Hez)).
    symmetry. apply Z.ltb_ge. nia.
Qed.


(** *** The same facts on primitive floats *)

Lemma SFcompare_nan_l b : SFcompare S754_nan b = None.
Proof. reflexivity. Qed.

Lemma SFcompare_nan_r a : SFcompare a S754_nan = None.
Proof. destruct a; reflexivity. Qed.

Lemma is_nan_false (x : float) : is_nan x = false <-> not_nan (Prim2SF x).
Proof.
  unfold is_nan, not_nan. rewrite eqb_spec. unfold SFeqb. split.
  - intros H E. rewrite E in H. discriminate.
  - intros H. rewrite (SFcompare_rank (Prim2SF_valid x) (Prim2SF_valid x) H H).
    rewrite Z.compare_refl. reflexivity.
Qed.

Lemma is_nan_true (x : float) : is_nan x = true <-> Prim2SF x = S754_nan.
Proof.
  split.
  - intros H. destruct (Prim2SF x) eqn:E; try reflexivity;
      assert (Hn : is_nan x = false) by (apply is_nan_false; rewrite E; discriminate);
      congruence.
  - intros E. destruct (is_nan x) eqn:H; [reflexivity | ].
    apply is_nan_false in H. contradiction.
Qed.

Lemma ltb_rank (x y : float) :
  is_nan x = false -> is_nan y = false -> (x <? y)%float = (frank x <? frank y).
Proof.
  intros Hx%is_nan_false Hy%is_nan_false. rewrite ltb_spec. unfold SFltb, frank.
  rewrite (SFcompare_rank (Prim2SF_valid x) (Prim2SF_valid y) Hx Hy).
  rewrite Z.ltb_compare. reflexivity.
Qed.

Lemma leb_rank (x y : float) :
  is_nan x = false -> is_nan y = false -> (x <=? y)%float = (frank x <=? frank y).
Proof.
  intros Hx%is_nan_false Hy%is_nan_false. rewrite leb_spec. unfold SFleb, frank.
  rewrite (SFcompare_rank (Prim2SF_valid x) (Prim2SF_valid y) Hx Hy).
  rewrite Z.leb_compare. destruct (rank (Prim2SF x) ?= rank (Prim2SF y)); reflexivity.
Qed.

Lemma eqb_rank (x y : float) :
  is_nan x = false -> is_nan y = false -> (x =? y)%float = (frank x =? frank y).
Proof.
  intros Hx%is_nan_false Hy%is_nan_false. rewrite eqb_spec. unfold SFeqb, frank.
  rewrite (SFcompare_rank (Prim2SF_valid x) (Prim2SF_valid y) Hx Hy).
  rewrite Z.eqb_compare. reflexivity.
Qed.

(** A comparison that holds has no NaN operand. *)
Lemma compared_not_nan (x y : float) :
  (x <? y)%float = true \/ (x <=? y)%float = true \/ (x =? y)%float = true ->
  is_nan x = false /\ is_nan y = false.
Proof.
  rewrite ltb_spec, leb_spec, eqb_spec. unfold SFltb, SFleb, SFeqb. intros H.
  split; apply is_nan_false; intros E; rewrite E in H.
  - rewrite SFcompare_nan_l in H. intuition discriminate.
  - rewrite SFcompare_nan_r in H. intuition discriminate.
Qed.

(** [0 < y - x] is [x < y], whenever neither operand is NaN. *)
Lemma sub_positive (x y : float) :
  is_nan x = false -> is_nan y = false ->
  (0 <? y - x)%float = (frank x <? frank y).
Proof.
  intros Hx%is_nan_false Hy%is_nan_false.
  rewrite ltb_spec, sub_spec.
  change (Prim2SF 0) with (S754_zero false).
  apply SFsub_positive; auto using Prim2SF_valid.
Qed.


(** *** Rounding never produces NaN *)

Lemma shr_fexp_nonneg (m e : Z) (l : location) :
  0 <= m -> 0 <= shr_m (fst (shr_fexp prec emax m e l)).
Proof.
  intros Hm. unfold shr_fexp, shr.
  destruct (fexp prec emax (Zdigits2 m + e) - e) as [ | n | n ]; simpl fst;
    try (rewrite shr_record_of_loc_m; assumption).
  rewrite iter_shr_1_m by (rewrite shr_record_of_loc_m; assumption).
  rewrite shr_record_of_loc_m. apply Z.div_pos; [assumption | ].
  apply Z.pow_pos_nonneg; lia.
Qed.

Lemma binary_round_aux_not_nan (sx : bool) (m e : Z) (l : location) :
  0 <= m -> not_nan (binary_round_aux prec emax sx m e l).
Proof.
  intros Hm. unfold binary_round_aux, not_nan.
  pose proof (shr_fexp_nonneg e l Hm) as H1.
  destruct (shr_fexp prec emax m e l) as [mrs' e'].
  simpl fst in H1.
  pose proof (round_nearest_even_ge (shr_m mrs') (loc_of_shr_record mrs')) as Hr.
  assert (H2 : 0 <= round_nearest_even (shr_m mrs') (loc_of_shr_record mrs')) by lia.
  pose proof (shr_fexp_nonneg e' loc_Exact H2) as H3.
  destruct (shr_fexp prec emax _ e' loc_Exact) as [mrs'' e''].
  simpl fst in H3.
  destruct (shr_m mrs'') as [ | m2 | m2 ]; try lia; try discriminate.
  destruct (e'' <=? emax - prec); discriminate.
Qed.

Lemma binary_round_not_nan (sx : bool) (m : positive) (e : Z) :
  not_nan (binary_round prec emax sx m e).
Proof.
  unfold binary_round.
  destruct (shl_align m e (fexp prec emax (Z.pos (digits2_pos m) + e))) as [mz ez].
  apply binary_round_aux_not_nan. lia.
Qed.

Lemma binary_normalize_not_nan (m e : Z) (szero : bool) :
  not_nan (binary_normalize prec emax m e szero).
Proof.
  destruct m; simpl; try apply binary_round_not_nan. discriminate.
Qed.

Lemma SFldexp_not_nan (f : spec_float) (e : Z) :
  not_nan f -> not_nan (SFldexp prec emax f e).
Proof.
  destruct f; simpl; auto. intros _. apply binary_round_not_nan.
Qed.

Lemma SF2Prim_not_nan (f : spec_float) : not_nan f -> is_nan (SF2Prim f) = false.
Proof.
  intros Hf. destruct f as [s | s | | s m e].
  - destruct s; reflexivity.
  - destruct s; reflexivity.
  - now elim Hf.
  - assert (H : is_nan (Z.ldexp (of_uint63 (Uint63.of_Z (Z.pos m))) e) = false).
    { apply is_nan_false. rewrite Z_ldexp_spec, of_uint63_spec.
      apply SFldexp_not_nan, binary_normalize_not_nan. }
    unfold SF2Prim.
    set (f := Z.ldexp (of_uint63 (Uint63.of_Z (Z.pos m))) e) in *.
    destruct s; [ | exact H].
    apply is_nan_false. rewrite opp_spec. apply is_nan_false in H.
    unfold not_nan in *. destruct (Prim2SF f); simpl; congruence.
Qed.

Lemma round_to_float_not_nan (neg : bool) (m e : Z) :
  is_nan (JSNumber.round_to_float neg m e) = false.
Proof.
  unfold JSNumber.round_to_float. apply SF2Prim_not_nan, binary_normalize_not_nan.
Qed.

(** [Math.round] of a number is a number. *)
Lemma Math_round_not_nan (x : float) :
  is_nan x = false -> is_nan (JSNumber.Math_round x) = false.
Proof.
  intros Hx. unfold JSNumber.Math_round.
  destruct (Prim2SF x) as [s | s | | s m e]; try assumption.
  destruct (0 <=? e); [assumption | ].
  match goal with |- context [if ?c then _ else _] => destruct c end.
  - destruct s; reflexivity.
  - apply round_to_float_not_nan.
Qed.

End FloatFacts.

Import FloatFacts.

(** ** The error monad and [map] *)

Lemma bind_Ok {A B : Type} (r : result A) (k : A -> result B) (b : B) :
  bind r k = Ok b -> exists a, r = Ok a /\ k a = Ok b.
Proof.
  destruct r as [a | e]; simpl; intros H; [eauto | discriminate].
Qed.

(** Splits a hypothesis [bind r k = Ok b] into the two results it stands for. *)
Ltac inv_bind H :=
  let a := fresh "a" in
  let Ha := fresh "E" in
  apply bind_Ok in H; destruct H as (a & Ha & H).

Lemma mapM_Forall2 {A B : Type} (f : A -> result B) (l : list A) (l' : list B) :
  mapM f l = Ok l' <-> Forall2 (fun x y => f x = Ok y) l l'.
Proof.
  revert l'. induction l as [ | x l IH]; intros l'; simpl.
  - split.
    + intros H. injection H as <-. constructor.
    + intros H. inversion H. reflexivity.
  - split.
    + intros H. inv_bind H. inv_bind H. injection H as <-.
      constructor; [assumption | now apply IH].
    + intros H. inversion H as [ | x' y l1 l2 Hxy Hrest]; subst.
      rewrite Hxy. simpl. apply IH in Hrest. rewrite Hrest. reflexivity.
Qed.

Lemma mapM_In {A B : Type} (f : A -> result B) (l : list A) (l' : list B) :
  mapM f l = Ok l' ->
  (forall x, In x l -> exists y, f x = Ok y /\ In y l') /\
  (forall y, In y l' -> exists x, In x l /\ f x = Ok y).
Proof.
  intros H%mapM_Forall2. induction H as [ | x y l l' Hxy _ [IH1 IH2]].
  - split; intros ? [].
  - split.
    + intros x0 [<- | Hin]; [exists y; simpl; auto | ].
      destruct (IH1 _ Hin) as (y0 & ? & ?). exists y0; simpl; auto.
    + intros y0 [<- | Hin]; [exists x; simpl; auto | ].
      destruct (IH2 _ Hin) as (x0 & ? & ?). exists x0; simpl; auto.
Qed.

(** [map] never throws when its callback does not. *)
Lemma mapM_total {A B : Type} (f : A -> result B) (l : list A) :
  (forall x, In x l -> exists y, f x = Ok y) -> exists l', mapM f l = Ok l'.
Proof.
  induction l as [ | x l IH]; intros H; simpl.
  - eauto.
  - destruct (H x (or_introl eq_refl)) as (y & ->).
    destruct IH as (l' & ->); [intros; apply H; now right | ].
    simpl. eauto.
Qed.

(** ** [Array.prototype.sort] *)

Section ArraySortFacts.
Variable A : Type.
Variable comparefn : A -> A -> float.

Lemma sort_insert_perm (x : A) (l : list A) :
  Permutation (sort_insert comparefn x l) (x :: l).
Proof.
  induction l as [ | y l IH]; simpl.
  - reflexivity.
  - destruct (0 <? SortCompare comparefn x y)%float.
    + rewrite IH. apply perm_swap.
    + reflexivity.
Qed.

Lemma Array_sort_perm (l : list A) : Permutation (Array_sort comparefn l) l.
Proof.
  induction l as [ | x l IH]; simpl.
  - reflexivity.
  - rewrite sort_insert_perm. now constructor.
Qed.

Lemma Array_sort_In (l : list A) (x : A) : In x (Array_sort comparefn l) <-> In x l.
Proof.
  split; apply Permutation_in; [ | symmetry ]; apply Array_sort_perm.
Qed.

(** NaN from the comparator counts as 0, which is not positive either. *)
Lemma SortCompare_positive (x y : A) :
  (0 <? SortCompare comparefn x y)%float = (0 <? comparefn x y)%float.
Proof.
  unfold SortCompare. destruct (is_nan (comparefn x y)) eqn:E; [ | reflexivity].
  apply is_nan_true in E. rewrite (ltb_spec 0 (comparefn x y)), E. reflexivity.
Qed.

(** Stability: an insertion does not move [x] past a record that a filter
    [keep] keeps together with [x]. *)
Lemma sort_insert_filter (keep : A -> bool) (x : A) (l : list A) :
  (forall y, keep x = true -> keep y = true ->
             (0 <? SortCompare comparefn x y)%float = false) ->
  filter keep (sort_insert comparefn x l) = filter keep (x :: l).
Proof.
  intros Hkeep. induction l as [ | y l IH]; simpl.
  - reflexivity.
  - destruct (0 <? SortCompare comparefn x y)%float eqn:Hc; [ | reflexivity].
    simpl. simpl in IH. rewrite IH.
    specialize (Hkeep y).
    destruct (keep x), (keep y); try reflexivity.
    rewrite Hkeep in Hc by reflexivity. discriminate.
Qed.

Lemma Array_sort_filter (keep : A -> bool) (l : list A) :
  (forall x y, keep x = true -> keep y = true ->
               (0 <? SortCompare comparefn x y)%float = false) ->
  filter keep (Array_sort comparefn l) = filter keep l.
Proof.
  intros Hkeep. induction l as [ | x l IH]; simpl.
  - reflexivity.
  - rewrite sort_insert_filter by (intros; now apply Hkeep).
    simpl. now rewrite IH.
Qed.
End ArraySortFacts.

(** ** The built-in conversions, on examples *)

Example StringToNumber_examples :
  StringToNumber (lit " 15000 ") = 15000%float /\
  StringToNumber (lit "45.75") = 45.75%float /\
  StringToNumber (lit "0.1") = 0x1.999999999999ap-4%float /\
  StringToNumber (lit "-1.5e3") = (-1500)%float /\
  StringToNumber (lit "0x1F") = 31%float /\
  StringToNumber (lit "") = 0%float /\
  StringToNumber (lit "1e400") = infinity /\
  StringToNumber (lit "-Infinity") = neg_infinity /\
  is_nan (StringToNumber (lit "12 kWh")) = true /\
  parseFloat_string (lit "12 kWh") = 12%float /\
  parseFloat_string (lit "  4.5e") = 4.5%float /\
  is_nan (parseFloat_string (lit "kWh 12")) = true.
Proof.
  vm_compute. repeat split.
Qed.

Example Math_round_examples :
  map Math_round [0.5; 1.5; 2.5; -1.5; -2.5; 46; 229.5; 0x1.fffffffffffffp-2]%float
  = [1; 2; 3; -1; -2; 46; 230; 0]%float /\
  Math_round infinity = infinity /\
  Leibniz.eqb (Math_round (-0.5)) neg_zero = true.
Proof.
  vm_compute. repeat split.
Qed.

Example Number_toString_examples :
  map Number_toString [45.75; 0x1.999999999999ap-4; 1e21; 123456; -0.5; 0; 0x1p-20]%float
  = map lit ["45.75"; "0.1"; "1e+21"; "123456"; "-0.5"; "0"; "9.5367431640625e-7"]%string /\
  ToString (Arr [Num 1; Null; text "a"; Arr [Bool true; Undefined]; Obj []])
  = Ok (lit "1,,a,true,,[object Object]") /\
  ToString (raw_record [("toString", Num 1)]%string) = Throw TypeError.
Proof.
  vm_compute. repeat split.
Qed.

(** [toUpperCase] leaves no lower-case ASCII letter: no upper-cased string is
    the name of a property that the object literal of [normalizeType] inherits
    ([constructor], [toString], [valueOf], [hasOwnProperty], ...). *)
Lemma toUpperCase_no_lowercase (s : js_string) :
  Forall (fun c => ((97 <=? c) && (c <=? 122))%N = false) (toUpperCase s).
Proof.
  unfold toUpperCase. induction s as [ | c s IH]; simpl; [constructor | ].
  apply Forall_app. split; [ | assumption].
  unfold upper_code_unit.
  repeat match goal with
         | |- context [if ?b then _ else _] => destruct b eqn:?
         end;
    repeat constructor;
    repeat match goal with
           | H : (_ && _)%bool = true |- _ => apply andb_true_iff in H; destruct H
           | H : (_ || _)%bool = true |- _ => apply orb_true_iff in H; destruct H
           | H : (_ =? _)%N = true |- _ => apply N.eqb_eq in H; subst
           | H : (_ <=? _)%N = true |- _ => apply N.leb_le in H
           end;
    try reflexivity;
    try (apply andb_false_iff; rewrite !N.leb_gt; lia).
  assumption.
Qed.

(** ** The comparator of [transform] *)

Lemma by_total_desc_positive (a b : canonical) :
  is_nan (energie_totale_kwh a) = false ->
  is_nan (energie_totale_kwh b) = false ->
  (0 <? SortCompare by_total_desc a b)%float
  = (frank (energie_totale_kwh a) <? frank (energie_totale_kwh b))%Z.
Proof.
  intros Ha Hb. rewrite SortCompare_positive. unfold by_total_desc.
  now apply sub_positive.
Qed.

Lemma total_ge_rank (a b : canonical) :
  total_ge a b <->
  is_nan (energie_totale_kwh a) = false /\ is_nan (energie_totale_kwh b) = false /\
  (frank (energie_totale_kwh b) <= frank (energie_totale_kwh a))%Z.
Proof.
  unfold total_ge. split.
  - intros H. destruct (@compared_not_nan (energie_totale_kwh b) (energie_totale_kwh a))
      as [Hb Ha]; [auto | ].
    rewrite leb_rank in H by assumption. apply Z.leb_le in H. auto.
  - intros (Ha & Hb & H). rewrite leb_rank by assumption. now apply Z.leb_le.
Qed.

Lemma total_ge_trans (a b c : canonical) : total_ge a b -> total_ge b c -> total_ge a c.
Proof.
  rewrite !total_ge_rank. intros (? & ? & ?) (? & ? & ?). repeat split; auto. lia.
Qed.

Lemma HdRel_sort_insert (y x : canonical) (l : list canonical) :
  total_ge y x -> HdRel total_ge y l -> HdRel total_ge y (sort_insert by_total_desc x l).
Proof.
  intros Hyx Hyl. destruct l as [ | z l]; simpl.
  - now constructor.
  - destruct (0 <? SortCompare by_total_desc x z)%float; constructor;
      [now inversion Hyl | assumption].
Qed.

Lemma sort_insert_sorted (x : canonical) (l : list canonical) :
  is_nan (energie_totale_kwh x) = false ->
  Forall (fun c => is_nan (energie_totale_kwh c) = false) l ->
  Sorted total_ge l -> Sorted total_ge (sort_insert by_total_desc x l).
Proof.
  intros Hx Hl Hs. induction l as [ | y l IH]; simpl.
  - repeat constructor.
  - inversion Hl as [ | ? ? Hy Hl']; subst. inversion Hs as [ | ? ? Hs' Hhd]; subst.
    rewrite by_total_desc_positive by assumption.
    destruct (frank (energie_totale_kwh x) <? frank (energie_totale_kwh y))%Z eqn:Hc.
    + apply Z.ltb_lt in Hc. constructor; [now apply IH | ].
      apply HdRel_sort_insert; [ | assumption].
      apply total_ge_rank. repeat split; auto. lia.
    + apply Z.ltb_ge in Hc. constructor; [assumption | ].
      constructor. apply total_ge_rank. repeat split; auto.
Qed.

(** Without a NaN among the totals, the sort leaves the list non-increasing. *)
Lemma Array_sort_non_increasing (l : list canonical) :
  Forall (fun c => is_nan (energie_totale_kwh c) = false) l ->
  non_increasing (Array_sort by_total_desc l).
Proof.
  intros Hl. apply Sorted_StronglySorted.
  - intros a b c. apply total_ge_trans.
  - induction l as [ | x l IH]; simpl.
    + constructor.
    + inversion Hl; subst. apply sort_insert_sorted; auto.
      apply Forall_forall. intros c Hc%Array_sort_In.
      revert c Hc. now apply Forall_forall.
Qed.

(** The sort is stable: records of equal total keep their order. *)
Lemma Array_sort_stable (t : float) (l : list canonical) :
  with_total t (Array_sort by_total_desc l) = with_total t l.
Proof.
  unfold with_total. apply Array_sort_filter. intros x y Hx Hy.
  destruct (@compared_not_nan (energie_totale_kwh x) t) as [Nx Nt]; [auto | ].
  destruct (@compared_not_nan (energie_totale_kwh y) t) as [Ny _]; [auto | ].
  rewrite eqb_rank in Hx, Hy by assumption. apply Z.eqb_eq in Hx, Hy.
  rewrite by_total_desc_positive by assumption. apply Z.ltb_ge. lia.
Qed.

(** ** The utility functions *)

Lemma toFloat_not_nan (value : JsVal) (x : float) :
  toFloat value = Ok x -> is_nan x = false.
Proof.
  unfold toFloat. destruct (is_blank value).
  - intros H. injection H as <-. reflexivity.
  - intros H. inv_bind H. injection H as <-.
    destruct (is_nan a) eqn:N; [reflexivity | assumption].
Qed.

Lemma toNumber_not_nan (value : JsVal) (x : float) :
  toNumber value = Ok x -> is_nan x = false.
Proof.
  unfold toNumber. destruct (is_blank value).
  - intros H. injection H as <-. reflexivity.
  - intros H. inv_bind H. injection H as <-.
    destruct (is_nan a) eqn:N; [reflexivity | now apply Math_round_not_nan].
Qed.

Lemma or_zero_not_nan (x : float) : is_nan (or_zero x) = false.
Proof.
  unfold or_zero, truthy_num. destruct (is_nan x) eqn:E.
  - rewrite orb_true_r. reflexivity.
  - destruct (is_zero x); [reflexivity | assumption].
Qed.

(** On a number that is not NaN, truthiness is being different from zero. *)
Lemma truthy_num_not_nan (x : float) :
  is_nan x = false -> truthy_num x = negb (is_zero x).
Proof.
  intros E. unfold truthy_num. rewrite E, orb_false_r. reflexivity.
Qed.

Lemma truthy_str_nonempty (s : js_string) : truthy_str s = true <-> s <> [].
Proof.
  unfold truthy_str. destruct s; simpl; split; congruence.
Qed.

(** ** [transform], step by step *)

(** What the first [map] puts in each field of the object it builds. *)
Lemma rename_fields_inv (record : JsVal) (r : Mapped.t) :
  rename_fields record = Ok r ->
  cleanString (raw_field record "nom_batiment") = Ok (Mapped.nom r) /\
  normalizeType (raw_field record "type_infra") = Ok (Mapped.type r) /\
  cleanString (raw_field record "adresse_postale") = Ok (Mapped.adresse r) /\
  toNumber (raw_field record "conso_elec_kwh") = Ok (Mapped.electricite_kwh r) /\
  toNumber (raw_field record "conso_gaz_kwh") = Ok (Mapped.gaz_kwh r) /\
  toNumber (raw_field record "conso_eau_m3") = Ok (Mapped.eau_m3 r) /\
  toNumber (raw_field record "surface_m2") = Ok (Mapped.surface_m2 r) /\
  toNumber (raw_field record "annee") = Ok (Mapped.annee r) /\
  toFloat (raw_field record "lat") = Ok (Mapped.latitude r) /\
  toFloat (raw_field record "lng") = Ok (Mapped.longitude r) /\
  cleanString (raw_field record "dpe_classe") = Ok (Mapped.classe_dpe r) /\
  exists n, toNumber (raw_field record "nb_occupants") = Ok n /\
            Mapped.occupants r = or_zero n.
Proof.
  intros H. unfold rename_fields in H. unfold raw_field.
  repeat inv_bind H. injection H as <-. simpl.
  repeat match goal with
         | E : get_property _ _ = Ok _ |- _ => rewrite E; clear E
         end.
  repeat split; try assumption. eauto.
Qed.

(** The first [map] succeeds on a record whose twelve conversions succeed. *)
Lemma rename_fields_total (record : JsVal) :
  record <> Undefined -> record <> Null ->
  (forall name, exists s, cleanString (raw_field record name) = Ok s) ->
  (forall name, exists x, toNumber (raw_field record name) = Ok x) ->
  (forall name, exists x, toFloat (raw_field record name) = Ok x) ->
  (exists s, normalizeType (raw_field record "type_infra") = Ok s) ->
  exists r, rename_fields record = Ok r.
Proof.
  intros Hu Hn Hs Hx Hf Ht.
  assert (Hget : forall name, get_property record (lit name) = Ok (raw_field record name)).
  { intros name. unfold raw_field.
    destruct record; try congruence; simpl; try reflexivity.
    destruct (own_property (lit name) props); reflexivity. }
  unfold rename_fields.
  rewrite Hget; cbn [bind]; destruct (Hs "nom_batiment"%string) as (? & ->); cbn [bind].
  rewrite Hget; cbn [bind]; destruct Ht as (? & ->); cbn [bind].
  rewrite Hget; cbn [bind]; destruct (Hs "adresse_postale"%string) as (? & ->); cbn [bind].
  rewrite Hget; cbn [bind]; destruct (Hx "conso_elec_kwh"%string) as (? & ->); cbn [bind].
  rewrite Hget; cbn [bind]; destruct (Hx "conso_gaz_kwh"%string) as (? & ->); cbn [bind].
  rewrite Hget; cbn [bind]; destruct (Hx "conso_eau_m3"%string) as (? & ->); cbn [bind].
  rewrite Hget; cbn [bind]; destruct (Hx "surface_m2"%string) as (? & ->); cbn [bind].
  rewrite Hget; cbn [bind]; destruct (Hx "annee"%string) as (? & ->); cbn [bind].
  rewrite Hget; cbn [bind]; destruct (Hf "lat"%string) as (? & ->); cbn [bind].
  rewrite Hget; cbn [bind]; destruct (Hf "lng"%string) as (? & ->); cbn [bind].
  rewrite Hget; cbn [bind]; destruct (Hs "dpe_classe"%string) as (? & ->); cbn [bind].
  rewrite Hget; cbn [bind]; destruct (Hx "nb_occupants"%string) as (? & ->); cbn [bind].
  eauto.
Qed.

Lemma transform_inv (rawData : JsVal) (out : list canonical) :
  transform rawData = Ok out ->
  exists records renamed,
    rawData = Arr records /\
    mapM rename_fields records = Ok renamed /\
    out = Array_sort by_total_desc (map add_computed (filter is_valid renamed)).
Proof.
  unfold transform. destruct rawData; try discriminate.
  intros H. inv_bind H. injection H as <-. eauto.
Qed.

(** [transform] returns whenever the first [map] does. *)
Lemma transform_total (records : list JsVal) :
  (forall record, In record records -> exists r, rename_fields record = Ok r) ->
  exists out, transform (Arr records) = Ok out.
Proof.
  intros H. destruct (mapM_total rename_fields records H) as (renamed & E).
  unfold transform. rewrite E. simpl. eauto.
Qed.

Lemma mapped_fields_add_computed (r : Mapped.t) : mapped_fields (add_computed r) = r.
Proof. destruct r; reflexivity. Qed.

(** The records of the output are the valid mapped records, with their computed
    fields. *)
Lemma transform_member (rawData : JsVal) (out : list canonical) (c : canonical) :
  transform rawData = Ok out ->
  (In c out <->
   exists records record r,
     rawData = Arr records /\ In record records /\ rename_fields record = Ok r /\
     is_valid r = true /\ c = add_computed r).
Proof.
  intros H. apply transform_inv in H as (records & renamed & -> & Hmap & ->).
  rewrite Array_sort_In, in_map_iff.
  destruct (mapM_In _ _ Hmap) as [Hfwd Hbwd]. split.
  - intros (r & <- & Hr). apply filter_In in Hr as [Hin Hvalid].
    destruct (Hbwd r Hin) as (record & ? & ?).
    exists records, record, r. auto.
  - intros (records' & record & r & Heq & Hin & Hr & Hvalid & ->).
    injection Heq as <-. exists r. split; [reflexivity | ].
    apply filter_In. split; [ | assumption].
    destruct (Hfwd record Hin) as (r' & Hr' & Hin'). congruence.
Qed.

(** ** Integers among the Numbers *)

Local Open Scope Z_scope.

Lemma digits2_pos_unique (q : positive) (k : Z) :
  2 ^ (k - 1) <= Z.pos q < 2 ^ k -> Z.pos (digits2_pos q) = k.
Proof.
  intros [Hlo Hhi]. pose proof (digits2_pos_bounds q) as [Dlo Dhi].
  set (d := Z.pos (digits2_pos q)) in *.
  assert (Hk : 0 < k).
  { destruct (Z.lt_trichotomy k 0) as [H | [H | H]]; [ | | assumption].
    - rewrite Z.pow_neg_r in Hhi by assumption. lia.
    - subst k. simpl in Hhi. lia. }
  destruct (Z.lt_trichotomy d k) as [H | [H | H]]; [ | assumption | ].
  - assert (2 ^ d <= 2 ^ (k - 1)) by (apply Z.pow_le_mono_r; lia). lia.
  - assert (2 ^ k <= 2 ^ (d - 1)) by (apply Z.pow_le_mono_r; lia). lia.
Qed.

Lemma shl_align_snd (m : positive) (e ez : Z) : ez <= e -> snd (shl_align m e ez) = ez.
Proof.
  intros H. unfold shl_align. destruct (ez - e) eqn:E; simpl; lia.
Qed.

(** A positive integer below [2^53] is a binary64 number: rounding it gives it
    back. *)
Lemma binary_round_integer (sx : bool) (p : positive) :
  Z.pos p < 2 ^ 53 ->
  exists mz ez,
    binary_round prec emax sx p 0 = S754_finite sx mz ez /\
    ez <= 0 /\ Z.pos mz = Z.pos p * 2 ^ (- ez) /\
    bounded prec emax mz ez = true.
Proof.
  intros Hp. unfold binary_round.
  pose proof (digits2_pos_bounds p) as [Dlo Dhi].
  remember (Z.pos (digits2_pos p)) as d eqn:Ed.
  assert (Hd : 1 <= d <= 53).
  { split; [subst d; lia | ].
    destruct (Z.le_gt_cases d 53) as [H | H]; [assumption | ].
    assert (2 ^ 53 <= 2 ^ (d - 1)) by (apply Z.pow_le_mono_r; lia). lia. }
  assert (Hf : fexp prec emax (d + 0) = d - 53).
  { unfold fexp, SpecFloat.emin, prec, emax. lia. }
  rewrite Hf.
  pose proof (@shl_align_value p 0 (d - 53)) as Hv.
  pose proof (@shl_align_snd p 0 (d - 53)) as Hs.
  destruct (shl_align p 0 (d - 53)) as [mz ez]. cbn [fst snd] in Hv, Hs.
  specialize (Hv ltac:(lia)). specialize (Hs ltac:(lia)). subst ez.
  replace (0 - (d - 53)) with (53 - d) in Hv by lia.
  assert (Hmz : 2 ^ 52 <= Z.pos mz < 2 ^ 53).
  { assert (E52 : 2 ^ 52 = 2 ^ (d - 1) * 2 ^ (53 - d))
      by (rewrite <- Z.pow_add_r by lia; f_equal; lia).
    assert (E53 : 2 ^ 53 = 2 ^ d * 2 ^ (53 - d))
      by (rewrite <- Z.pow_add_r by lia; f_equal; lia).
    assert (0 < 2 ^ (53 - d)) by (apply Z.pow_pos_nonneg; lia).
    rewrite Hv, E52, E53.
    split; [apply Z.mul_le_mono_nonneg_r; lia | apply Z.mul_lt_mono_pos_r; lia]. }
  assert (Hdz : Z.pos (digits2_pos mz) = 53) by (apply digits2_pos_unique; exact Hmz).
  assert (Hshr : forall m : positive, Z.pos (digits2_pos m) = 53 ->
            shr_fexp prec emax (Z.pos m) (d - 53) loc_Exact
            = (shr_record_of_loc (Z.pos m) loc_Exact, d - 53)).
  { intros m Hm. unfold shr_fexp. simpl Zdigits2. rewrite Hm.
    replace (fexp prec emax (53 + (d - 53)) - (d - 53)) with 0
      by (unfold fexp, SpecFloat.emin, prec, emax; lia).
    reflexivity. }
  exists mz, (d - 53). split; [ | split; [lia | split]].
  - unfold binary_round_aux. rewrite (Hshr mz Hdz). simpl.
    rewrite (Hshr mz Hdz). simpl.
    destruct (Z.leb_spec (d - 53) 971) as [_ | Habs]; [reflexivity | lia].
  - rewrite Hv. f_equal. f_equal. lia.
  - unfold bounded, canonical_mantissa. rewrite Hdz.
    apply andb_true_iff. split.
    + apply Z.eqb_eq. unfold fexp, SpecFloat.emin, prec, emax. lia.
    + apply Z.leb_le. unfold emax, prec. lia.
Qed.

Lemma round_to_float_integer (neg : bool) (n : Z) :
  0 < n < 2 ^ 53 ->
  integer_of (round_to_float neg n 0) = Some (if neg then - n else n).
Proof.
  intros [Hpos Hlt]. destruct n as [ | p | p]; try lia.
  unfold round_to_float.
  assert (Hround : binary_normalize prec emax (if neg then - Z.pos p else Z.pos p) 0 neg
                   = binary_round prec emax neg p 0).
  { destruct neg; reflexivity. }
  rewrite Hround.
  destruct (binary_round_integer neg Hlt) as (mz & ez & -> & Hez & Hmz & Hb).
  unfold integer_of. rewrite Prim2SF_SF2Prim by exact Hb.
  assert (Hpow : 0 < 2 ^ (- ez)) by (apply Z.pow_pos_nonneg; lia).
  destruct (Z.leb_spec 0 ez) as [H0 | H0].
  - assert (ez = 0) by lia. subst ez. simpl in Hmz. rewrite Hmz.
    destruct neg; simpl; f_equal; lia.
  - rewrite Hmz, Z.mod_mul, Z.div_mul by lia. simpl.
    destruct neg; reflexivity.
Qed.

Lemma cond_Zopp_mul (s : bool) (a b : Z) : cond_Zopp s (a * b) = cond_Zopp s a * b.
Proof. destruct s; simpl; lia. Qed.

(** [Math.round] of a finite Number is the nearest integer, the upper one of
    two. *)
Lemma Math_round_nearest (num : float) (n : Z) :
  nearest_integer num n -> integer_of (Math_round num) = Some n.
Proof.
  unfold nearest_integer, Math_round. pose proof (Prim2SF_valid num) as Hvalid.
  destruct (Prim2SF num) as [s | s | | s m e] eqn:E; try contradiction.
  - intros ->. unfold integer_of. now rewrite E.
  - simpl in Hvalid. apply bounded_inv in Hvalid as (He & Hm & _).
    destruct (Z.leb_spec 0 e) as [H0 | H0].
    + intros ->. unfold integer_of. rewrite E.
      destruct (Z.leb_spec 0 e); [ | lia]. now rewrite cond_Zopp_mul.
    + cbv zeta. intros [Hlo Hhi].
      set (p := 2 ^ (- e)) in *.
      assert (Hp : 2 <= p).
      { subst p. change 2 with (2 ^ 1) at 1. apply Z.pow_le_mono_r; lia. }
      assert (Hp2 : 2 ^ (1 - e) = 2 * p).
      { subst p. replace (1 - e) with (1 + - e) by lia.
        rewrite Z.pow_add_r by lia. reflexivity. }
      assert (Hsm : (if s then Z.neg m else Z.pos m) = cond_Zopp s (Z.pos m))
        by (destruct s; reflexivity).
      rewrite Hsm, Hp2.
      set (sm := cond_Zopp s (Z.pos m)) in *.
      assert (Habs : - 2 ^ 53 < sm < 2 ^ 53)
        by (subst sm; destruct s; cbn [cond_Zopp]; lia).
      clearbody p sm. clear Hsm Hp2.
      assert (Hn : (2 * sm + p) / (2 * p) = n).
      { symmetry. apply Z.div_unique with (2 * sm + p - 2 * p * n); lia. }
      rewrite Hn.
      destruct (Z.eqb_spec n 0) as [-> | Hn0].
      * unfold integer_of. destruct s; reflexivity.
      * assert (Hbound : 0 < Z.abs n < 2 ^ 53).
        { split; [lia | ]. change (2 ^ 53) with 9007199254740992 in *. nia. }
        rewrite (round_to_float_integer _ Hbound).
        destruct (Z.ltb_spec n 0); f_equal; lia.
Qed.

Lemma nearest_integer_exists (num : float) :
  is_finite num = true -> exists n, nearest_integer num n.
Proof.
  unfold is_finite, is_infinity, nearest_integer. intros H.
  assert (Hnan : is_nan num = false) by (destruct (is_nan num); [discriminate H | reflexivity]).
  assert (Hinf : (abs num =? infinity)%float = false)
    by (destruct (abs num =? infinity)%float;
        [rewrite Hnan in H; discriminate H | reflexivity]).
  rewrite eqb_spec, abs_spec in Hinf. apply is_nan_false in Hnan.
  destruct (Prim2SF num) as [s | s | | s m e] eqn:E.
  - exists 0. reflexivity.
  - destruct s; discriminate Hinf.
  - now elim Hnan.
  - destruct (Z.leb_spec 0 e).
    + eexists. reflexivity.
    + cbv zeta. set (p := 2 ^ (- e)). set (sm := cond_Zopp s (Z.pos m)).
      assert (Hp : 0 < p) by (subst p; apply Z.pow_pos_nonneg; lia).
      clearbody p sm.
      exists ((2 * sm + p) / (2 * p)).
      pose proof (Z.mul_div_le (2 * sm + p) (2 * p) ltac:(lia)).
      pose proof (Z.mul_succ_div_gt (2 * sm + p) (2 * p) ltac:(lia)).
      lia.
Qed.

Lemma infinite_cases (x : float) (s : bool) :
  Prim2SF x = S754_infinity s -> x = (if s then neg_infinity else infinity).
Proof.
  intros H. apply Prim2SF_inj. rewrite H. destruct s; reflexivity.
Qed.

(** [Math.round] of a number has no fractional part. *)
Lemma Math_round_integral (num : float) :
  is_nan num = false -> integral (Math_round num).
Proof.
  intros Hnan. destruct (is_finite num) eqn:Hfin.
  - destruct (nearest_integer_exists num Hfin) as (n & Hn).
    right; right. exists n. now apply Math_round_nearest.
  - unfold is_finite in Hfin. rewrite Hnan in Hfin. simpl in Hfin.
    apply negb_false_iff in Hfin. unfold is_infinity in Hfin.
    rewrite eqb_spec, abs_spec in Hfin.
    unfold Math_round.
    destruct (Prim2SF num) as [s | s | | s m e] eqn:E; try discriminate Hfin.
    destruct s; [right; left | left]; exact (infinite_cases _ E).
Qed.

Local Close Scope Z_scope.

(** ** Decimal literals: what [read_decimal] reads *)

Lemma digits_value_app (acc : Z) (a b : js_string) :
  digits_value acc (a ++ b) = digits_value (digits_value acc a) b.
Proof. unfold digits_value. apply fold_left_app. Qed.

Lemma read_digits_stop (rest : js_string) (acc len : Z) :
  begins_with_digit rest = false -> read_digits rest acc len = (acc, len, rest).
Proof.
  destruct rest as [|c rest]; [reflexivity | ].
  cbn [begins_with_digit read_digits]. now intros ->.
Qed.

Lemma read_digits_app (ds rest : js_string) (acc len : Z) :
  forallb is_digit ds = true ->
  read_digits (ds ++ rest) acc len
  = read_digits rest (digits_value acc ds) (len + Z.of_nat (List.length ds))%Z.
Proof.
  revert acc len. induction ds as [|c ds IH]; intros acc len H.
  - cbn [List.app digits_value fold_left List.length]. now rewrite Z.add_0_r.
  - cbn [forallb] in H. apply andb_true_iff in H as [Hc H].
    change ((c :: ds) ++ rest) with (c :: (ds ++ rest)).
    cbn [read_digits]. rewrite Hc. rewrite IH by exact H.
    cbn [digits_value fold_left List.length]. f_equal. lia.
Qed.

Lemma read_digits_inv (s : js_string) (acc len v len' : Z) (r : js_string) :
  read_digits s acc len = (v, len', r) ->
  exists ds, s = ds ++ r /\ forallb is_digit ds = true /\ begins_with_digit r = false
             /\ len' = (len + Z.of_nat (List.length ds))%Z /\ v = digits_value acc ds.
Proof.
  revert acc len. induction s as [|c s IH]; intros acc len H.
  - cbn [read_digits] in H. injection H as <- <- <-. exists []. cbn. repeat split. lia.
  - cbn [read_digits] in H. destruct (is_digit c) eqn:Hc.
    + apply IH in H as (ds & -> & Hds & Hr & -> & ->).
      exists (c :: ds). cbn [forallb List.app List.length digits_value fold_left].
      rewrite Hc, Hds. repeat split; try assumption. lia.
    + injection H as <- <- <-. exists []. cbn [List.app forallb begins_with_digit List.length].
      repeat split; try assumption. cbn. lia.
Qed.

(** Reading digits where a run [ds] of digits is followed by [rest]: at
    least [ds] is read; exactly [ds] when [rest] begins with no digit. *)
Lemma read_digits_after (ds rest : js_string) (acc len : Z) :
  forallb is_digit ds = true ->
  exists v len' r more,
    read_digits (ds ++ rest) acc len = (v, len', r)
    /\ rest = more ++ r
    /\ (len + Z.of_nat (List.length ds) <= len')%Z
    /\ (begins_with_digit rest = false ->
        v = digits_value acc ds /\ len' = (len + Z.of_nat (List.length ds))%Z /\ r = rest).
Proof.
  intros H. rewrite read_digits_app by exact H.
  destruct (read_digits rest (digits_value acc ds) (len + Z.of_nat (List.length ds)))
    as [[v len'] r] eqn:E.
  exists v, len', r.
  pose proof (@read_digits_inv _ _ _ _ _ _ E) as (more & Hrest & _ & _ & Hlen & _).
  exists more. split; [reflexivity | ]. split; [exact Hrest | ]. split; [lia | ].
  intros Hstop. rewrite read_digits_stop in E by exact Hstop.
  injection E as E1 E2 E3. now rewrite <- E1, <- E2, <- E3.
Qed.

Lemma read_sign_eq (s : js_string) :
  read_sign s
  = match s with
    | c :: s' => if N.eqb c 45 then (true, s') else if N.eqb c 43 then (false, s') else (false, s)
    | [] => (false, [])
    end.
Proof.
  destruct s as [|c s]; [reflexivity | ].
  destruct (N.eqb_spec c 45) as [-> | H45]; [reflexivity | ].
  destruct (N.eqb_spec c 43) as [-> | H43]; [reflexivity | ].
  destruct c as [|p]; [reflexivity | ].
  do 6 (try (destruct p as [p|p|]; try reflexivity)); congruence.
Qed.

Lemma read_sign_text (sg : literal_sign) (s : js_string) :
  begins_with_sign s = false -> read_sign (sign_text sg ++ s) = (is_minus sg, s).
Proof.
  intros H. destruct sg; try reflexivity.
  change (sign_text no_sign ++ s) with s. cbn [is_minus]. rewrite read_sign_eq.
  destruct s as [|c s]; [reflexivity | ].
  cbn [begins_with_sign] in H. apply orb_false_iff in H as [H43 H45].
  now rewrite H45, H43.
Qed.

Lemma read_sign_inv (s s1 : js_string) (neg : bool) :
  read_sign s = (neg, s1) ->
  exists sg, s = sign_text sg ++ s1 /\ neg = is_minus sg
             /\ (sg = no_sign -> begins_with_sign s1 = false).
Proof.
  rewrite read_sign_eq. destruct s as [|c s].
  - intros [= <- <-]. now exists no_sign.
  - destruct (N.eqb_spec c 45) as [-> | H45].
    { intros [= <- <-]. exists minus_sign. repeat split. discriminate. }
    destruct (N.eqb_spec c 43) as [-> | H43].
    { intros [= <- <-]. exists plus_sign. repeat split. discriminate. }
    intros [= <- <-]. exists no_sign. repeat split. intros _.
    cbn [begins_with_sign]. apply orb_false_iff. split; now apply N.eqb_neq.
Qed.

Lemma starts_with_app (p rest : js_string) : starts_with p (p ++ rest) = Some rest.
Proof.
  induction p as [|c p IH]; [now destruct rest | ].
  cbn [List.app starts_with]. now rewrite N.eqb_refl.
Qed.

Lemma starts_with_inv (p s rest : js_string) :
  starts_with p s = Some rest -> s = p ++ rest.
Proof.
  revert s. induction p as [|c p IH]; intros s H.
  - destruct s; cbn in H; now injection H as <-.
  - destruct s as [|d s]; [discriminate | ]. cbn [starts_with] in H.
    destruct (N.eqb_spec c d) as [-> | ]; [ | discriminate].
    cbn [List.app]. f_equal. now apply IH.
Qed.

Lemma point_match (A : Type) (s : js_string) (f : js_string -> A) (g : A) :
  match s with
  | 46%N :: s' => f s'
  | _ => g
  end = if begins_with_point s then f (tl s) else g.
Proof.
  destruct s as [|c s]; [reflexivity | ]. cbn [begins_with_point tl].
  destruct (N.eqb_spec c 46) as [-> | H]; [reflexivity | ].
  destruct c as [|p]; [reflexivity | ].
  do 6 (try (destruct p as [p|p|]; try reflexivity)); congruence.
Qed.

Lemma digit_not_sign (c : code_unit) :
  is_digit c = true -> (N.eqb c 43 || N.eqb c 45) = false.
Proof.
  unfold is_digit. intros H. apply andb_true_iff in H as [H1 H2].
  apply N.leb_le in H1. apply orb_false_iff. split; apply N.eqb_neq; lia.
Qed.

Lemma indicator_not_digit (c : code_unit) :
  (N.eqb c 101 || N.eqb c 69) = true -> is_digit c = false /\ N.eqb c 46 = false.
Proof.
  intros H. apply orb_true_iff in H as [H | H]; apply N.eqb_eq in H; subst; now split.
Qed.

Lemma DecimalDigits_inv (ds : js_string) :
  DecimalDigits ds = true ->
  forallb is_digit ds = true /\ (1 <= Z.of_nat (List.length ds))%Z
  /\ forall rest, begins_with_digit (ds ++ rest) = true.
Proof.
  unfold DecimalDigits. intros H. apply andb_true_iff in H as [H1 H2].
  destruct ds as [|c ds]; [discriminate | ].
  split; [exact H2 | ]. split; [cbn [List.length]; lia | ].
  intros rest. cbn [forallb] in H2. apply andb_true_iff in H2 as [Hc _].
  exact Hc.
Qed.

Lemma digit_head_not_sign (s : js_string) :
  begins_with_digit s = true -> begins_with_sign s = false.
Proof.
  destruct s as [|c s]; [discriminate | ]. cbn [begins_with_digit begins_with_sign].
  apply digit_not_sign.
Qed.

Lemma read_exponent_none (s : js_string) :
  begins_with_exponent s = false -> read_exponent s = (0%Z, s).
Proof.
  destruct s as [|c s]; [reflexivity | ].
  cbn [begins_with_exponent read_exponent].
  destruct (N.eqb c 101 || N.eqb c 69); [ | reflexivity].
  cbn [andb]. rewrite read_sign_eq. destruct s as [|d s]; [reflexivity | ].
  destruct (N.eqb_spec d 45) as [-> | H45].
  { cbn [N.eqb orb]. intros H. rewrite read_digits_stop by exact H. reflexivity. }
  destruct (N.eqb_spec d 43) as [-> | H43].
  { cbn [N.eqb orb]. intros H. rewrite read_digits_stop by exact H. reflexivity. }
  cbn [orb]. intros H. rewrite read_digits_stop by exact H. reflexivity.
Qed.

Lemma read_exponent_inv (s : js_string) (e : Z) (r : js_string) :
  read_exponent s = (e, r) ->
  (e = 0%Z /\ r = s /\ begins_with_exponent s = false)
  \/ (exists ex, well_formed_exponent (Some ex) = true
                 /\ s = exponent_text (Some ex) ++ r
                 /\ e = exponent_value (Some ex)
                 /\ begins_with_digit r = false).
Proof.
  destruct s as [|c s].
  { intros [= <- <-]. now left. }
  cbn [read_exponent begins_with_exponent].
  destruct (N.eqb c 101 || N.eqb c 69) eqn:Hc.
  2: { intros [= <- <-]. now left. }
  destruct (read_sign s) as [neg s'] eqn:Es.
  destruct (read_digits s' 0 0) as [[v len] rest] eqn:Ed.
  apply read_sign_inv in Es as (sg & -> & -> & Hsg).
  apply read_digits_inv in Ed as (ds & -> & Hds & Hstop & -> & ->).
  destruct ds as [|d ds].
  - cbn [List.app] in Hsg |- *.
    cbn [List.length Z.of_nat Z.add Z.eqb]. intros [= <- <-]. left.
    split; [reflexivity | ]. split; [reflexivity | ].
    cbn [andb List.app]. destruct sg; cbn [sign_text List.app N.eqb orb]; try exact Hstop.
    specialize (Hsg eq_refl). destruct rest as [|d rest]; [reflexivity | ].
    cbn [begins_with_sign] in Hsg. cbn [Pos.eqb] in *. rewrite Hsg. exact Hstop.
  - replace (0 + Z.of_nat (List.length (d :: ds)) =? 0)%Z with false
      by (symmetry; apply Z.eqb_neq; cbn [List.length]; lia).
    intros [= <- <-]. right.
    exists {| exponent_indicator := c; exponent_sign := sg; exponent_digits := d :: ds |}.
    cbn [well_formed_exponent exponent_indicator exponent_digits exponent_text
           exponent_sign exponent_value].
    rewrite Hc. unfold DecimalDigits. rewrite Hds.
    split; [reflexivity | ]. split; [ | now split].
    cbn [List.app]. f_equal. now rewrite <- app_assoc.
Qed.

Lemma read_exponent_suffix (s : js_string) (e : Z) (r : js_string) :
  read_exponent s = (e, r) -> exists more, s = more ++ r.
Proof.
  intros H. apply read_exponent_inv in H as [(_ & -> & _) | (ex & _ & -> & _)].
  - now exists [].
  - now exists (exponent_text (Some ex)).
Qed.

Lemma read_exponent_after (exponent : option ExponentPart) (rest : js_string) :
  well_formed_exponent exponent = true ->
  exists e r more,
    read_exponent (exponent_text exponent ++ rest) = (e, r)
    /\ rest = more ++ r
    /\ (exponent_stop exponent rest = true -> e = exponent_value exponent /\ r = rest).
Proof.
  intros Hwf. destruct exponent as [[c sg ds] | ].
  - cbn [well_formed_exponent exponent_indicator exponent_digits] in Hwf.
    apply andb_true_iff in Hwf as [Hc Hds].
    apply DecimalDigits_inv in Hds as (Hds & Hlen & Hhead).
    cbn [exponent_text exponent_indicator exponent_sign exponent_digits List.app
           read_exponent exponent_stop exponent_value].
    rewrite Hc, <- app_assoc.
    rewrite read_sign_text by (apply digit_head_not_sign, Hhead).
    destruct (@read_digits_after ds rest 0%Z 0%Z Hds) as (v & len' & r & more & E & Hr & Hl & Hx).
    rewrite E.
    replace (len' =? 0)%Z with false by (symmetry; apply Z.eqb_neq; lia).
    exists (if is_minus sg then (- v)%Z else v), r, more.
    split; [reflexivity | ]. split; [exact Hr | ].
    intros Hstop. apply negb_true_iff in Hstop. destruct (Hx Hstop) as (-> & _ & ->).
    now split.
  - cbn [exponent_text List.app exponent_stop exponent_value].
    destruct (read_exponent rest) as [e r] eqn:E.
    destruct (@read_exponent_suffix _ _ _ E) as [more Hr].
    exists e, r, more. split; [reflexivity | ]. split; [exact Hr | ].
    intros Hstop. apply negb_true_iff in Hstop.
    rewrite read_exponent_none in E by exact Hstop. now injection E as <- <-.
Qed.

Lemma not_Infinity (s : js_string) :
  begins_with_digit s || begins_with_point s = true ->
  starts_with (lit "Infinity") s = None /\ begins_with_sign s = false.
Proof.
  destruct s as [|c s]; [discriminate | ].
  cbn [begins_with_digit begins_with_point begins_with_sign]. intros H.
  change (lit "Infinity") with (73%N :: lit "nfinity"). cbn [starts_with].
  destruct (N.eqb_spec 73 c) as [<- | _]; [discriminate | ].
  split; [reflexivity | ].
  apply orb_true_iff in H as [H | H]; [now apply digit_not_sign | ].
  apply N.eqb_eq in H. now subst.
Qed.

(** Digits after the point, then the exponent. *)
Lemma read_fraction_after (frac : js_string) (exponent : option ExponentPart)
    (rest : js_string) (i : Z) :
  forallb is_digit frac = true -> well_formed_exponent exponent = true ->
  exists d flen s3 e s4 more,
    read_digits (frac ++ exponent_text exponent ++ rest) i 0 = (d, flen, s3)
    /\ (Z.of_nat (List.length frac) <= flen)%Z
    /\ read_exponent s3 = (e, s4)
    /\ rest = more ++ s4
    /\ (fraction_stop exponent rest = true ->
        d = digits_value i frac /\ flen = Z.of_nat (List.length frac)
        /\ e = exponent_value exponent /\ s4 = rest).
Proof.
  intros Hfrac Hwf. destruct exponent as [ex | ].
  - destruct (@read_digits_after frac (exponent_text (Some ex) ++ rest) i 0%Z Hfrac)
      as (d & flen & s3 & more & E & _ & Hl & Hx).
    assert (Hstop : begins_with_digit (exponent_text (Some ex) ++ rest) = false).
    { cbn [well_formed_exponent] in Hwf. apply andb_true_iff in Hwf as [Hc _].
      cbn [exponent_text List.app begins_with_digit].
      now apply indicator_not_digit. }
    destruct (Hx Hstop) as (-> & -> & ->).
    destruct (@read_exponent_after _ rest Hwf) as (e & s4 & more' & Ee & Hr & Hxe).
    exists (digits_value i frac), (0 + Z.of_nat (List.length frac))%Z,
      (exponent_text (Some ex) ++ rest), e, s4, more'.
    split; [exact E | ]. split; [lia | ]. split; [exact Ee | ]. split; [exact Hr | ].
    cbn [fraction_stop]. intros Hs. destruct (Hxe Hs) as [-> ->].
    repeat split.
  - cbn [exponent_text List.app fraction_stop].
    destruct (@read_digits_after frac rest i 0%Z Hfrac)
      as (d & flen & s3 & more & E & Hr & Hl & Hx).
    destruct (read_exponent s3) as [e s4] eqn:Ee.
    destruct (@read_exponent_suffix _ _ _ Ee) as [more' Hr'].
    exists d, flen, s3, e, s4, (more ++ more').
    split; [exact E | ]. split; [lia | ]. split; [exact Ee | ].
    split; [now rewrite <- app_assoc, <- Hr' | ].
    intros Hs. apply andb_true_iff in Hs as [Hd He].
    apply negb_true_iff in Hd, He. destruct (Hx Hd) as (-> & -> & ->).
    rewrite read_exponent_none in Ee by exact He. injection Ee as <- <-.
    repeat split.
Qed.

(** Reading a literal that is followed by [rest]: the whole literal is read,
    and possibly more of [rest]; exactly the literal, with its value, when
    [rest] does not continue it. *)
Lemma read_decimal_literal (l : StrDecimalLiteral) (rest : js_string) :
  well_formed l = true ->
  exists v r more,
    read_decimal (literal_text l ++ rest) = Some (v, r)
    /\ rest = more ++ r
    /\ (ends_before l rest = true -> v = literal_value l /\ r = rest).
Proof.
  destruct l as [sg u]. unfold well_formed, literal_text, ends_before, literal_value.
  cbn [literal_sign_of unsigned_literal]. intros Hwf.
  unfold read_decimal. rewrite <- app_assoc.
  destruct u as [ | int frac exponent | frac exponent | int exponent].
  - rewrite read_sign_text by reflexivity. rewrite starts_with_app.
    exists (if is_minus sg then neg_infinity else infinity), rest, [].
    repeat split.
  - apply andb_true_iff in Hwf as [Hwf Hexp]. apply andb_true_iff in Hwf as [Hint Hfrac].
    apply DecimalDigits_inv in Hint as (Hint & Hlen & Hhead).
    rewrite <- !app_assoc.
    destruct (@not_Infinity (int ++ [46%N] ++ frac ++ exponent_text exponent ++ rest))
      as [Hinf Hsign]; [now rewrite Hhead | ].
    rewrite read_sign_text by exact Hsign. rewrite Hinf.
    rewrite read_digits_app by exact Hint.
    rewrite read_digits_stop by reflexivity.
    cbn [List.app].
    destruct (@read_fraction_after frac exponent rest (digits_value 0 int) Hfrac Hexp)
      as (d & flen & s3 & e & s4 & more & E & Hl & Ee & Hr & Hx).
    rewrite E.
    replace (0 + Z.of_nat (List.length int) =? 0)%Z with false
      by (symmetry; apply Z.eqb_neq; lia).
    cbn [andb]. rewrite Ee.
    exists (dec_to_float (is_minus sg) d (e - flen)), s4, more.
    split; [reflexivity | ]. split; [exact Hr | ].
    intros Hs. destruct Hx as (-> & -> & -> & ->).
    { destruct exponent; exact Hs. }
    now rewrite digits_value_app.
  - apply andb_true_iff in Hwf as [Hfrac Hexp].
    apply DecimalDigits_inv in Hfrac as (Hfrac & Hlen & Hhead).
    rewrite <- !app_assoc.
    destruct (@not_Infinity ([46%N] ++ frac ++ exponent_text exponent ++ rest))
      as [Hinf Hsign]; [reflexivity | ].
    rewrite read_sign_text by exact Hsign. rewrite Hinf.
    cbn [List.app read_digits]. change (is_digit 46%N) with false. cbv iota.
    destruct (@read_fraction_after frac exponent rest 0%Z Hfrac Hexp)
      as (d & flen & s3 & e & s4 & more & E & Hl & Ee & Hr & Hx).
    rewrite E.
    assert (Hf : (flen =? 0)%Z = false) by (apply Z.eqb_neq; lia).
    rewrite ?Hf. cbn [Z.eqb andb]. rewrite ?Hf. rewrite Ee.
    exists (dec_to_float (is_minus sg) d (e - flen)), s4, more.
    split; [reflexivity | ]. split; [exact Hr | ].
    intros Hs. destruct Hx as (-> & -> & -> & ->).
    { destruct exponent; exact Hs. }
    now split.
  - apply andb_true_iff in Hwf as [Hint Hexp].
    apply DecimalDigits_inv in Hint as (Hint & Hlen & Hhead).
    rewrite <- !app_assoc.
    destruct (@not_Infinity (int ++ exponent_text exponent ++ rest))
      as [Hinf Hsign]; [now rewrite Hhead | ].
    rewrite read_sign_text by exact Hsign. rewrite Hinf.
    destruct exponent as [ex | ].
    + assert (Hc : is_digit (exponent_indicator ex) = false
                   /\ N.eqb (exponent_indicator ex) 46 = false).
      { cbn [well_formed_exponent] in Hexp. apply andb_true_iff in Hexp as [Hc _].
        now apply indicator_not_digit. }
      destruct Hc as [Hc1 Hc2].
      rewrite read_digits_app by exact Hint.
      rewrite read_digits_stop
        by (cbn [exponent_text List.app begins_with_digit]; exact Hc1).
      rewrite point_match.
      replace (begins_with_point (exponent_text (Some ex) ++ rest)) with false
        by (cbn [exponent_text List.app begins_with_point]; now rewrite Hc2).
      replace (0 + Z.of_nat (List.length int) =? 0)%Z with false
        by (symmetry; apply Z.eqb_neq; lia).
      cbn [andb].
      destruct (@read_exponent_after _ rest Hexp) as (e & s4 & more & Ee & Hr & Hx).
      rewrite Ee.
      exists (dec_to_float (is_minus sg) (digits_value 0 int) (e - 0)), s4, more.
      split; [reflexivity | ]. split; [exact Hr | ].
      intros Hs. destruct (Hx Hs) as [-> ->]. now rewrite Z.sub_0_r.
    + cbn [exponent_text List.app].
      destruct (@read_digits_after int rest 0%Z 0%Z Hint)
        as (i & ilen & s2 & more & E & Hr & Hl & Hx).
      rewrite E. rewrite point_match.
      replace (ilen =? 0)%Z with false by (symmetry; apply Z.eqb_neq; lia).
      destruct (begins_with_point s2) eqn:Hp.
      * destruct (read_digits (tl s2) i 0) as [[d flen] s3] eqn:E2.
        cbn [andb].
        destruct (read_exponent s3) as [e s4] eqn:Ee.
        destruct (@read_exponent_suffix _ _ _ Ee) as [more3 Hr3].
        apply read_digits_inv in E2 as (ds & Hr2 & _).
        destruct s2 as [|c s2]; [discriminate | ]. cbn [tl] in Hr2.
        exists (dec_to_float (is_minus sg) d (e - flen)), s4, (more ++ c :: ds ++ more3).
        split; [reflexivity | ].
        split; [rewrite Hr, Hr2, Hr3, <- !app_assoc; cbn [List.app];
                now rewrite <- !app_assoc | ].
        intros Hs. apply andb_true_iff in Hs as [Hs _].
        apply andb_true_iff in Hs as [Hd Hnp]. apply negb_true_iff in Hd, Hnp.
        destruct (Hx Hd) as (_ & _ & Hrest). rewrite <- Hrest in Hnp. congruence.
      * cbn [andb].
        destruct (read_exponent s2) as [e s4] eqn:Ee.
        destruct (@read_exponent_suffix _ _ _ Ee) as [more3 Hr3].
        exists (dec_to_float (is_minus sg) i (e - 0)), s4, (more ++ more3).
        split; [reflexivity | ].
        split; [now rewrite <- app_assoc, <- Hr3 | ].
        intros Hs. apply andb_true_iff in Hs as [Hs Hne].
        apply andb_true_iff in Hs as [Hd _]. apply negb_true_iff in Hd, Hne.
        destruct (Hx Hd) as (-> & _ & ->).
        rewrite read_exponent_none in Ee by exact Hne. injection Ee as <- <-.
        now split.
Qed.

(** What [read_decimal] reads is a literal that the rest does not continue. *)
Lemma read_decimal_inv (t : js_string) (v : float) (rest : js_string) :
  read_decimal t = Some (v, rest) ->
  exists l, well_formed l = true /\ t = literal_text l ++ rest /\ ends_before l rest = true.
Proof.
  unfold read_decimal.
  destruct (read_sign t) as [neg s1] eqn:Es.
  apply read_sign_inv in Es as (sg & -> & -> & _).
  destruct (starts_with (lit "Infinity") s1) as [r | ] eqn:Ei.
  { intros [= _ <-]. apply starts_with_inv in Ei as ->.
    exists {| literal_sign_of := sg; unsigned_literal := Infinity_literal |}.
    unfold literal_text. cbn [literal_sign_of unsigned_literal].
    split; [reflexivity | ]. split; [now rewrite <- app_assoc | reflexivity]. }
  destruct (read_digits s1 0 0) as [[i ilen] s2] eqn:E1.
  apply read_digits_inv in E1 as (ds1 & -> & Hds1 & Hstop1 & -> & _).
  rewrite point_match.
  destruct (begins_with_point s2) eqn:Hp.
  - destruct (read_digits (tl s2) i 0) as [[d flen] s3] eqn:E2.
    apply read_digits_inv in E2 as (ds2 & Hs2 & Hds2 & Hstop2 & -> & _).
    destruct s2 as [|c s2]; [discriminate | ]. cbn [tl] in Hs2. subst s2.
    cbn [begins_with_point] in Hp. apply N.eqb_eq in Hp as ->.
    destruct ((0 + Z.of_nat (List.length ds1) =? 0)%Z
              && (0 + Z.of_nat (List.length ds2) =? 0)%Z) eqn:Hc.
    { apply andb_true_iff in Hc as [Hc _]. rewrite Hc. discriminate. }
    rewrite Hc. destruct (read_exponent s3) as [e s4] eqn:Ee.
    intros [= _ <-].
    assert (Hexp : exists exponent,
               well_formed_exponent exponent = true
               /\ s3 = exponent_text exponent ++ s4
               /\ fraction_stop exponent s4 = true).
    { apply read_exponent_inv in Ee as [(_ & -> & Hne) | (ex & Hwf & -> & _ & Hd)].
      - exists None. cbn [fraction_stop]. now rewrite Hstop2, Hne.
      - exists (Some ex). cbn [fraction_stop]. now rewrite Hd. }
    destruct Hexp as (exponent & Hwf & -> & Hfs).
    destruct ds1 as [|c1 ds1].
    + exists {| literal_sign_of := sg; unsigned_literal := point_digits ds2 exponent |}.
      unfold well_formed, literal_text, ends_before, DecimalDigits.
      cbn [literal_sign_of unsigned_literal].
      destruct ds2 as [|c2 ds2]; [discriminate | ].
      rewrite Hds2, Hwf. split; [reflexivity | ].
      split; [now rewrite <- !app_assoc | ]. destruct exponent; exact Hfs.
    + exists {| literal_sign_of := sg; unsigned_literal := digits_point (c1 :: ds1) ds2 exponent |}.
      unfold well_formed, literal_text, ends_before, DecimalDigits.
      cbn [literal_sign_of unsigned_literal].
      rewrite Hds1, Hds2, Hwf. split; [reflexivity | ].
      split; [now rewrite <- !app_assoc | ]. destruct exponent; exact Hfs.
  - cbn [Z.eqb andb]. rewrite andb_true_r.
    destruct ds1 as [|c1 ds1]; [discriminate | ].
    replace (0 + Z.of_nat (List.length (c1 :: ds1)) =? 0)%Z with false
      by (symmetry; apply Z.eqb_neq; cbn [List.length]; lia).
    destruct (read_exponent s2) as [e s4] eqn:Ee.
    intros [= _ <-].
    apply read_exponent_inv in Ee as [(_ & -> & Hne) | (ex & Hwf & -> & _ & Hd)].
    + exists {| literal_sign_of := sg; unsigned_literal := digits_only (c1 :: ds1) None |}.
      unfold well_formed, literal_text, ends_before, DecimalDigits.
      cbn [literal_sign_of unsigned_literal well_formed_exponent exponent_text].
      rewrite Hds1, Hstop1, Hp, Hne. split; [reflexivity | ].
      split; [now rewrite app_nil_r, <- app_assoc | reflexivity].
    + exists {| literal_sign_of := sg; unsigned_literal := digits_only (c1 :: ds1) (Some ex) |}.
      unfold well_formed, literal_text, ends_before, DecimalDigits.
      cbn [literal_sign_of unsigned_literal].
      rewrite Hds1, Hwf, Hd. split; [reflexivity | ].
      split; [now rewrite <- !app_assoc | reflexivity].
Qed.

Lemma read_decimal_exact (l : StrDecimalLiteral) (rest : js_string) :
  well_formed l = true -> ends_before l rest = true ->
  read_decimal (literal_text l ++ rest) = Some (literal_value l, rest).
Proof.
  intros Hwf Hend.
  destruct (@read_decimal_literal l rest Hwf) as (v & r & more & E & _ & Hx).
  destruct (Hx Hend) as [-> ->]. exact E.
Qed.

(** A literal that the rest does not continue is the longest literal that
    begins the text. *)
Lemma longest_literal (l l' : StrDecimalLiteral) (rest rest' : js_string) :
  well_formed l = true -> ends_before l rest = true -> well_formed l' = true ->
  literal_text l ++ rest = literal_text l' ++ rest' ->
  (List.length (literal_text l') <= List.length (literal_text l))%nat.
Proof.
  intros Hwf Hend Hwf' Htext.
  pose proof (read_decimal_exact l rest Hwf Hend) as E.
  destruct (@read_decimal_literal l' rest' Hwf') as (v & r & more & E' & Hr & _).
  rewrite Htext, E' in E. injection E as _ ->.
  apply (f_equal (@List.length _)) in Htext. rewrite Hr in Htext.
  rewrite !length_app in Htext. lia.
Qed.

Lemma dec_to_float_not_nan (neg : bool) (d k : Z) : is_nan (dec_to_float neg d k) = false.
Proof.
  unfold dec_to_float.
  repeat match goal with
         | |- context [if ?b then _ else _] => destruct b
         end; try reflexivity; apply round_to_float_not_nan.
Qed.

Lemma literal_value_not_nan (l : StrDecimalLiteral) : is_nan (literal_value l) = false.
Proof.
  unfold literal_value.
  destruct (unsigned_literal l); try apply dec_to_float_not_nan.
  now destruct (is_minus (literal_sign_of l)).
Qed.

Lemma begins_with_digit_inv (rest : js_string) :
  begins_with_digit rest = true ->
  exists c rest', rest = c :: rest' /\ is_digit c = true.
Proof.
  destruct rest as [|c rest]; [discriminate | ]. cbn [begins_with_digit]. eauto.
Qed.

Lemma begins_with_exponent_inv (rest : js_string) :
  begins_with_exponent rest = true ->
  exists ex rest', well_formed_exponent (Some ex) = true
                   /\ rest = exponent_text (Some ex) ++ rest'.
Proof.
  destruct rest as [|c [|d rest]]; try discriminate.
  { cbn [begins_with_exponent]. now rewrite andb_false_r. }
  cbn [begins_with_exponent]. intros H. apply andb_true_iff in H as [Hc H].
  destruct (N.eqb_spec d 43) as [-> | H43].
  { cbn [orb] in H. apply begins_with_digit_inv in H as (d' & rest' & -> & Hd').
    exists {| exponent_indicator := c; exponent_sign := plus_sign; exponent_digits := [d'] |}, rest'.
    cbn [well_formed_exponent exponent_indicator exponent_digits exponent_sign exponent_text].
    unfold DecimalDigits. cbn [is_empty negb forallb]. now rewrite Hc, Hd'. }
  destruct (N.eqb_spec d 45) as [-> | H45].
  { cbn [orb] in H. apply begins_with_digit_inv in H as (d' & rest' & -> & Hd').
    exists {| exponent_indicator := c; exponent_sign := minus_sign; exponent_digits := [d'] |}, rest'.
    cbn [well_formed_exponent exponent_indicator exponent_digits exponent_sign exponent_text].
    unfold DecimalDigits. cbn [is_empty negb forallb]. now rewrite Hc, Hd'. }
  cbn [orb] in H.
  exists {| exponent_indicator := c; exponent_sign := no_sign; exponent_digits := [d] |}, rest.
  cbn [well_formed_exponent exponent_indicator exponent_digits exponent_sign exponent_text].
  unfold DecimalDigits. cbn [is_empty negb forallb]. now rewrite Hc, H.
Qed.

Lemma DecimalDigits_snoc (ds : js_string) (c : code_unit) :
  DecimalDigits ds = true -> is_digit c = true -> DecimalDigits (ds ++ [c]) = true.
Proof.
  unfold DecimalDigits. intros H Hc. apply andb_true_iff in H as [H1 H2].
  rewrite forallb_app, H2. cbn [forallb]. rewrite Hc.
  destruct ds; [discriminate | reflexivity].
Qed.

Lemma well_formed_exponent_with_digit (ex : ExponentPart) (c : code_unit) :
  well_formed_exponent (Some ex) = true -> is_digit c = true ->
  well_formed_exponent (Some (exponent_with_digit ex c)) = true
  /\ exponent_text (Some (exponent_with_digit ex c)) = exponent_text (Some ex) ++ [c].
Proof.
  cbn [well_formed_exponent exponent_with_digit exponent_indicator exponent_digits
         exponent_sign exponent_text].
  intros H Hc. apply andb_true_iff in H as [H1 H2].
  rewrite H1, DecimalDigits_snoc by assumption.
  split; [reflexivity | ]. cbn [List.app]. now rewrite <- !app_assoc.
Qed.

Ltac same_text :=
  repeat (progress (cbn [List.app]; rewrite ?app_nil_r, <- ?app_assoc)); reflexivity.

(** A literal that the rest continues is not the longest. *)
Lemma continued_literal (l : StrDecimalLiteral) (rest : js_string) :
  well_formed l = true -> ends_before l rest = false ->
  exists l' c more rest',
    well_formed l' = true
    /\ literal_text l' = literal_text l ++ c :: more
    /\ rest = c :: more ++ rest'.
Proof.
  destruct l as [sg u]. unfold well_formed, ends_before, literal_text.
  cbn [literal_sign_of unsigned_literal].
  assert (Hdigit : forall (P : Prop) b,
             negb (begins_with_digit rest) && b = false ->
             (forall c rest', rest = c :: rest' -> is_digit c = true -> P) ->
             (begins_with_digit rest = false -> b = false -> P) -> P).
  { intros P b H H1 H2. destruct (begins_with_digit rest) eqn:E.
    - apply begins_with_digit_inv in E as (c & rest' & E1 & E2). eauto.
    - apply H2; [reflexivity | exact H]. }
  assert (Hlast : forall b, negb b = false -> negb b && true = false)
    by (now intros []).
  destruct u as [ | int frac [ex | ] | frac [ex | ] | int [ex | ] ]; intros Hwf Hend;
    try discriminate; rewrite ?andb_true_iff in Hwf.
  - destruct Hwf as [[Hint Hfrac] Hexp].
    apply Hlast in Hend. apply (Hdigit _ _ Hend); [ | discriminate].
    intros c rest' -> Hc.
    destruct (well_formed_exponent_with_digit ex c Hexp Hc) as [Hwf' Htext].
    exists {| literal_sign_of := sg;
              unsigned_literal := digits_point int frac (Some (exponent_with_digit ex c)) |},
      c, [], rest'.
    cbn [literal_sign_of unsigned_literal]. rewrite Hint, Hfrac, Hwf', Htext.
    split; [reflexivity | ]. split; same_text.
  - destruct Hwf as [[Hint Hfrac] _]. apply (Hdigit _ _ Hend).
    + intros c rest' -> Hc.
      exists {| literal_sign_of := sg;
                unsigned_literal := digits_point int (frac ++ [c]) None |},
        c, [], rest'.
      cbn [literal_sign_of unsigned_literal well_formed_exponent exponent_text].
      rewrite Hint, forallb_app, Hfrac. cbn [forallb]. rewrite Hc.
      split; [reflexivity | ].
      split; same_text.
    + intros _ He. apply negb_false_iff, begins_with_exponent_inv in He
        as (ex & rest' & Hex & ->).
      destruct (exponent_text (Some ex)) as [|c more] eqn:Et; [discriminate | ].
      exists {| literal_sign_of := sg;
                unsigned_literal := digits_point int frac (Some ex) |},
        c, more, rest'.
      cbn [literal_sign_of unsigned_literal]. rewrite Hint, Hfrac, Hex, Et.
      split; [reflexivity | ].
      split; same_text.
  - destruct Hwf as [Hfrac Hexp].
    apply Hlast in Hend. apply (Hdigit _ _ Hend); [ | discriminate].
    intros c rest' -> Hc.
    destruct (well_formed_exponent_with_digit ex c Hexp Hc) as [Hwf' Htext].
    exists {| literal_sign_of := sg;
              unsigned_literal := point_digits frac (Some (exponent_with_digit ex c)) |},
      c, [], rest'.
    cbn [literal_sign_of unsigned_literal]. rewrite Hfrac, Hwf', Htext.
    split; [reflexivity | ]. split; same_text.
  - destruct Hwf as [Hfrac _]. apply (Hdigit _ _ Hend).
    + intros c rest' -> Hc.
      exists {| literal_sign_of := sg;
                unsigned_literal := point_digits (frac ++ [c]) None |},
        c, [], rest'.
      cbn [literal_sign_of unsigned_literal well_formed_exponent exponent_text].
      rewrite DecimalDigits_snoc by assumption.
      split; [reflexivity | ].
      split; same_text.
    + intros _ He. apply negb_false_iff, begins_with_exponent_inv in He
        as (ex & rest' & Hex & ->).
      destruct (exponent_text (Some ex)) as [|c more] eqn:Et; [discriminate | ].
      exists {| literal_sign_of := sg;
                unsigned_literal := point_digits frac (Some ex) |},
        c, more, rest'.
      cbn [literal_sign_of unsigned_literal]. rewrite Hfrac, Hex, Et.
      split; [reflexivity | ].
      split; same_text.
  - destruct Hwf as [Hint Hexp].
    apply Hlast in Hend. apply (Hdigit _ _ Hend); [ | discriminate].
    intros c rest' -> Hc.
    destruct (well_formed_exponent_with_digit ex c Hexp Hc) as [Hwf' Htext].
    exists {| literal_sign_of := sg;
              unsigned_literal := digits_only int (Some (exponent_with_digit ex c)) |},
      c, [], rest'.
    cbn [literal_sign_of unsigned_literal]. rewrite Hint, Hwf', Htext.
    split; [reflexivity | ]. split; same_text.
  - destruct Hwf as [Hint _]. rewrite <- andb_assoc in Hend. apply (Hdigit _ _ Hend).
    + intros c rest' -> Hc.
      exists {| literal_sign_of := sg;
                unsigned_literal := digits_only (int ++ [c]) None |},
        c, [], rest'.
      cbn [literal_sign_of unsigned_literal well_formed_exponent exponent_text].
      rewrite DecimalDigits_snoc by assumption.
      split; [reflexivity | ].
      split; same_text.
    + intros _ He. destruct (begins_with_point rest) eqn:Hp.
      * destruct rest as [|c rest']; [discriminate | ].
        cbn [begins_with_point] in Hp. apply N.eqb_eq in Hp as ->.
        exists {| literal_sign_of := sg;
                  unsigned_literal := digits_point int [] None |},
          46%N, [], rest'.
        cbn [literal_sign_of unsigned_literal well_formed_exponent exponent_text forallb].
        rewrite Hint. split; [reflexivity | ].
        split; same_text.
      * cbn [negb andb] in He.
        apply negb_false_iff, begins_with_exponent_inv in He
          as (ex & rest' & Hex & ->).
        destruct (exponent_text (Some ex)) as [|c more] eqn:Et; [discriminate | ].
        exists {| literal_sign_of := sg;
                  unsigned_literal := digits_only int (Some ex) |},
          c, more, rest'.
        cbn [literal_sign_of unsigned_literal]. rewrite Hint, Hex, Et.
        split; [reflexivity | ].
        split; same_text.
Qed.

Lemma ends_before_longest (l : StrDecimalLiteral) (rest : js_string) :
  well_formed l = true -> ends_before l rest = true ->
  longest_literal_of (literal_text l ++ rest) l.
Proof.
  intros Hwf Hend. split; [split; eauto | ].
  intros l' [Hwf' [rest' Htext]]. exact (longest_literal l l' rest rest' Hwf Hend Hwf' Htext).
Qed.

Lemma longest_ends_before (t : js_string) (l : StrDecimalLiteral) (rest : js_string) :
  longest_literal_of t l -> t = literal_text l ++ rest -> ends_before l rest = true.
Proof.
  intros [[Hwf _] Hlongest] ->.
  destruct (ends_before l rest) eqn:Hend; [reflexivity | exfalso].
  destruct (continued_literal l rest Hwf Hend) as (l' & c & more & rest' & Hwf' & Htext & ->).
  assert (Hl' : begins_with_literal (literal_text l ++ c :: more ++ rest') l').
  { split; [exact Hwf' | ]. exists rest'. rewrite Htext, <- app_assoc. reflexivity. }
  apply Hlongest in Hl'. rewrite Htext, length_app in Hl'. cbn [List.length] in Hl'. lia.
Qed.

(** [parseFloat] on a text that begins, after the white space, with a decimal
    literal: the value of the longest such literal. *)
Lemma parseFloat_string_literal (s : js_string) (l : StrDecimalLiteral) :
  longest_literal_of (trimStart s) l -> parseFloat_string s = literal_value l.
Proof.
  intros Hl. pose proof Hl as [[Hwf [rest Htext]] _].
  pose proof (@longest_ends_before _ _ _ Hl Htext) as Hend.
  unfold parseFloat_string. rewrite Htext.
  now rewrite read_decimal_exact.
Qed.

(** [parseFloat] on a text that begins with no decimal literal: NaN. *)
Lemma parseFloat_string_no_literal (s : js_string) :
  (forall l, ~ begins_with_literal (trimStart s) l) -> parseFloat_string s = nan.
Proof.
  intros Hnone. unfold parseFloat_string.
  destruct (read_decimal (trimStart s)) as [[v rest] | ] eqn:E; [exfalso | reflexivity].
  apply read_decimal_inv in E as (l & Hwf & Htext & _).
  apply (Hnone l). split; eauto.
Qed.

Lemma leading_literal_cases (t : js_string) :
  (exists l, longest_literal_of t l) \/ (forall l, ~ begins_with_literal t l).
Proof.
  destruct (read_decimal t) as [[v rest] | ] eqn:E.
  - left. apply read_decimal_inv in E as (l & Hwf & -> & Hend).
    exists l. now apply ends_before_longest.
  - right. intros l [Hwf [rest ->]].
    destruct (@read_decimal_literal l rest Hwf) as (v & r & more & E' & _).
    congruence.
Qed.

Lemma ends_before_nil (l : StrDecimalLiteral) : ends_before l [] = true.
Proof. unfold ends_before. now destruct (unsigned_literal l) as [ | ? ? [|] | ? [|] | ? [|] ]. Qed.

Lemma read_non_decimal_eq (s : js_string) :
  read_non_decimal s
  = match s with
    | c0 :: c :: (_ :: _) as ds =>
        if N.eqb c0 48 then
          let radix :=
            if (N.eqb c 120 || N.eqb c 88)%bool then 16%Z
            else if (N.eqb c 111 || N.eqb c 79)%bool then 8%Z
            else if (N.eqb c 98 || N.eqb c 66)%bool then 2%Z
            else 0%Z in
          if (radix =? 0)%Z then None
          else option_map (fun v => round_to_float false v 0) (read_radix radix ds 0)
        else None
    | _ => None
    end.
Proof.
  destruct s as [|c0 s].
  { reflexivity. }
  destruct (N.eqb_spec c0 48) as [-> | H].
  { destruct s as [|c [|d s]]; reflexivity. }
  destruct c0 as [|p]; [now destruct s as [|c [|d s]] | ].
  do 6 (try (destruct p as [p|p|]; try (now destruct s as [|c [|d s]]))); congruence.
Qed.

(** The second code unit of a literal that begins with the digit 0. *)
Lemma literal_after_zero (l : StrDecimalLiteral) (c : code_unit) (rest : js_string) :
  well_formed l = true -> literal_text l = 48%N :: c :: rest ->
  is_digit c || N.eqb c 46 || (N.eqb c 101 || N.eqb c 69) = true.
Proof.
  destruct l as [[ | | ] u]; unfold well_formed, literal_text;
    cbn [literal_sign_of unsigned_literal sign_text List.app]; try discriminate.
  destruct u as [ | int frac exponent | frac exponent | int exponent]; try discriminate;
    intros Hwf; rewrite ?andb_true_iff in Hwf.
  - destruct Hwf as [[Hint _] _]. unfold DecimalDigits in Hint.
    destruct int as [|d [|d' int]]; [discriminate | | ].
    + cbn [List.app]. intros [= _ <- _]. reflexivity.
    + cbn [List.app]. intros [= _ <- _]. cbn [is_empty negb forallb andb] in Hint.
      apply andb_true_iff in Hint as [_ Hint]. apply andb_true_iff in Hint as [-> _].
      reflexivity.
  - destruct Hwf as [Hint Hexp]. unfold DecimalDigits in Hint.
    destruct int as [|d [|d' int]]; [discriminate | | ].
    + destruct exponent as [ex | ]; [ | discriminate].
      cbn [List.app exponent_text]. intros [= _ <- _].
      cbn [well_formed_exponent] in Hexp. apply andb_true_iff in Hexp as [-> _].
      now rewrite orb_true_r.
    + cbn [List.app]. intros [= _ <- _]. cbn [is_empty negb forallb andb] in Hint.
      apply andb_true_iff in Hint as [_ Hint]. apply andb_true_iff in Hint as [-> _].
      reflexivity.
Qed.

Lemma read_non_decimal_literal (l : StrDecimalLiteral) :
  well_formed l = true -> read_non_decimal (literal_text l) = None.
Proof.
  intros Hwf. rewrite read_non_decimal_eq.
  destruct (literal_text l) as [|c0 [|c [|d rest]]] eqn:Et; try reflexivity.
  destruct (N.eqb_spec c0 48) as [-> | _]; [ | reflexivity].
  pose proof (literal_after_zero l Hwf Et) as Hc.
  destruct (N.eqb_spec c 120) as [-> | _]; [discriminate | ].
  destruct (N.eqb_spec c 88) as [-> | _]; [discriminate | ].
  destruct (N.eqb_spec c 111) as [-> | _]; [discriminate | ].
  destruct (N.eqb_spec c 79) as [-> | _]; [discriminate | ].
  destruct (N.eqb_spec c 98) as [-> | _]; [discriminate | ].
  destruct (N.eqb_spec c 66) as [-> | _]; [discriminate | ].
  reflexivity.
Qed.

Lemma literal_text_not_empty (l : StrDecimalLiteral) :
  well_formed l = true -> literal_text l <> [].
Proof.
  intros Hwf Ht.
  pose proof (read_decimal_exact l [] Hwf (ends_before_nil l)) as E.
  rewrite Ht in E. discriminate E.
Qed.

(** [Number] on a text that is, white space apart, a decimal literal: the
    value of the literal. *)
Lemma StringToNumber_literal (s : js_string) (l : StrDecimalLiteral) :
  well_formed l = true -> trim s = literal_text l -> StringToNumber s = literal_value l.
Proof.
  intros Hwf Ht. unfold StringToNumber. rewrite Ht.
  rewrite (read_non_decimal_literal l Hwf).
  pose proof (read_decimal_exact l [] Hwf (ends_before_nil l)) as E.
  rewrite app_nil_r in E. rewrite E.
  pose proof (literal_text_not_empty l Hwf).
  now destruct (literal_text l).
Qed.

Local Open Scope Z_scope.

Lemma digits_value_nonneg (ds : js_string) (acc : Z) :
  forallb is_digit ds = true -> 0 <= acc -> 0 <= digits_value acc ds.
Proof.
  revert acc. induction ds as [|c ds IH]; intros acc H Hacc; [exact Hacc | ].
  cbn [forallb] in H. apply andb_true_iff in H as [Hc H].
  cbn [digits_value fold_left]. apply IH; [exact H | ].
  unfold is_digit in Hc. apply andb_true_iff in Hc as [Hc _]. apply N.leb_le in Hc. lia.
Qed.

(** A decimal integer below [2^53] is read exactly. *)
Lemma dec_to_float_integer (neg : bool) (d : Z) :
  0 <= d < 2 ^ 53 ->
  integer_of (dec_to_float neg d 0) = Some (if neg then - d else d).
Proof.
  intros Hd. unfold dec_to_float.
  destruct (Z.eqb_spec d 0) as [-> | Hd0]; [now destruct neg | ].
  cbn [Z.leb Z.compare]. rewrite Z.mul_0_r, Z.add_0_r.
  assert (Hlog : Z.log2 d < 53) by (apply Z.log2_lt_pow2; lia).
  destruct (Z.leb_spec 1025 (Z.log2 d)); [lia | ].
  change (10 ^ 0) with 1. rewrite Z.mul_1_r.
  apply round_to_float_integer. lia.
Qed.

(** A Number that is an integer is the integer nearest to itself. *)
Lemma integer_nearest (x : float) (n : Z) : integer_of x = Some n -> nearest_integer x n.
Proof.
  unfold integer_of, nearest_integer.
  destruct (Prim2SF x) as [s | s | | s m e]; try discriminate.
  - now intros [= <-].
  - cbv zeta. destruct (Z.leb_spec 0 e).
    + intros [= <-]. exact (cond_Zopp_mul s (Z.pos m) (2 ^ e)).
    + destruct (Z.eqb_spec (Z.pos m mod 2 ^ (- e)) 0) as [Hmod | ]; [ | discriminate].
      intros [= <-].
      assert (Hp : 0 < 2 ^ (- e)) by (apply Z.pow_pos_nonneg; lia).
      pose proof (Z.div_mod (Z.pos m) (2 ^ (- e)) ltac:(lia)) as Hdiv.
      rewrite Hmod, Z.add_0_r in Hdiv.
      remember (2 ^ (- e)) as p. remember (Z.pos m / p) as q. clear Heqp Heqq.
      destruct s; cbn [cond_Zopp]; nia.
Qed.

(** The value of a literal that is decimal digits, below [2^53]: the integer
    written. *)
Lemma literal_value_digits (l : StrDecimalLiteral) (ds : js_string) :
  unsigned_literal l = digits_only ds None ->
  DecimalDigits ds = true -> digits_value 0 ds < 2 ^ 53 ->
  integer_of (literal_value l)
  = Some (if is_minus (literal_sign_of l) then - digits_value 0 ds else digits_value 0 ds).
Proof.
  intros Hl Hds Hlt. unfold literal_value. rewrite Hl. cbn [exponent_value].
  apply dec_to_float_integer. split; [ | exact Hlt].
  apply digits_value_nonneg; [ | lia].
  unfold DecimalDigits in Hds. now apply andb_true_iff in Hds as [_ Hds].
Qed.

Local Close Scope Z_scope.

(** ** The claims *)

(** C1: Filter correctness.  For every raw record of the input batch, the
    record (its mapped fields, completed with the computed ones) is in the
    output of [transform] if and only if, after field mapping, its name is not
    empty, its latitude is not zero, its longitude is not zero and its
    electricity consumption is strictly positive.  After mapping, latitude and
    longitude are numbers (never [null], [undefined] or NaN), so that "truthy"
    is "not zero"; no other field takes part. *)
Theorem filter_correctness (records : list JsVal) (out : list canonical)
    (record : JsVal) (r : Mapped.t) :
  transform (Arr records) = Ok out ->
  In record records ->
  rename_fields record = Ok r ->
  (In (add_computed r) out <->
   Mapped.nom r <> [] /\
   is_zero (Mapped.latitude r) = false /\
   is_zero (Mapped.longitude r) = false /\
   (0 <? Mapped.electricite_kwh r)%float = true).
Proof.
  intros Hout Hin Hr.
  pose proof (rename_fields_inv record Hr) as
    (_ & _ & _ & _ & _ & _ & _ & _ & Hlat%toFloat_not_nan & Hlng%toFloat_not_nan & _).
  assert (Hvalid : is_valid r = true <->
                   Mapped.nom r <> [] /\
                   is_zero (Mapped.latitude r) = false /\
                   is_zero (Mapped.longitude r) = false /\
                   (0 <? Mapped.electricite_kwh r)%float = true).
  { unfold is_valid. rewrite !andb_true_iff, truthy_str_nonempty.
    rewrite !truthy_num_not_nan, !negb_true_iff by assumption. tauto. }
  rewrite <- Hvalid, (transform_member _ _ Hout). split.
  - intros (records' & record' & r' & _ & _ & _ & Hv & Heq).
    apply (f_equal mapped_fields) in Heq.
    rewrite !mapped_fields_add_computed in Heq. now subst r'.
  - intros Hv. exists records, record, r. auto.
Qed.

Lemma filter_correctness_witness :
  let records := [sample_pasteur; sample_no_elec] in
  let out := returned [] (transform (Arr records)) in
  let r := returned empty_mapped (rename_fields sample_pasteur) in
  transform (Arr records) = Ok out /\
  In sample_pasteur records /\
  rename_fields sample_pasteur = Ok r /\
  (Mapped.nom r <> [] /\
   is_zero (Mapped.latitude r) = false /\
   is_zero (Mapped.longitude r) = false /\
   (0 <? Mapped.electricite_kwh r)%float = true) /\
  In (add_computed r) out.
Proof.
  intros records out r.
  assert (H1 : transform (Arr records) = Ok out) by (vm_compute; reflexivity).
  assert (H2 : In sample_pasteur records) by (simpl; auto).
  assert (H3 : rename_fields sample_pasteur = Ok r) by (vm_compute; reflexivity).
  assert (H4 : Mapped.nom r <> [] /\
               is_zero (Mapped.latitude r) = false /\
               is_zero (Mapped.longitude r) = false /\
               (0 <? Mapped.electricite_kwh r)%float = true)
    by (repeat split; vm_compute; discriminate).
  refine (conj H1 (conj H2 (conj H3 (conj H4 _)))).
  exact (proj2 (@filter_correctness records out sample_pasteur r H1 H2 H3) H4).
Defined.

(** The example of the specification: the record of "Ecole Pasteur" is kept,
    with category "Ecole", total 23000, intensity 46.0 and level medium; the
    record without electricity consumption is dropped. *)
Example transform_pasteur :
  exists c,
    transform (Arr [sample_no_elec; sample_pasteur]) = Ok [c] /\
    nom c = 201%N :: lit "cole Pasteur" /\ type c = Ecole /\
    electricite_kwh c = 15000%float /\ gaz_kwh c = 8000%float /\
    surface_m2 c = 500%float /\ energie_totale_kwh c = 23000%float /\
    intensite_energetique c = 46%float /\ niveau_conso c = medium.
Proof.
  eexists. vm_compute. repeat split.
Qed.

(** *** Comparisons with the constants of the program *)

Lemma leb_zero_not_positive (x : float) : (x <=? 0)%float = true -> (0 <? x)%float = false.
Proof.
  intros H. destruct (@compared_not_nan x 0%float) as [Hx H0]; [auto | ].
  rewrite leb_rank in H by assumption. rewrite ltb_rank by assumption.
  apply Z.leb_le in H. apply Z.ltb_ge. assumption.
Qed.

Lemma not_leb_zero_positive (x : float) :
  is_nan x = false -> (x <=? 0)%float = false -> (0 <? x)%float = true.
Proof.
  intros Hx H. assert (H0 : is_nan 0%float = false) by reflexivity.
  rewrite leb_rank in H by assumption. rewrite ltb_rank by assumption.
  apply Z.leb_gt in H. apply Z.ltb_lt. assumption.
Qed.

(** [bound <= x] excludes [x < bound'] for every [bound' <= bound]. *)
Lemma leb_excludes_ltb (bound bound' x : float) :
  (bound' <=? bound)%float = true -> (bound <=? x)%float = true ->
  (x <? bound')%float = false.
Proof.
  intros Hb H.
  destruct (@compared_not_nan bound' bound) as [N' N]; [auto | ].
  destruct (@compared_not_nan bound x) as [_ Nx]; [auto | ].
  rewrite leb_rank in Hb, H by assumption. rewrite ltb_rank by assumption.
  apply Z.leb_le in Hb, H. apply Z.ltb_ge. lia.
Qed.

(** C2: Derived fields (as amended).  For every record of the output:
    [energie_totale_kwh] is the sum [electricite_kwh + gaz_kwh];
    [intensite_energetique] is [Math.round(total / surface * 10) / 10] when
    [surface_m2 > 0] and 0 otherwise; [intensite_eau] is
    [Math.round(eau / surface * 100) / 100] when [surface_m2 > 0] and 0
    otherwise; in particular both are exactly 0 when [surface_m2 <= 0], so that
    no division by zero takes place. *)
Theorem derived_fields (rawData : JsVal) (out : list canonical) (c : canonical) :
  transform rawData = Ok out ->
  In c out ->
  energie_totale_kwh c = (electricite_kwh c + gaz_kwh c)%float /\
  intensite_energetique c =
    (if 0 <? surface_m2 c
     then Math_round (energie_totale_kwh c / surface_m2 c * 10) / 10
     else 0)%float /\
  intensite_eau c =
    (if 0 <? surface_m2 c
     then Math_round (eau_m3 c / surface_m2 c * 100) / 100
     else 0)%float /\
  ((surface_m2 c <=? 0)%float = true ->
   intensite_energetique c = 0%float /\ intensite_eau c = 0%float).
Proof.
  intros Hout Hin.
  apply (transform_member _ c Hout) in Hin
    as (records & record & r & _ & _ & _ & _ & ->).
  simpl. do 3 (split; [reflexivity | ]).
  intros Hle. rewrite (leb_zero_not_positive Hle). split; reflexivity.
Qed.

Lemma derived_fields_witness :
  let out := returned [] (transform (Arr [sample_pasteur; sample_hopital])) in
  let c := hd (add_computed empty_mapped) out in
  transform (Arr [sample_pasteur; sample_hopital]) = Ok out /\
  In c out /\
  energie_totale_kwh c = (electricite_kwh c + gaz_kwh c)%float /\
  intensite_energetique c =
    (if 0 <? surface_m2 c
     then Math_round (energie_totale_kwh c / surface_m2 c * 10) / 10
     else 0)%float /\
  intensite_eau c =
    (if 0 <? surface_m2 c
     then Math_round (eau_m3 c / surface_m2 c * 100) / 100
     else 0)%float /\
  ((surface_m2 c <=? 0)%float = true ->
   intensite_energetique c = 0%float /\ intensite_eau c = 0%float).
Proof.
  intros out c.
  assert (H1 : transform (Arr [sample_pasteur; sample_hopital]) = Ok out)
    by (vm_compute; reflexivity).
  assert (H2 : In c out) by (vm_compute; auto).
  exact (conj H1 (conj H2 (@derived_fields _ _ c H1 H2))).
Defined.

(** C2 as stated fails: with a positive floor area the intensity need not be
    finite.  An electricity figure of ["1e308"] on one square metre gives an
    intensity of [Infinity]; infinite figures of opposite signs give NaN. *)
Lemma derived_fields_not_finite :
  exists c c',
    transform (Arr [sample_huge]) = Ok [c] /\
    (0 <? surface_m2 c)%float = true /\
    intensite_energetique c = infinity /\
    transform (Arr [sample_nan_total]) = Ok [c'] /\
    (0 <? surface_m2 c')%float = true /\
    is_nan (intensite_energetique c') = true.
Proof.
  do 2 eexists. vm_compute. repeat split.
Qed.

(** The classification of [getConsumptionLevel], case by case. *)
Lemma getConsumptionLevel_cases (totalEnergy surface : float) :
  let intensity := (totalEnergy / surface)%float in
  ((surface <=? 0)%float = true -> getConsumptionLevel totalEnergy surface = medium) /\
  ((surface <=? 0)%float = false ->
   ((intensity <? 30)%float = true -> getConsumptionLevel totalEnergy surface = low) /\
   ((30 <=? intensity)%float = true -> (intensity <? 60)%float = true ->
    getConsumptionLevel totalEnergy surface = medium) /\
   ((60 <=? intensity)%float = true -> getConsumptionLevel totalEnergy surface = high)).
Proof.
  intros intensity. unfold getConsumptionLevel. fold intensity. split.
  - intros ->. reflexivity.
  - intros ->. repeat split.
    + intros ->. reflexivity.
    + intros H30 H60.
      rewrite (@leb_excludes_ltb 30 30 intensity eq_refl H30), H60. reflexivity.
    + intros H60.
      rewrite (@leb_excludes_ltb 60 30 intensity eq_refl H60).
      rewrite (@leb_excludes_ltb 60 60 intensity eq_refl H60). reflexivity.
Qed.

(** C3: Consumption level.  For every record of the output, [niveau_conso] is
    computed from the unrounded quotient [(electricite_kwh + gaz_kwh) /
    surface_m2], not from the rounded field [intensite_energetique]: it is
    [medium] when [surface_m2 <= 0]; otherwise [low] when the quotient is below
    30, [medium] when it is at least 30 and below 60, [high] when it is at
    least 60.  A quotient of exactly 30 gives [medium] and one of exactly 60
    gives [high]. *)
Theorem consumption_level_thresholds (rawData : JsVal) (out : list canonical)
    (c : canonical) :
  transform rawData = Ok out ->
  In c out ->
  let intensity := ((electricite_kwh c + gaz_kwh c) / surface_m2 c)%float in
  niveau_conso c = getConsumptionLevel (electricite_kwh c + gaz_kwh c) (surface_m2 c) /\
  ((surface_m2 c <=? 0)%float = true -> niveau_conso c = medium) /\
  ((surface_m2 c <=? 0)%float = false ->
   ((intensity <? 30)%float = true -> niveau_conso c = low) /\
   ((30 <=? intensity)%float = true -> (intensity <? 60)%float = true ->
    niveau_conso c = medium) /\
   ((60 <=? intensity)%float = true -> niveau_conso c = high) /\
   (intensity = 30%float -> niveau_conso c = medium) /\
   (intensity = 60%float -> niveau_conso c = high)).
Proof.
  intros Hout Hin intensity.
  assert (Hdef : niveau_conso c
                 = getConsumptionLevel (electricite_kwh c + gaz_kwh c) (surface_m2 c)).
  { apply (transform_member _ c Hout) in Hin
      as (records & record & r & _ & _ & _ & _ & ->). reflexivity. }
  destruct (getConsumptionLevel_cases (electricite_kwh c + gaz_kwh c) (surface_m2 c))
    as [Hzero Hpos].
  fold intensity in Hpos. rewrite Hdef.
  split; [reflexivity | ]. split; [assumption | ].
  intros Hs. destruct (Hpos Hs) as (Hlow & Hmed & Hhigh).
  repeat split; try assumption.
  - intros E. apply Hmed; rewrite E; reflexivity.
  - intros E. apply Hhigh; rewrite E; reflexivity.
Qed.

Lemma consumption_level_thresholds_witness :
  let out := returned [] (transform (Arr [sample_pasteur; sample_hopital])) in
  let c := hd (add_computed empty_mapped) out in
  let intensity := ((electricite_kwh c + gaz_kwh c) / surface_m2 c)%float in
  transform (Arr [sample_pasteur; sample_hopital]) = Ok out /\
  In c out /\
  (surface_m2 c <=? 0)%float = false /\
  (30 <=? intensity)%float = true /\ (intensity <? 60)%float = true /\
  niveau_conso c = medium.
Proof.
  intros out c intensity.
  assert (H1 : transform (Arr [sample_pasteur; sample_hopital]) = Ok out)
    by (vm_compute; reflexivity).
  assert (H2 : In c out) by (vm_compute; auto).
  assert (H3 : (surface_m2 c <=? 0)%float = false) by (vm_compute; reflexivity).
  assert (H4 : (30 <=? intensity)%float = true) by (vm_compute; reflexivity).
  assert (H5 : (intensity <? 60)%float = true) by (vm_compute; reflexivity).
  refine (conj H1 (conj H2 (conj H3 (conj H4 (conj H5 _))))).
  exact (proj1 (proj2 (proj2 (proj2 (@consumption_level_thresholds _ _ c H1 H2)) H3)) H4 H5).
Defined.

(** The level and the rounded intensity are computed apart: a record of
    29.96 kWh per square metre shows the intensity 30 and is classified [low];
    quotients of exactly 30 and 60 are [medium] and [high]. *)
Example level_from_unrounded_intensity :
  (exists c,
     transform (Arr [sample_margin]) = Ok [c] /\
     intensite_energetique c = 30%float /\ niveau_conso c = low) /\
  getConsumptionLevel 3000 100 = medium /\
  getConsumptionLevel 6000 100 = high /\
  getConsumptionLevel 5000 0 = medium.
Proof.
  split; [eexists | ]; vm_compute; repeat split.
Qed.

Local Open Scope Z_scope.

Lemma integer_of_or_zero (x : float) :
  is_nan x = false -> integer_of (or_zero x) = integer_of x.
Proof.
  intros Hnan. unfold or_zero, truthy_num. rewrite Hnan, orb_false_r.
  destruct (is_zero x) eqn:Hz; [ | reflexivity]. cbn [negb].
  unfold is_zero in Hz. rewrite eqb_spec in Hz.
  unfold integer_of. change (Prim2SF zero) with (S754_zero false).
  destruct (Prim2SF x) as [s | s | | s m e]; try reflexivity; try discriminate Hz.
  - destruct s; discriminate Hz.
  - destruct s; discriminate Hz.
Qed.

Lemma integral_or_zero (x : float) : integral x -> integral (or_zero x).
Proof.
  unfold or_zero. destruct (truthy_num x); [auto | ].
  intros _. right; right. now exists 0.
Qed.

Lemma nearest_integer_finite (num : float) (n : Z) :
  nearest_integer num n -> num <> infinity /\ num <> neg_infinity /\ is_nan num = false.
Proof.
  unfold nearest_integer. intros H.
  repeat split; try (intros ->; exact H).
  apply is_nan_false. intros E. now rewrite E in H.
Qed.

(** A text of decimal digits, below [2^53], read as an integer field: the
    integer written. *)
Lemma toNumber_digits (s : js_string) (x : float) :
  toNumber (Str s) = Ok x ->
  DecimalDigits (trim s) = true -> digits_value 0 (trim s) < 2 ^ 53 ->
  integer_of x = Some (digits_value 0 (trim s)).
Proof.
  intros H Hds Hlt. unfold toNumber in H.
  destruct s as [|c s]; [discriminate Hds | ].
  cbn [is_blank ToNumber bind] in H. injection H as <-.
  pose (l := {| literal_sign_of := no_sign;
                unsigned_literal := digits_only (trim (c :: s)) None |}).
  assert (Hwf : well_formed l = true).
  { unfold well_formed. cbn [l unsigned_literal well_formed_exponent]. now rewrite Hds. }
  assert (Ht : trim (c :: s) = literal_text l).
  { unfold literal_text. cbn [l literal_sign_of unsigned_literal sign_text exponent_text List.app].
    now rewrite app_nil_r. }
  rewrite (@StringToNumber_literal _ l Hwf Ht), literal_value_not_nan.
  apply Math_round_nearest, integer_nearest.
  unfold literal_value. cbn [l literal_sign_of unsigned_literal is_minus exponent_value].
  apply (dec_to_float_integer false). split; [ | exact Hlt].
  apply digits_value_nonneg; [ | lia].
  unfold DecimalDigits in Hds. now apply andb_true_iff in Hds as [_ Hds].
Qed.

Lemma toNumber_rounded_figure (value : JsVal) (x : float) :
  toNumber value = Ok x -> rounded_figure value x.
Proof.
  intros H. pose proof (toNumber_not_nan _ H) as Hnan.
  assert (Hdigits : forall s, value = Str s -> DecimalDigits (trim s) = true ->
                              digits_value 0 (trim s) < 2 ^ 53 ->
                              integer_of x = Some (digits_value 0 (trim s)))
    by (intros s ->; now apply toNumber_digits).
  unfold toNumber in H. unfold rounded_figure.
  destruct (is_blank value) eqn:Hb.
  - injection H as <-. split; [reflexivity | ].
    split; [right; right; now exists 0 | ]. split; [exact Hdigits | ].
    split; [reflexivity | discriminate].
  - inv_bind H. injection H as <-. rename a into num, E into Hnum. split; [exact Hnan | ].
    destruct (is_nan num) eqn:Hn.
    + split; [right; right; now exists 0 | ]. split; [exact Hdigits | ].
      split; [discriminate | ].
      intros _. exists num. split; [assumption | ].
      split; [intros n ->; now injection Hnum | ].
      split.
      { intros s l -> Hwf Ht. injection Hnum as <-. now apply StringToNumber_literal. }
      split; [reflexivity | ].
      split; [intros [-> | ->]; discriminate Hn | ].
      split; [unfold is_finite; rewrite Hn; discriminate | ].
      intros n Hnear. apply nearest_integer_finite in Hnear as (_ & _ & Hnear). congruence.
    + split; [now apply Math_round_integral | ]. split; [exact Hdigits | ].
      split; [discriminate | ].
      intros _. exists num. split; [assumption | ].
      split; [intros n ->; now injection Hnum | ].
      split.
      { intros s l -> Hwf Ht. injection Hnum as <-. now apply StringToNumber_literal. }
      split; [intros Hn'; congruence | ].
      split; [intros [-> | ->]; reflexivity | ].
      split; [apply nearest_integer_exists | ].
      intros n. apply Math_round_nearest.
Qed.

Lemma rounded_figure_or_zero (value : JsVal) (x : float) :
  rounded_figure value x -> rounded_figure value (or_zero x).
Proof.
  intros (Hnan & Hint & Hdigits & Hblank & Hnum).
  split; [apply or_zero_not_nan | ]. split; [now apply integral_or_zero | ].
  split; [intros s Hs Hds Hlt; rewrite integer_of_or_zero by exact Hnan;
          now apply Hdigits | ].
  split; [intros Hb; now rewrite (Hblank Hb) | ].
  intros Hb. destruct (Hnum Hb) as (num & H1 & H2 & H3 & H4 & H5 & H6 & H7).
  exists num. repeat (split; [assumption | ]).
  split; [intros Hn; now rewrite (H4 Hn) | ].
  split; [intros Hi; rewrite (H5 Hi); now destruct Hi as [-> | ->] | ].
  split; [assumption | ].
  intros n Hn. rewrite integer_of_or_zero by exact Hnan. now apply H7.
Qed.

Local Close Scope Z_scope.

(** C9: Numeric fields (as amended).  Every record of the output has
    [electricite_kwh > 0] and comes from a record of the batch, of which each
    of its fields [electricite_kwh], [gaz_kwh], [eau_m3], [surface_m2], [annee]
    and [occupants] is the rounded figure: never NaN and never fractional (an
    integer, or an infinity); 0 when the raw value is [null], [undefined] or
    the empty string, or when [Number] reads no number in it; the infinity
    that [Number] reads; otherwise the integer nearest to the number read, the
    upper one of two that are as near; and so the integer written, for a text
    of decimal digits that write an integer below [2^53].  The sign is not
    constrained. *)
Theorem numeric_fields (rawData : JsVal) (out : list canonical) (c : canonical) :
  transform rawData = Ok out ->
  In c out ->
  (0 <? electricite_kwh c)%float = true /\
  exists records record,
    rawData = Arr records /\ In record records /\
    Forall (fun field => rounded_figure (raw_field record (fst field)) (snd field))
      [("conso_elec_kwh"%string, electricite_kwh c);
       ("conso_gaz_kwh"%string, gaz_kwh c);
       ("conso_eau_m3"%string, eau_m3 c);
       ("surface_m2"%string, surface_m2 c);
       ("annee"%string, annee c);
       ("nb_occupants"%string, occupants c)].
Proof.
  intros Hout Hin.
  apply (transform_member _ c Hout) in Hin
    as (records & record & r & -> & Hrec & Hr & Hvalid & ->).
  apply rename_fields_inv in Hr
    as (_ & _ & _ & Helec & Hgaz & Heau & Hsurface & Hannee & _ & _ & _ & n & Hn & Hocc).
  unfold is_valid in Hvalid. rewrite !andb_true_iff in Hvalid.
  destruct Hvalid as (_ & Hpos). simpl. rewrite Hocc.
  split; [assumption | ].
  exists records, record. split; [reflexivity | ]. split; [assumption | ].
  repeat (apply Forall_cons; [ | ]); try apply Forall_nil; cbn [fst snd];
    auto using toNumber_rounded_figure, rounded_figure_or_zero.
Qed.

Lemma numeric_fields_witness :
  let out := returned [] (transform (Arr [sample_pasteur; sample_hopital])) in
  let c := hd (add_computed empty_mapped) out in
  transform (Arr [sample_pasteur; sample_hopital]) = Ok out /\
  In c out /\
  (0 <? electricite_kwh c)%float = true /\
  exists records record,
    Arr [sample_pasteur; sample_hopital] = Arr records /\ In record records /\
    Forall (fun field => rounded_figure (raw_field record (fst field)) (snd field))
      [("conso_elec_kwh"%string, electricite_kwh c);
       ("conso_gaz_kwh"%string, gaz_kwh c);
       ("conso_eau_m3"%string, eau_m3 c);
       ("surface_m2"%string, surface_m2 c);
       ("annee"%string, annee c);
       ("nb_occupants"%string, occupants c)].
Proof.
  intros out c.
  assert (H1 : transform (Arr [sample_pasteur; sample_hopital]) = Ok out)
    by (vm_compute; reflexivity).
  assert (H2 : In c out) by (vm_compute; auto).
  exact (conj H1 (conj H2 (@numeric_fields _ _ c H1 H2))).
Defined.

(** C9 as stated fails: a raw gas figure of ["-100"] is kept as [-100], and
    one of ["-Infinity"] as the infinity, which is no integer. *)
Lemma negative_gas_kept :
  exists c c',
    transform (Arr [sample_hopital]) = Ok [c] /\
    gaz_kwh c = (-100)%float /\
    (gaz_kwh c <? 0)%float = true /\
    transform (Arr [sample_nan_total]) = Ok [c'] /\
    gaz_kwh c' = neg_infinity /\
    integer_of (gaz_kwh c') = None.
Proof.
  do 2 eexists. vm_compute. repeat split.
Qed.

(** What [toFloat] makes of every value. *)
Lemma toFloat_cases (value : JsVal) :
  (is_blank value = true -> toFloat value = Ok zero)
  /\ (is_blank value = false ->
      (forall e, ToString value = Throw e -> toFloat value = Throw e)
      /\ (forall s, ToString value = Ok s ->
          (forall l, longest_literal_of (trimStart s) l ->
                     toFloat value = Ok (literal_value l))
          /\ ((forall l, ~ begins_with_literal (trimStart s) l) ->
              toFloat value = Ok zero)
          /\ ((exists l, longest_literal_of (trimStart s) l)
              \/ (forall l, ~ begins_with_literal (trimStart s) l)))).
Proof.
  unfold toFloat, parseFloat. split; intros Hb; rewrite Hb; [reflexivity | ].
  split.
  - intros e ->. reflexivity.
  - intros s ->. cbn [bind]. split; [ | split].
    + intros l Hl. rewrite (@parseFloat_string_literal _ _ Hl).
      now rewrite literal_value_not_nan.
    + intros Hnone. now rewrite (@parseFloat_string_no_literal _ Hnone).
    + apply leading_literal_cases.
Qed.

Lemma rename_fields_toFloat_throws (record : JsVal) (name : string) (e : js_error) :
  In name ["lat"; "lng"]%string ->
  toFloat (raw_field record name) = Throw e ->
  exists e', rename_fields record = Throw e'.
Proof.
  intros Hin Hthrow. destruct (rename_fields record) as [r | e'] eqn:E; [exfalso | eauto].
  apply rename_fields_inv in E as (_ & _ & _ & _ & _ & _ & _ & _ & Hlat & Hlng & _).
  destruct Hin as [<- | [<- | []]]; congruence.
Qed.

(** C10: Float fields (as amended).  [toFloat] gives 0 for [null],
    [undefined] and the empty string.  Any other value is converted to a
    string, and [toFloat] throws when that conversion does; of the string,
    after its leading white space, the longest decimal literal that begins it
    is read, whatever follows it, and [toFloat] gives the value of that
    literal, which is never NaN and is not rounded to an integer (the
    integer written, for digits that write an integer below [2^53]); when no
    decimal literal begins the string, [toFloat] gives 0.  One of the two
    cases always applies.  The mapped [latitude] and [longitude] are
    [toFloat(record.lat)] and [toFloat(record.lng)], and the mapping of a
    record throws when one of them does. *)
Theorem float_fields :
  (forall value : JsVal,
      (is_blank value = true -> toFloat value = Ok zero)
      /\ (is_blank value = false ->
          (forall e, ToString value = Throw e -> toFloat value = Throw e)
          /\ (forall s, ToString value = Ok s ->
              (forall l, longest_literal_of (trimStart s) l ->
                         toFloat value = Ok (literal_value l))
              /\ ((forall l, ~ begins_with_literal (trimStart s) l) ->
                  toFloat value = Ok zero)
              /\ ((exists l, longest_literal_of (trimStart s) l)
                  \/ (forall l, ~ begins_with_literal (trimStart s) l)))))
  /\ (forall l, is_nan (literal_value l) = false)
  /\ (forall l ds,
         unsigned_literal l = digits_only ds None ->
         DecimalDigits ds = true -> (digits_value 0 ds < 2 ^ 53)%Z ->
         integer_of (literal_value l)
         = Some (if is_minus (literal_sign_of l)
                 then (- digits_value 0 ds)%Z else digits_value 0 ds))
  /\ (forall record r,
         rename_fields record = Ok r ->
         toFloat (raw_field record "lat") = Ok (Mapped.latitude r)
         /\ toFloat (raw_field record "lng") = Ok (Mapped.longitude r))
  /\ (forall record name e,
         In name ["lat"; "lng"]%string ->
         toFloat (raw_field record name) = Throw e ->
         exists e', rename_fields record = Throw e').
Proof.
  split; [exact toFloat_cases | ].
  split; [exact literal_value_not_nan | ].
  split; [exact literal_value_digits | ].
  split; [ | exact rename_fields_toFloat_throws].
  intros record r Hr.
  apply rename_fields_inv in Hr as (_ & _ & _ & _ & _ & _ & _ & _ & Hlat & Hlng & _).
  now split.
Qed.

Lemma float_fields_witness :
  longest_literal_of (trimStart (lit "45.75N")) literal_45_75 /\
  toFloat (text "45.75N") = Ok (literal_value literal_45_75) /\
  literal_value literal_45_75 = 45.75%float /\
  longest_literal_of (trimStart (lit "  -4.5e1 m")) literal_minus_45 /\
  toFloat (text "  -4.5e1 m") = Ok (literal_value literal_minus_45) /\
  literal_value literal_minus_45 = (-45)%float.
Proof.
  assert (H1 : longest_literal_of (trimStart (lit "45.75N")) literal_45_75).
  { change (trimStart (lit "45.75N")) with (literal_text literal_45_75 ++ lit "N").
    apply ends_before_longest; reflexivity. }
  assert (H2 : longest_literal_of (trimStart (lit "  -4.5e1 m")) literal_minus_45).
  { change (trimStart (lit "  -4.5e1 m")) with (literal_text literal_minus_45 ++ lit " m").
    apply ends_before_longest; reflexivity. }
  split; [exact H1 | ]. split; [ | split; [vm_compute; reflexivity | ]].
  { exact (proj1 (proj2 (proj2 (proj1 float_fields (text "45.75N")) eq_refl)
                    (lit "45.75N") eq_refl) literal_45_75 H1). }
  split; [exact H2 | ]. split; [ | vm_compute; reflexivity].
  exact (proj1 (proj2 (proj2 (proj1 float_fields (text "  -4.5e1 m")) eq_refl)
                  (lit "  -4.5e1 m") eq_refl) literal_minus_45 H2).
Defined.

(** C10 as stated fails: a latitude of ["45.75N"] is no number (for [Number]
    it is NaN, and as an integer field it would give 0), yet it maps to 45.75;
    and ["0x10"], the number 16, maps to 0. *)
Lemma float_field_with_trailing_text :
  exists c num,
    transform (Arr [sample_compass]) = Ok [c] /\
    raw_field sample_compass "lat" = text "45.75N" /\
    ToNumber (text "45.75N") = Ok num /\ is_nan num = true /\
    toNumber (text "45.75N") = Ok 0%float /\
    latitude c = 45.75%float /\
    longitude c = 4.5%float /\
    toNumber (text "0x10") = Ok 16%float /\
    toFloat (text "0x10") = Ok 0%float.
Proof.
  do 2 eexists. vm_compute. repeat split.
Qed.

(** Latitudes kept as read, next to integer fields that are rounded; values
    without a number in them give 0. *)
Example toFloat_examples :
  toFloat (text "45.75") = Ok 45.75%float /\
  toNumber (text "45.75") = Ok 46%float /\
  toFloat (Num 45.75) = Ok 45.75%float /\
  toFloat (text "  -4.5e1 m") = Ok (-45)%float /\
  toFloat (text "nord") = Ok 0%float /\
  toFloat (text "") = Ok 0%float /\
  toFloat Null = Ok 0%float /\
  toFloat Undefined = Ok 0%float /\
  toFloat (Bool true) = Ok 0%float.
Proof.
  vm_compute. repeat split.
Qed.

(** What [normalizeType] returns on a string. *)
Lemma normalizeType_string (s : js_string) :
  normalizeType (Str s) =
  Ok (match s with
      | [] => Autre
      | _ => match map_get (toUpperCase s) type_map with
             | Some label => label
             | None => s
             end
      end).
Proof.
  destruct s as [ | c s]; [reflexivity | ].
  unfold normalizeType. simpl ToBoolean. cbn [negb].
  destruct (map_get (toUpperCase (c :: s)) type_map); reflexivity.
Qed.

(** C4: Category normalization (as amended).  For every raw record, the mapped
    [type] is ['Autre'] when the raw category is missing or falsy ([undefined],
    [null], the empty string, 0, NaN, [false]); when it is a non-empty string,
    it is the label the table gives for the upper-cased string if it has one,
    and the raw string itself, unchanged, if it has none. *)
Theorem category_normalization (record : JsVal) (r : Mapped.t) :
  rename_fields record = Ok r ->
  let value := raw_field record "type_infra" in
  (ToBoolean value = false -> Mapped.type r = Autre) /\
  (forall s, value = Str s -> s <> [] ->
     forall label, map_get (toUpperCase s) type_map = Some label ->
     Mapped.type r = label) /\
  (forall s, value = Str s -> s <> [] ->
     map_get (toUpperCase s) type_map = None -> Mapped.type r = s).
Proof.
  intros Hr value.
  apply rename_fields_inv in Hr as (_ & Htype & _). fold value in Htype.
  repeat split.
  - intros Hfalsy. unfold normalizeType in Htype. rewrite Hfalsy in Htype.
    simpl in Htype. congruence.
  - intros s Hs Hne label Hlabel. rewrite Hs, normalizeType_string, Hlabel in Htype.
    destruct s; congruence.
  - intros s Hs Hne Hnone. rewrite Hs, normalizeType_string, Hnone in Htype.
    destruct s; congruence.
Qed.

Lemma category_normalization_witness :
  let r := returned empty_mapped (rename_fields sample_no_elec) in
  rename_fields sample_no_elec = Ok r /\
  raw_field sample_no_elec "type_infra" = text "gymnase" /\
  map_get (toUpperCase (lit "gymnase")) type_map = Some Gymnase /\
  Mapped.type r = Gymnase.
Proof.
  intros r.
  assert (H1 : rename_fields sample_no_elec = Ok r) by (vm_compute; reflexivity).
  assert (H2 : raw_field sample_no_elec "type_infra" = text "gymnase") by reflexivity.
  assert (H3 : lit "gymnase" <> []) by discriminate.
  assert (H4 : map_get (toUpperCase (lit "gymnase")) type_map = Some Gymnase)
    by reflexivity.
  refine (conj H1 (conj H2 (conj H4 _))).
  exact (proj1 (proj2 (@category_normalization sample_no_elec r H1)) _ H2 H3 _ H4).
Defined.

(** C4 as stated fails: a category that the table does not know is not
    replaced by ['Autre']; the raw string is kept. *)
Lemma unrecognized_category_kept :
  exists r,
    rename_fields sample_hopital = Ok r /\
    raw_field sample_hopital "type_infra" = text "HOPITAL" /\
    map_get (toUpperCase (lit "HOPITAL")) type_map = None /\
    Mapped.type r = lit "HOPITAL" /\
    Mapped.type r <> Autre.
Proof.
  eexists. split; [vm_compute; reflexivity | ].
  repeat split. discriminate.
Qed.

(** The table, entry by entry; the lookup does not depend on the case of the
    raw string. *)
Example normalizeType_table :
  normalizeType (text "ECOLE") = Ok Ecole /\
  normalizeType (text "piscine") = Ok Piscine /\
  normalizeType (text "Mairie") = Ok Mairie /\
  normalizeType (text "BIBLIOTHEQUE") = Ok Bibliotheque /\
  normalizeType (text "gymnase") = Ok Gymnase /\
  normalizeType (text "CrEcHe") = Ok Creche /\
  normalizeType Undefined = Ok Autre /\
  normalizeType Null = Ok Autre /\
  normalizeType (text "") = Ok Autre.
Proof.
  vm_compute. repeat split.
Qed.

(** C5: [transform] throws on a well-formed batch: a record whose category is
    the number 42 reaches [type.toUpperCase()], which is not a function. *)
Theorem transform_throws_on_numeric_type :
  transform (Arr [sample_pasteur; sample_numeric_type]) = Throw TypeError /\
  normalizeType (raw_field sample_numeric_type "type_infra") = Throw TypeError /\
  cleanString (raw_field sample_numeric_type "type_infra") = Ok (lit "42").
Proof.
  vm_compute. repeat split.
Qed.

(** [transform] does return on the batches the pipeline is meant for: an array
    of objects whose values can be written as strings and whose category, when
    it is present, is a string. *)
Lemma transform_returns (records : list JsVal) :
  (forall record, In record records ->
     (exists props, record = Obj props) /\
     (forall name, exists s, ToString (raw_field record name) = Ok s) /\
     (ToBoolean (raw_field record "type_infra") = false
      \/ exists s, raw_field record "type_infra" = Str s)) ->
  exists out, transform (Arr records) = Ok out.
Proof.
  intros H. apply transform_total. intros record Hin.
  destruct (H record Hin) as ((props & Hobj) & Hstr & Htype).
  apply rename_fields_total.
  - congruence.
  - congruence.
  - intros name. unfold cleanString. destruct (is_blank _); [eauto | ].
    destruct (Hstr name) as (s & ->). simpl. eauto.
  - intros name. unfold toNumber. destruct (is_blank _); [eauto | ].
    destruct (Hstr name) as (s & Hs).
    destruct (raw_field record name); try (simpl; eauto; fail);
      unfold ToNumber; rewrite Hs; simpl; eauto.
  - intros name. unfold toFloat, parseFloat. destruct (is_blank _); [eauto | ].
    destruct (Hstr name) as (s & ->). simpl. eauto.
  - destruct Htype as [Hfalsy | (s & ->)].
    + unfold normalizeType. rewrite Hfalsy. simpl. eauto.
    + rewrite normalizeType_string. eauto.
Qed.

(** C6: Sort order (as amended).  The output of [transform] is the list of
    the valid records with their computed fields, rearranged.  Provided no
    total is NaN, it is non-increasing by [energie_totale_kwh], and the records
    of equal total are in the order they had before the sort (the sort is
    stable, so the order of ties is determined). *)
Theorem sort_order (records : list JsVal) (renamed : list Mapped.t)
    (out : list canonical) :
  mapM rename_fields records = Ok renamed ->
  transform (Arr records) = Ok out ->
  let presort := map add_computed (filter is_valid renamed) in
  Permutation presort out /\
  (Forall (fun c => is_nan (energie_totale_kwh c) = false) out ->
   non_increasing out /\
   forall t, with_total t out = with_total t presort).
Proof.
  intros Hmap Hout presort.
  unfold transform in Hout. rewrite Hmap in Hout. simpl in Hout.
  injection Hout as <-. fold presort.
  split; [symmetry; apply Array_sort_perm | ].
  intros Hnan. split.
  - apply Array_sort_non_increasing.
    apply Forall_forall. intros c Hc. apply (Array_sort_In by_total_desc) in Hc.
    revert c Hc. now apply Forall_forall.
  - intros t. apply Array_sort_stable.
Qed.

Lemma sort_order_witness :
  let records := [sample_no_elec; sample_margin; sample_pasteur; sample_hopital] in
  let renamed := returned [] (mapM rename_fields records) in
  let out := returned [] (transform (Arr records)) in
  mapM rename_fields records = Ok renamed /\
  transform (Arr records) = Ok out /\
  Forall (fun c => is_nan (energie_totale_kwh c) = false) out /\
  non_increasing out /\
  map energie_totale_kwh out = [23000; 2996; 2896]%float /\
  map nom out = [201%N :: lit "cole Pasteur"; lit "Annexe"; lit "Clinique"].
Proof.
  intros records renamed out.
  assert (H1 : mapM rename_fields records = Ok renamed) by (vm_compute; reflexivity).
  assert (H2 : transform (Arr records) = Ok out) by (vm_compute; reflexivity).
  assert (H3 : Forall (fun c => is_nan (energie_totale_kwh c) = false) out)
    by (vm_compute; repeat constructor).
  refine (conj H1 (conj H2 (conj H3 (conj _ _)))).
  - exact (proj1 (proj2 (@sort_order records renamed out H1 H2) H3)).
  - split; vm_compute; reflexivity.
Defined.

(** C6 as stated fails: a record whose total is NaN (electricity [Infinity],
    gas [-Infinity]) is kept by the filter, and next to it no order of the
    output is non-increasing. *)
Lemma nan_total_not_sorted :
  exists out,
    transform (Arr [sample_nan_total; sample_pasteur]) = Ok out /\
    List.length out = 2%nat /\
    forall l, Permutation out l -> ~ non_increasing l.
Proof.
  eexists. split; [vm_compute; reflexivity | ]. split; [reflexivity | ].
  intros l Hl Hsorted.
  apply Permutation_length_2_inv in Hl as [-> | ->];
    inversion Hsorted as [ | ? ? _ Hall]; subst;
    inversion Hall as [ | ? ? Hge _]; subst;
    vm_compute in Hge; discriminate.
Qed.

(** Ties keep their order: two records of total 2996 stay as they came, on
    either side of the sort. *)
Example ties_keep_their_order :
  map nom (returned [] (transform (Arr [sample_margin; sample_pasteur;
                                        raw_record [("nom_batiment", text "Bis");
                                                    ("conso_elec_kwh", Num 2996);
                                                    ("lat", Num 1); ("lng", Num 1)]%string])))
  = [201%N :: lit "cole Pasteur"; lit "Annexe"; lit "Bis"].
Proof.
  vm_compute. reflexivity.
Qed.

(** ** The orchestrator *)

Section OrchestratorFacts.
Variable RAW_API_RESPONSE : JsVal.

Lemma keeps_flag_ret {A : Type} (a : A) : keeps_flag (ret a).
Proof. intros st. reflexivity. Qed.

Lemma keeps_flag_lift {A : Type} (r : result A) : keeps_flag (lift r).
Proof. intros st. reflexivity. Qed.

Lemma keeps_flag_notify (cb : callback) (step : step_name) (status : step_status) :
  keeps_flag (notify cb step status).
Proof. intros st. destruct cb; reflexivity. Qed.

Lemma keeps_flag_set_processedData (d : list canonical) :
  keeps_flag (set_processedData d).
Proof. intros st. reflexivity. Qed.

Lemma keeps_flag_dispatch_complete : keeps_flag dispatch_complete.
Proof. intros st. reflexivity. Qed.

Lemma keeps_flag_bindM {A B : Type} (m : M A) (k : A -> M B) :
  keeps_flag m -> (forall a, keeps_flag (k a)) -> keeps_flag (bindM m k).
Proof.
  intros Hm Hk st. unfold bindM. specialize (Hm st).
  destruct (m st) as [st' [a | e]]; simpl in *.
  - rewrite Hk. assumption.
  - assumption.
Qed.

Create HintDb flag.
#[local] Hint Resolve keeps_flag_ret keeps_flag_lift keeps_flag_notify
  keeps_flag_set_processedData keeps_flag_dispatch_complete : flag.

Lemma keeps_flag_try_block_from_start (cb : callback) :
  keeps_flag (try_block_from_start cb).
Proof.
  unfold try_block_from_start. apply keeps_flag_bindM; auto with flag.
Qed.

Lemma keeps_flag_try_block_after (at_ : suspended) (cb : callback) :
  keeps_flag (try_block_after RAW_API_RESPONSE at_ cb).
Proof.
  destruct at_; simpl;
    repeat (apply keeps_flag_bindM; [auto with flag | intros ?]); auto with flag.
Qed.

(** After [try ... finally], the flag is up exactly when the run is
    suspended. *)
Lemma with_finally_flag (cb : callback)
    (r : app_state * result (suspended + list canonical)) :
  isProcessing (fst (with_finally cb r))
  = if is_pending (snd (with_finally cb r)) then isProcessing (fst r) else false.
Proof.
  destruct r as [st [[at_ | value] | e]]; reflexivity.
Qed.

Lemma runETLPipeline_busy (cb : callback) (st : app_state) :
  isProcessing st = true ->
  runETLPipeline cb st = (st, Fulfilled (processedData st)).
Proof.
  intros H. unfold runETLPipeline. rewrite H. reflexivity.
Qed.

Lemma runETLPipeline_idle_flag (cb : callback) (st : app_state) :
  isProcessing st = false ->
  isProcessing (fst (runETLPipeline cb st)) = is_pending (snd (runETLPipeline cb st)).
Proof.
  intros H. unfold runETLPipeline. rewrite H. rewrite with_finally_flag.
  rewrite keeps_flag_try_block_from_start. simpl.
  destruct (is_pending _); reflexivity.
Qed.

Lemma resume_flag (at_ : suspended) (cb : callback) (st : app_state) :
  isProcessing (fst (resume RAW_API_RESPONSE at_ cb st))
  = if is_pending (snd (resume RAW_API_RESPONSE at_ cb st))
    then isProcessing st else false.
Proof.
  unfold resume. rewrite with_finally_flag, keeps_flag_try_block_after.
  reflexivity.
Qed.

Lemma pending_count_app (l l' : list promise) :
  pending_count (l ++ l') = (pending_count l + pending_count l')%nat.
Proof.
  unfold pending_count. rewrite filter_app, length_app. reflexivity.
Qed.

Lemma pending_count_replace_nth (i : nat) (p q : promise) (l : list promise) :
  nth_error l i = Some q ->
  (pending_count (replace_nth i p l) + (if is_pending q then 1 else 0)
   = pending_count l + (if is_pending p then 1 else 0))%nat.
Proof.
  revert i. induction l as [ | y l IH]; intros [ | i] H; simpl in H; try discriminate.
  - injection H as ->. unfold pending_count. simpl.
    destruct (is_pending p), (is_pending q); simpl; lia.
  - specialize (IH i H). unfold pending_count in *. simpl.
    destruct (is_pending y); simpl; lia.
Qed.

Lemma nth_error_replace_nth {A : Type} (i : nat) (x y : A) (l : list A) :
  nth_error l i = Some y -> nth_error (replace_nth i x l) i = Some x.
Proof.
  revert i. induction l as [ | z l IH]; intros [ | i] H; simpl in *;
    try discriminate; auto.
Qed.

Lemma replace_nth_app {A : Type} (i : nat) (x y : A) (l l' : list A) :
  nth_error l i = Some y -> replace_nth i x (l ++ l') = replace_nth i x l ++ l'.
Proof.
  revert i. induction l as [ | z l IH]; intros [ | i] H; simpl in *;
    try discriminate; auto.
  f_equal. now apply IH.
Qed.

Lemma pending_promise_counted (i : nat) (at_ : suspended) (cb : callback)
    (l : list promise) :
  nth_error l i = Some (Pending at_ cb) -> (1 <= pending_count l)%nat.
Proof.
  revert i. induction l as [ | y l IH]; intros [ | i] H; simpl in H; try discriminate.
  - injection H as ->. unfold pending_count. simpl. lia.
  - specialize (IH i H). unfold pending_count in *. simpl.
    destruct (is_pending y); simpl; lia.
Qed.

(** The invariant of the orchestrator: the flag is up exactly when one run is
    in progress, and there is never a second one. *)
Lemma single_flight_invariant (s : system) :
  reachable RAW_API_RESPONSE s ->
  runs_in_progress s = if isProcessing (app s) then 1%nat else 0%nat.
Proof.
  induction 1 as [ | a s s' Hs IH Hstep].
  - reflexivity.
  - unfold runs_in_progress in *.
    destruct a as [cb | i]; simpl in Hstep.
    + destruct (isProcessing (app s)) eqn:Hflag.
      * rewrite (runETLPipeline_busy cb _ Hflag) in Hstep.
        injection Hstep as <-. simpl. rewrite pending_count_app, IH, Hflag.
        reflexivity.
      * pose proof (runETLPipeline_idle_flag cb _ Hflag) as Hrun.
        destruct (runETLPipeline cb (app s)) as [st p].
        injection Hstep as <-. simpl in *. rewrite pending_count_app, IH, Hrun.
        unfold pending_count. simpl. destruct (is_pending p); reflexivity.
    + destruct (nth_error (promises s) i) as [[at_ cb | | ] | ] eqn:Hi;
        try discriminate.
      pose proof (resume_flag at_ cb (app s)) as Hrun.
      pose proof (pending_promise_counted _ _ Hi) as Hone.
      destruct (resume RAW_API_RESPONSE at_ cb (app s)) as [st p].
      injection Hstep as <-. simpl in *.
      pose proof (pending_count_replace_nth i p _ Hi) as Hcount. simpl in Hcount.
      rewrite Hrun. destruct (isProcessing (app s)); [ | lia].
      destruct (is_pending p); lia.
Qed.

(** C7: Single flight.  In every state the application can reach, at most
    one run is in progress, and one is exactly when [isProcessing] is set.
    A call of [runETLPipeline] made while a run is in progress returns at
    once a promise fulfilled with the dataset published so far; it changes
    neither the module state nor the events observed (no progress
    notification, no completion event), starts no run, and leaves the run in
    progress to continue exactly as it would have without the call. *)
Theorem single_flight (s : system) :
  reachable RAW_API_RESPONSE s ->
  runs_in_progress s = (if isETLProcessing (app s) then 1%nat else 0%nat) /\
  (isETLProcessing (app s) = true ->
   forall cb,
     let s' := {| app := app s;
                  promises := promises s ++ [Fulfilled (getData (app s))] |} in
     perform RAW_API_RESPONSE (Call cb) s = Some s' /\
     runs_in_progress s' = runs_in_progress s /\
     forall i s1,
       perform RAW_API_RESPONSE (TimerFires i) s = Some s1 ->
       perform RAW_API_RESPONSE (TimerFires i) s'
       = Some {| app := app s1;
                 promises := promises s1 ++ [Fulfilled (getData (app s))] |}).
Proof.
  intros Hreach. split; [now apply single_flight_invariant | ].
  unfold isETLProcessing, getData. intros Hflag cb. split; [ | split].
  - simpl. rewrite (runETLPipeline_busy cb _ Hflag). reflexivity.
  - unfold runs_in_progress. simpl. rewrite pending_count_app.
    unfold pending_count at 2. simpl. lia.
  - intros i s1 Hstep. simpl in *.
    destruct (nth_error (promises s) i) as [[at_ cb' | | ] | ] eqn:Hi;
      try discriminate.
    rewrite nth_error_app1 by (apply nth_error_Some; congruence).
    rewrite Hi.
    destruct (resume RAW_API_RESPONSE at_ cb' (app s)) as [st p].
    injection Hstep as <-. simpl.
    rewrite (@replace_nth_app _ i p _ (promises s) _ Hi). reflexivity.
Qed.
End OrchestratorFacts.

Lemma run_actions_reachable (RAW_API_RESPONSE : JsVal) (acts : list action)
    (s s' : system) :
  reachable RAW_API_RESPONSE s ->
  run_actions RAW_API_RESPONSE acts s = Some s' ->
  reachable RAW_API_RESPONSE s'.
Proof.
  revert s. induction acts as [ | a acts IH]; intros s Hs H; simpl in H.
  - injection H as <-. assumption.
  - destruct (perform RAW_API_RESPONSE a s) as [s1 | ] eqn:E; [ | discriminate].
    apply (IH s1); [ | assumption]. eapply reachable_step; eassumption.
Qed.

Lemma single_flight_witness :
  reachable sample_source sample_running /\
  isETLProcessing (app sample_running) = true /\
  runs_in_progress sample_running = 1%nat /\
  perform sample_source (Call quiet_callback) sample_running
  = Some {| app := app sample_running;
            promises := promises sample_running ++ [Fulfilled []] |}.
Proof.
  assert (H1 : reachable sample_source sample_running).
  { apply (reachable_step (Call None) (reachable_initial sample_source)).
    reflexivity. }
  assert (H2 : isETLProcessing (app sample_running) = true) by reflexivity.
  refine (conj H1 (conj H2 (conj _ _))).
  - exact (proj1 (@single_flight sample_source sample_running H1)).
  - exact (proj1 (proj2 (@single_flight sample_source sample_running H1) H2
                    quiet_callback)).
Defined.

(** A whole schedule: a first call, a second call while the first run is in
    progress, the three timers of the first run, and a third call after it.
    The second call is fulfilled at once with the empty dataset of that moment;
    the six notifications and the completion event are those of the first run;
    the dataset it publishes is what [transform] returns for the source. *)
Example one_run_two_calls :
  exists s data,
    run_actions sample_source
      [Call quiet_callback; Call quiet_callback;
       TimerFires 0; TimerFires 0; TimerFires 0] initial_system = Some s /\
    transform (Arr [sample_no_elec; sample_pasteur]) = Ok data /\
    promises s = [Fulfilled data; Fulfilled []] /\
    getData (app s) = data /\
    isETLProcessing (app s) = false /\
    events (app s) =
      [StepUpdate extract_step active; StepUpdate extract_step done;
       StepUpdate transform_step active; StepUpdate transform_step done;
       StepUpdate load_step active; StepUpdate load_step done;
       EtlComplete data].
Proof.
  do 2 eexists. vm_compute. repeat split.
Qed.

(** C8: Error isolation.  When Extract or Transform throws in a run, the run
    ends there: its promise is rejected with the error (the caller gets it),
    Load is not reached (the published dataset is the one of before, and
    nothing more is notified: no progress call, no completion event), the
    flag is cleared by the [finally] block ([isETLProcessing] is false), and a
    later call starts a run instead of returning at the guard. *)
Theorem error_aborts_run (RAW_API_RESPONSE : JsVal) (s : system) (i : nat)
    (at_ : suspended) (cb : callback) (e : js_error) :
  nth_error (promises s) i = Some (Pending at_ cb) ->
  (at_ = await_delay_600 /\ extract RAW_API_RESPONSE = Throw e)
  \/ (exists rawData, at_ = await_delay_800 rawData /\ transform rawData = Throw e) ->
  exists s',
    perform RAW_API_RESPONSE (TimerFires i) s = Some s' /\
    nth_error (promises s') i = Some (Rejected e) /\
    getData (app s') = getData (app s) /\
    events (app s') = events (app s) /\
    isETLProcessing (app s') = false /\
    perform RAW_API_RESPONSE (Call None) s'
    = Some {| app := set_isProcessing true (app s');
              promises := promises s' ++ [Pending await_delay_600 None] |}.
Proof.
  intros Hi Herr.
  assert (Hresume : resume RAW_API_RESPONSE at_ cb (app s)
                    = (set_isProcessing false (app s), Rejected e)).
  { destruct Herr as [[-> Hextract] | (rawData & -> & Htransform)];
      unfold resume, try_block_after, bindM, lift.
    - rewrite Hextract. reflexivity.
    - rewrite Htransform. reflexivity. }
  eexists. split.
  - simpl. rewrite Hi, Hresume. reflexivity.
  - simpl. split; [ | repeat split].
    apply (nth_error_replace_nth _ _ _ Hi).
Qed.

Lemma error_aborts_run_witness :
  nth_error (promises sample_running) 0 = Some (Pending await_delay_600 None) /\
  extract sample_source_missing = Throw SyntaxError /\
  perform sample_source_missing (TimerFires 0) sample_running
  = Some {| app := initial_state; promises := [Rejected SyntaxError] |}.
Proof.
  assert (H1 : nth_error (promises sample_running) 0
               = Some (Pending await_delay_600 None)) by reflexivity.
  assert (H2 : extract sample_source_missing = Throw SyntaxError) by reflexivity.
  refine (conj H1 (conj H2 _)).
  destruct (@error_aborts_run sample_source_missing sample_running 0
              await_delay_600 None SyntaxError H1 (or_introl (conj eq_refl H2)))
    as (s' & Hstep & _).
  rewrite Hstep. simpl in Hstep. injection Hstep as <-. reflexivity.
Defined.

(** A run whose Transform throws, with a dataset already published (the steps
    are taken from the state a successful run leaves, against a source whose
    second record has a numeric category): the dataset stays, the error
    reaches the caller, the three notifications before the throw are there and
    no other. *)
Example transform_error_keeps_dataset :
  exists s data,
    run_actions sample_source
      [Call None; TimerFires 0; TimerFires 0; TimerFires 0] initial_system = Some s /\
    getData (app s) = data /\ data <> [] /\
    exists s',
      run_actions sample_source_bad_type
        [Call quiet_callback; TimerFires 1; TimerFires 1] s = Some s' /\
      promises s' = [Fulfilled data; Rejected TypeError] /\
      getData (app s') = data /\
      isETLProcessing (app s') = false /\
      events (app s') =
        [EtlComplete data;
         StepUpdate extract_step active; StepUpdate extract_step done;
         StepUpdate transform_step active].
Proof.
  do 2 eexists. split; [vm_compute; reflexivity | ].
  split; [reflexivity | ]. split; [discriminate | ].
  eexists. vm_compute. repeat split.
Qed.

(** The guard is released on every way out of the [try] block: a progress
    callback that throws ends the run as well, with the flag cleared and
    nothing published. *)
Example callback_error_releases_guard :
  exists s,
    run_actions sample_source
      [Call failing_callback; TimerFires 0; TimerFires 0] initial_system = Some s /\
    promises s = [Rejected UserError] /\
    getData (app s) = [] /\
    isETLProcessing (app s) = false /\
    runs_in_progress s = 0%nat.
Proof.
  eexists. vm_compute. repeat split.
Qed.

(** * Further properties *)

(** ** Strings *)

Lemma trimStart_head (s : js_string) (c : code_unit) (rest : js_string) :
  trimStart s = c :: rest -> isWhiteSpace c = false.
Proof.
  induction s as [ | d s IH]; simpl; [discriminate | ].
  destruct (isWhiteSpace d) eqn:E; [exact IH | ].
  intros H. injection H as <- _. exact E.
Qed.

Lemma trimStart_fixed (c : code_unit) (rest : js_string) :
  isWhiteSpace c = false -> trimStart (c :: rest) = c :: rest.
Proof. intros H. simpl. now rewrite H. Qed.

Lemma trimStart_snoc (s : js_string) (c : code_unit) :
  isWhiteSpace c = false -> trimStart (s ++ [c]) = trimStart s ++ [c].
Proof.
  intros H. induction s as [ | d s IH]; simpl.
  - now rewrite H.
  - destruct (isWhiteSpace d); [exact IH | reflexivity].
Qed.

Lemma trimEnd_last (s front : js_string) (c : code_unit) :
  trimEnd s = front ++ [c] -> isWhiteSpace c = false.
Proof.
  unfold trimEnd. intros H.
  apply (f_equal (@rev code_unit)) in H. rewrite rev_involutive, rev_app_distr in H.
  simpl in H. exact (@trimStart_head _ _ _ H).
Qed.

Lemma trimEnd_cons (c : code_unit) (rest : js_string) :
  isWhiteSpace c = false -> trimEnd (c :: rest) = c :: trimEnd rest.
Proof.
  intros H. unfold trimEnd. simpl. rewrite trimStart_snoc by exact H. rewrite rev_app_distr.
  reflexivity.
Qed.

Lemma trim_no_outer_space (s : js_string) : no_outer_space (trim s).
Proof.
  unfold trim. split.
  - intros c rest H. destruct (trimStart s) as [ | d t] eqn:E.
    + discriminate H.
    + pose proof (@trimStart_head _ _ _ E) as Hd.
      rewrite trimEnd_cons in H by exact Hd. injection H as <- _. exact Hd.
  - intros c front H. exact (@trimEnd_last _ _ _ H).
Qed.

Lemma trim_fixed (s : js_string) : no_outer_space s -> trim s = s.
Proof.
  intros [Hfirst Hlast]. destruct s as [ | c rest]; [reflexivity | ].
  unfold trim. rewrite trimStart_fixed by exact (Hfirst _ _ eq_refl).
  unfold trimEnd.
  destruct (rev (c :: rest)) as [ | d t] eqn:E.
  - apply (f_equal (@rev code_unit)) in E. rewrite rev_involutive in E. discriminate E.
  - assert (Hs : c :: rest = rev t ++ [d]).
    { rewrite <- (rev_involutive (c :: rest)), E. reflexivity. }
    rewrite trimStart_fixed by exact (Hlast _ _ Hs). simpl. now rewrite Hs.
Qed.

Lemma cleanString_no_outer_space (value : JsVal) (s : js_string) :
  cleanString value = Ok s -> no_outer_space s.
Proof.
  unfold cleanString. intros H. destruct (is_blank value).
  - injection H as <-. split; intros c l E; [discriminate E | ].
    destruct l; discriminate E.
  - inv_bind H. injection H as <-. apply trim_no_outer_space.
Qed.

(** X1: what [cleanString] returns has no white space at either end, and
    cleaning it again changes nothing. *)
Theorem cleanString_trimmed (value : JsVal) (s : js_string) :
  cleanString value = Ok s ->
  no_outer_space s /\ cleanString (Str s) = Ok s.
Proof.
  intros H. pose proof (cleanString_no_outer_space _ H) as Hs.
  split; [exact Hs | ].
  unfold cleanString. destruct s as [ | c rest]; [reflexivity | ].
  simpl. now rewrite (trim_fixed Hs).
Qed.

Lemma cleanString_trimmed_witness :
  cleanString (text "  Annexe B ") = Ok (lit "Annexe B") /\
  no_outer_space (lit "Annexe B") /\
  cleanString (Str (lit "Annexe B")) = Ok (lit "Annexe B").
Proof.
  assert (H : cleanString (text "  Annexe B ") = Ok (lit "Annexe B")) by reflexivity.
  exact (conj H (@cleanString_trimmed _ _ H)).
Defined.

(** ** Transform: when it returns *)

Lemma JsVal_nested_ind (P : JsVal -> Prop) :
  P Undefined -> P Null -> (forall b, P (Bool b)) -> (forall x, P (Num x)) ->
  (forall s, P (Str s)) ->
  (forall elems, Forall P elems -> P (Arr elems)) ->
  (forall props, Forall (fun p => P (snd p)) props -> P (Obj props)) ->
  forall v, P v.
Proof.
  intros Hu Hn Hb Hx Hs Ha Ho. fix IH 1. intros [ | | b | x | s | elems | props].
  - exact Hu.
  - exact Hn.
  - apply Hb.
  - apply Hx.
  - apply Hs.
  - apply Ha. induction elems as [ | v elems IHl]; constructor; [apply IH | exact IHl].
  - apply Ho. induction props as [ | [k v] props IHl]; constructor; [apply IH | exact IHl].
Qed.

Lemma returns_blank (v : JsVal) : is_blank v = true -> returns (ToString v) = true.
Proof. destruct v as [ | | | | [ | ] | | ]; (discriminate || reflexivity). Qed.

Lemma returns_cleanString (v : JsVal) : returns (cleanString v) = returns (ToString v).
Proof.
  unfold cleanString. destruct (is_blank v) eqn:E.
  - now rewrite returns_blank.
  - destruct (ToString v); reflexivity.
Qed.

Lemma returns_toFloat (v : JsVal) : returns (toFloat v) = returns (ToString v).
Proof.
  unfold toFloat, parseFloat. destruct (is_blank v) eqn:E.
  - now rewrite returns_blank.
  - destruct (ToString v); reflexivity.
Qed.

Lemma returns_toNumber (v : JsVal) : returns (toNumber v) = returns (ToString v).
Proof.
  unfold toNumber. destruct (is_blank v) eqn:E.
  - now rewrite returns_blank.
  - unfold ToNumber. destruct v; try reflexivity.
    + destruct (ToString (Arr elems)); reflexivity.
    + destruct (ToString (Obj props)); reflexivity.
Qed.

Lemma returns_normalizeType (v : JsVal) :
  returns (normalizeType v)
  = negb (ToBoolean v) || match v with Str _ => true | _ => false end.
Proof.
  unfold normalizeType. destruct (ToBoolean v) eqn:E; [ | reflexivity].
  destruct v; try reflexivity.
  cbn [negb orb]. destruct (map_get (toUpperCase s) type_map); reflexivity.
Qed.

Lemma get_property_raw_field (record : JsVal) (name : string) :
  record <> Undefined -> record <> Null ->
  get_property record (lit name) = Ok (raw_field record name).
Proof.
  intros Hu Hn. unfold raw_field.
  destruct record; try congruence; simpl; try reflexivity.
  destruct (own_property (lit name) props); reflexivity.
Qed.

Lemma rename_fields_returns (record : JsVal) :
  returns (rename_fields record) = convertible_record record.
Proof.
  destruct (match record with Undefined | Null => true | _ => false end) eqn:Hrec.
  { destruct record; try discriminate Hrec; reflexivity. }
  assert (Hget : forall name, get_property record (lit name) = Ok (raw_field record name)).
  { intros name. apply get_property_raw_field; intros ->; discriminate Hrec. }
  assert (Hconv : convertible_record record
                  = forallb (fun name => returns (ToString (raw_field record name)))
                      converted_fields
                    && returns (normalizeType (raw_field record "type_infra"))).
  { rewrite returns_normalizeType. destruct record; try discriminate Hrec; reflexivity. }
  rewrite Hconv. clear Hconv Hrec. cbn [forallb converted_fields].
  rewrite <- (returns_toFloat (raw_field record "lat")),
          <- (returns_toFloat (raw_field record "lng")),
          <- (returns_toNumber (raw_field record "conso_elec_kwh")),
          <- (returns_toNumber (raw_field record "conso_gaz_kwh")),
          <- (returns_toNumber (raw_field record "conso_eau_m3")),
          <- (returns_toNumber (raw_field record "surface_m2")),
          <- (returns_toNumber (raw_field record "annee")),
          <- (returns_toNumber (raw_field record "nb_occupants")),
          <- !returns_cleanString.
  unfold rename_fields.
  repeat (rewrite Hget; cbn [bind];
          match goal with
          | |- context [bind ?r _] =>
              lazymatch r with
              | get_property _ _ => fail
              | _ => destruct r; cbn [bind returns andb]; rewrite ?andb_false_r;
                     [ | reflexivity]
              end
          end).
  reflexivity.
Qed.

Lemma mapM_rename_fields_returns (records : list JsVal) :
  returns (mapM rename_fields records) = forallb convertible_record records.
Proof.
  induction records as [ | record records IH]; [reflexivity | ].
  simpl. rewrite <- rename_fields_returns, <- IH.
  destruct (rename_fields record); [ | reflexivity]. simpl.
  destruct (mapM rename_fields records); reflexivity.
Qed.

Lemma transform_convertible (rawData : JsVal) (out : list canonical) :
  transform rawData = Ok out ->
  exists records, rawData = Arr records /\ forallb convertible_record records = true.
Proof.
  intros Ht. apply transform_inv in Ht as (records & renamed & -> & Hmap & _).
  exists records. split; [reflexivity | ].
  rewrite <- mapM_rename_fields_returns, Hmap. reflexivity.
Qed.

(** X2: [transform] returns only on an array of which every element is a
    record whose values can be converted.  On an array with one element that
    cannot be converted it throws, and so it does on anything that is not an
    array: nothing of the batch is returned. *)
Theorem transform_returns_convertible (rawData : JsVal) :
  (forall out, transform rawData = Ok out ->
               exists records, rawData = Arr records
                               /\ forallb convertible_record records = true)
  /\ (forall records record,
         rawData = Arr records -> In record records ->
         convertible_record record = false ->
         exists e, transform rawData = Throw e)
  /\ ((forall records, rawData <> Arr records) -> exists e, transform rawData = Throw e).
Proof.
  split; [exact (@transform_convertible rawData) | ]. split.
  - intros records record -> Hin Hconv.
    destruct (transform (Arr records)) as [out | e] eqn:Ht; [exfalso | eauto].
    apply transform_convertible in Ht as (records' & [= <-] & Hall).
    rewrite forallb_forall in Hall. rewrite (Hall record Hin) in Hconv. discriminate.
  - intros Hnot. destruct (transform rawData) as [out | e] eqn:Ht; [exfalso | eauto].
    apply transform_convertible in Ht as (records & -> & _). now apply (Hnot records).
Qed.

(** ** Transform: what it returns *)

Lemma mapM_length {A B : Type} (f : A -> result B) (l : list A) (l' : list B) :
  mapM f l = Ok l' -> List.length l' = List.length l.
Proof.
  intros H. apply mapM_Forall2 in H. induction H; simpl; congruence.
Qed.

(** X3: the output of [transform] has at most as many records as the input, and
    each of them is the mapping of a record of the input that passes the
    filter; nothing is invented or duplicated. *)
Theorem transform_output_from_input (records : list JsVal) (out : list canonical) :
  transform (Arr records) = Ok out ->
  (List.length out <= List.length records)%nat /\
  (exists kept,
     Permutation out (map add_computed kept) /\
     Forall2 (fun record r => rename_fields record = Ok r)
       (filter (fun record => match rename_fields record with
                              | Ok r => is_valid r
                              | Throw _ => false
                              end) records)
       kept).
Proof.
  intros H. apply transform_inv in H as (records' & renamed & Heq & Hmap & ->).
  injection Heq as <-. split.
  - rewrite (Permutation_length (Array_sort_perm by_total_desc _)), length_map.
    rewrite <- (mapM_length _ _ Hmap). apply filter_length_le.
  - exists (filter is_valid renamed). split; [apply Array_sort_perm | ].
    apply mapM_Forall2 in Hmap. induction Hmap as [ | record r l l' Hr _ IH]; simpl.
    + constructor.
    + rewrite Hr. destruct (is_valid r); [constructor; assumption | assumption].
Qed.

Lemma transform_output_from_input_witness :
  let records := [sample_no_elec; sample_pasteur; sample_hopital] in
  let out := returned [] (transform (Arr records)) in
  transform (Arr records) = Ok out /\
  (List.length out <= List.length records)%nat /\
  List.length out = 2%nat.
Proof.
  intros records out.
  assert (H : transform (Arr records) = Ok out) by (vm_compute; reflexivity).
  refine (conj H (conj (proj1 (@transform_output_from_input records out H)) _)).
  vm_compute. reflexivity.
Defined.

Lemma mapM_skip {A B : Type} (f : A -> result B) (keep : B -> bool)
    (before after : list A) (x : A) (y : B) :
  f x = Ok y -> keep y = false ->
  match mapM f (before ++ x :: after), mapM f (before ++ after) with
  | Ok l1, Ok l2 => filter keep l1 = filter keep l2
  | Throw e1, Throw e2 => e1 = e2
  | _, _ => False
  end.
Proof.
  intros Hx Hy. induction before as [ | z before IH]; simpl.
  - rewrite Hx. simpl. destruct (mapM f after); simpl; [ | reflexivity].
    now rewrite Hy.
  - destruct (f z) as [b | ]; simpl; [ | reflexivity].
    destruct (mapM f (before ++ x :: after)), (mapM f (before ++ after));
      simpl; try contradiction; [ | assumption].
    destruct (keep b); congruence.
Qed.

(** X4: a record that is mapped and then rejected by the filter leaves no
    trace: [transform] gives the same result, or throws the same error, as on
    the batch without it. *)
Theorem transform_ignores_invalid (before after : list JsVal) (record : JsVal)
    (r : Mapped.t) :
  rename_fields record = Ok r ->
  is_valid r = false ->
  transform (Arr (before ++ record :: after)) = transform (Arr (before ++ after)).
Proof.
  intros Hr Hv. unfold transform.
  pose proof (@mapM_skip _ _ rename_fields is_valid before after _ _ Hr Hv) as H.
  destruct (mapM rename_fields (before ++ record :: after)),
           (mapM rename_fields (before ++ after)); simpl; try contradiction.
  - now rewrite H.
  - now rewrite H.
Qed.

Lemma transform_ignores_invalid_witness :
  let r := returned empty_mapped (rename_fields sample_no_elec) in
  rename_fields sample_no_elec = Ok r /\
  is_valid r = false /\
  transform (Arr ([sample_pasteur] ++ sample_no_elec :: [sample_hopital]))
  = transform (Arr ([sample_pasteur] ++ [sample_hopital])).
Proof.
  intros r.
  assert (H1 : rename_fields sample_no_elec = Ok r) by (vm_compute; reflexivity).
  assert (H2 : is_valid r = false) by (vm_compute; reflexivity).
  exact (conj H1 (conj H2
           (@transform_ignores_invalid [sample_pasteur] [sample_hopital] _ _ H1 H2))).
Defined.

(** ** Categories *)

Lemma str_eqb_eq (s t : js_string) : str_eqb s t = true <-> s = t.
Proof.
  revert t. induction s as [ | c s IH]; intros [ | d t]; simpl;
    try (split; (discriminate || reflexivity)).
  rewrite andb_true_iff, N.eqb_eq, IH. split; [intros [-> ->] | intros [= -> ->]]; auto.
Qed.

Lemma map_get_In (k v : js_string) (m : list (js_string * js_string)) :
  map_get k m = Some v -> In (k, v) m.
Proof.
  induction m as [ | [k' v'] m IH]; simpl; [discriminate | ].
  destruct (str_eqb k k') eqn:E.
  - apply str_eqb_eq in E as ->. intros [= ->]. now left.
  - intros H. right. auto.
Qed.

Lemma normalizeType_nonempty (value : JsVal) (s : js_string) :
  normalizeType value = Ok s -> s <> [].
Proof.
  unfold normalizeType. destruct (ToBoolean value) eqn:Hb; cbn [negb].
  - destruct value; try discriminate.
    destruct (map_get (toUpperCase s0) type_map) as [label | ] eqn:E.
    + intros [= <-]. apply map_get_In in E. simpl in E.
      repeat (destruct E as [[= _ <-] | E]; [discriminate | ]). contradiction.
    + intros [= <-]. destruct s0; [simpl in Hb; discriminate Hb | intros ?; discriminate].
  - intros [= <-]. discriminate.
Qed.

(** X5: the label [normalizeType] returns is never empty, and normalising it
    again gives it back. *)
Theorem normalizeType_stable (value : JsVal) (s : js_string) :
  normalizeType value = Ok s ->
  s <> [] /\ normalizeType (Str s) = Ok s.
Proof.
  intros H. split; [exact (normalizeType_nonempty _ H) | ].
  unfold normalizeType in H. destruct (ToBoolean value) eqn:Hb; cbn [negb] in H.
  - destruct value; try discriminate.
    destruct (map_get (toUpperCase s0) type_map) as [label | ] eqn:E.
    + injection H as <-. apply map_get_In in E. simpl in E.
      repeat (destruct E as [[= _ <-] | E]; [reflexivity | ]). contradiction.
    + injection H as <-. rewrite normalizeType_string, E.
      destruct s0; [discriminate Hb | reflexivity].
  - injection H as <-. reflexivity.
Qed.

Lemma normalizeType_stable_witness :
  normalizeType (text "gymnase") = Ok Gymnase /\
  Gymnase <> [] /\
  normalizeType (Str Gymnase) = Ok Gymnase.
Proof.
  assert (H : normalizeType (text "gymnase") = Ok Gymnase) by reflexivity.
  exact (conj H (@normalizeType_stable _ _ H)).
Defined.

Lemma upper_code_unit_space (c : code_unit) :
  isWhiteSpace c = true -> upper_code_unit c = [c].
Proof.
  intros H. unfold isWhiteSpace in H.
  rewrite ?orb_true_iff, ?andb_true_iff, ?N.leb_le, ?N.eqb_eq in H.
  unfold upper_code_unit.
  repeat (match goal with
          | |- context [(?a <=? ?b)%N] => destruct (N.leb_spec a b); try lia
          | |- context [(?a =? ?b)%N] => destruct (N.eqb_spec a b); try lia
          end; cbn [andb orb negb]);
    reflexivity.
Qed.

Lemma toUpperCase_space_head (c : code_unit) (rest : js_string) :
  isWhiteSpace c = true -> toUpperCase (c :: rest) = c :: toUpperCase rest.
Proof.
  intros H. unfold toUpperCase. simpl. now rewrite upper_code_unit_space by exact H.
Qed.

(** X6: unlike the name and the address, the category is not trimmed: a
    category written with white space before or after it is never recognised,
    and is kept as it is written. *)
Theorem normalizeType_keeps_outer_space (s : js_string) :
  has_outer_space s = true ->
  map_get (toUpperCase s) type_map = None /\ normalizeType (Str s) = Ok s.
Proof.
  intros H.
  assert (Hnone : map_get (toUpperCase s) type_map = None).
  { destruct (map_get (toUpperCase s) type_map) as [label | ] eqn:E; [ | reflexivity].
    exfalso. apply map_get_In in E.
    destruct s as [ | c rest]; [discriminate H | ].
    unfold has_outer_space in H. apply orb_true_iff in H as [H | H].
    - rewrite toUpperCase_space_head in E by exact H. simpl in E.
      repeat (destruct E as [[= <- _ _] | E]; [discriminate H | ]). contradiction.
    - remember (c :: rest) as s eqn:Hs.
      assert (Hsplit : s = removelast s ++ [last s c]).
      { apply app_removelast_last. rewrite Hs. discriminate. }
      rewrite Hsplit in E. unfold toUpperCase in E.
      rewrite flat_map_app in E. simpl in E.
      rewrite upper_code_unit_space in E by exact H. rewrite app_nil_r in E.
      repeat (destruct E as [E | E];
              [injection E as E _;
               apply (f_equal (fun l => last l 0%N)) in E;
               rewrite last_last in E; simpl in E;
               rewrite <- E in H; discriminate H | ]).
      contradiction. }
  split; [exact Hnone | ].
  rewrite normalizeType_string, Hnone. destruct s; [discriminate H | reflexivity].
Qed.

Lemma normalizeType_keeps_outer_space_witness :
  has_outer_space (lit " ecole") = true /\
  map_get (toUpperCase (lit " ecole")) type_map = None /\
  normalizeType (text " ecole") = Ok (lit " ecole") /\
  normalizeType (text "ecole") = Ok Ecole.
Proof.
  assert (H : has_outer_space (lit " ecole") = true) by reflexivity.
  destruct (@normalizeType_keeps_outer_space (lit " ecole") H) as [H1 H2].
  exact (conj H (conj H1 (conj H2 eq_refl))).
Defined.

(** X7: in the published dataset, the name, the address and the energy class
    have no white space at either end, and neither the name nor the category
    is empty. *)
Theorem published_text_fields (rawData : JsVal) (out : list canonical) (c : canonical) :
  transform rawData = Ok out ->
  In c out ->
  nom c <> [] /\ no_outer_space (nom c) /\
  no_outer_space (adresse c) /\ no_outer_space (classe_dpe c) /\
  type c <> [].
Proof.
  intros Hout Hc.
  apply (transform_member _ c Hout) in Hc
    as (records & record & r & _ & _ & Hr & Hvalid & ->).
  apply rename_fields_inv in Hr
    as (Hnom & Htype & Hadr & _ & _ & _ & _ & _ & _ & _ & Hdpe & _).
  simpl. repeat split.
  - unfold is_valid in Hvalid. rewrite !andb_true_iff in Hvalid.
    now apply truthy_str_nonempty.
  - apply (cleanString_no_outer_space _ Hnom).
  - apply (cleanString_no_outer_space _ Hnom).
  - apply (cleanString_no_outer_space _ Hadr).
  - apply (cleanString_no_outer_space _ Hadr).
  - apply (cleanString_no_outer_space _ Hdpe).
  - apply (cleanString_no_outer_space _ Hdpe).
  - exact (normalizeType_nonempty _ Htype).
Qed.

Lemma published_text_fields_witness :
  let out := returned [] (transform (Arr [sample_pasteur; sample_hopital])) in
  let c := hd (add_computed empty_mapped) out in
  transform (Arr [sample_pasteur; sample_hopital]) = Ok out /\
  In c out /\
  nom c <> [] /\ no_outer_space (nom c) /\
  no_outer_space (adresse c) /\ no_outer_space (classe_dpe c) /\
  type c <> [].
Proof.
  intros out c.
  assert (H1 : transform (Arr [sample_pasteur; sample_hopital]) = Ok out)
    by (vm_compute; reflexivity).
  assert (H2 : In c out) by (vm_compute; auto).
  exact (conj H1 (conj H2 (@published_text_fields _ _ c H1 H2))).
Defined.

(** ** Levels *)

Lemma positive_not_leb_zero (x : float) :
  (0 <? x)%float = true -> (x <=? 0)%float = false.
Proof.
  intros H. destruct (x <=? 0)%float eqn:E; [ | reflexivity].
  apply leb_zero_not_positive in E. congruence.
Qed.

Lemma nan_not_ltb (x y : float) : is_nan x = true -> (x <? y)%float = false.
Proof.
  intros H. destruct (x <? y)%float eqn:E; [ | reflexivity].
  destruct (@compared_not_nan x y (or_introl E)). congruence.
Qed.

(** X8: for buildings with a positive surface the level follows the intensity
    (total energy by surface): a building with the larger intensity never gets
    the lower level; and an intensity that is not a number is classed high. *)
Theorem consumption_level_monotone (t1 s1 t2 s2 : float) :
  (0 <? s1)%float = true -> (0 <? s2)%float = true ->
  ((t1 / s1 <=? t2 / s2)%float = true ->
   (level_rank (getConsumptionLevel t1 s1) <= level_rank (getConsumptionLevel t2 s2))%nat) /\
  (is_nan (t2 / s2) = true -> getConsumptionLevel t2 s2 = high).
Proof.
  intros H1 H2. unfold getConsumptionLevel.
  rewrite (positive_not_leb_zero H1), (positive_not_leb_zero H2). split.
  - intros Hle.
    destruct (@compared_not_nan _ _ (or_intror (or_introl Hle))) as [N1 N2].
    rewrite leb_rank in Hle by assumption. apply Z.leb_le in Hle.
    rewrite !ltb_rank by (assumption || reflexivity).
    repeat match goal with
           | |- context [(?a <? ?b)%Z] => destruct (Z.ltb_spec a b)
           end; simpl; lia.
  - intros Hnan. now rewrite !nan_not_ltb.
Qed.

Lemma consumption_level_monotone_witness :
  (0 <? 100)%float = true /\ (0 <? 50)%float = true /\
  (2900 / 100 <=? 3100 / 50)%float = true /\
  (level_rank (getConsumptionLevel 2900 100)
   <= level_rank (getConsumptionLevel 3100 50))%nat.
Proof.
  assert (H1 : (0 <? 100)%float = true) by reflexivity.
  assert (H2 : (0 <? 50)%float = true) by reflexivity.
  assert (H3 : (2900 / 100 <=? 3100 / 50)%float = true) by reflexivity.
  exact (conj H1 (conj H2 (conj H3
           (proj1 (@consumption_level_monotone 2900 100 3100 50 H1 H2) H3)))).
Defined.

(** ** The orchestrator: what is published *)

Section PublishedFacts.
Variable RAW_API_RESPONSE : JsVal.

Lemma Forall_replace_nth {A : Type} (P : A -> Prop) (i : nat) (x : A) (l : list A) :
  Forall P l -> P x -> Forall P (replace_nth i x l).
Proof.
  intros Hl Hx. revert i. induction Hl as [ | y l Hy Hl IH]; intros [ | i]; simpl;
    constructor; auto.
Qed.

Lemma state_ok_emit_step (st : app_state) (step : step_name) (status : step_status) :
  state_ok RAW_API_RESPONSE st ->
  state_ok RAW_API_RESPONSE (emit (StepUpdate step status) st).
Proof.
  intros [Hd He]. split; [exact Hd | ].
  simpl. apply Forall_app. split; [exact He | ]. repeat constructor.
Qed.

Lemma state_ok_set_isProcessing (b : bool) (st : app_state) :
  state_ok RAW_API_RESPONSE st -> state_ok RAW_API_RESPONSE (set_isProcessing b st).
Proof. intros [Hd He]. split; assumption. Qed.

Lemma notify_ok (cb : callback) (step : step_name) (status : step_status)
    (st : app_state) :
  state_ok RAW_API_RESPONSE st ->
  state_ok RAW_API_RESPONSE (fst (notify cb step status st)).
Proof.
  intros H. unfold notify. destruct cb; simpl; [now apply state_ok_emit_step | exact H].
Qed.

Lemma notify_processedData (cb : callback) (step : step_name) (status : step_status)
    (st : app_state) :
  processedData (fst (notify cb step status st)) = processedData st.
Proof. unfold notify. destruct cb; reflexivity. Qed.

Lemma with_finally_ok (cb : callback)
    (r : app_state * result (suspended + list canonical)) :
  state_ok RAW_API_RESPONSE (fst r) ->
  match snd r with
  | Ok (inl at_) => suspended_ok RAW_API_RESPONSE at_
  | Ok (inr value) => value = [] \/ published_by RAW_API_RESPONSE value
  | Throw _ => True
  end ->
  state_ok RAW_API_RESPONSE (fst (with_finally cb r)) /\
  promise_ok RAW_API_RESPONSE (snd (with_finally cb r)).
Proof.
  destruct r as [st [[at_ | value] | e]]; simpl; intros Hst Hr; split;
    try assumption; try exact I; now apply state_ok_set_isProcessing.
Qed.

Lemma runETLPipeline_ok (cb : callback) (st : app_state) :
  state_ok RAW_API_RESPONSE st ->
  state_ok RAW_API_RESPONSE (fst (runETLPipeline cb st)) /\
  promise_ok RAW_API_RESPONSE (snd (runETLPipeline cb st)).
Proof.
  intros Hst. unfold runETLPipeline. destruct (isProcessing st).
  - split; [exact Hst | apply Hst].
  - apply with_finally_ok; unfold try_block_from_start, bindM, ret;
      pose proof (notify_ok cb extract_step active (state_ok_set_isProcessing true Hst)) as H;
      destruct (notify cb extract_step active (set_isProcessing true st)) as [st' [[] | e]];
      simpl in *; auto.
Qed.

Lemma resume_ok (at_ : suspended) (cb : callback) (st : app_state) :
  suspended_ok RAW_API_RESPONSE at_ ->
  state_ok RAW_API_RESPONSE st ->
  state_ok RAW_API_RESPONSE (fst (resume RAW_API_RESPONSE at_ cb st)) /\
  promise_ok RAW_API_RESPONSE (snd (resume RAW_API_RESPONSE at_ cb st)).
Proof.
  intros Hat Hst. unfold resume. apply with_finally_ok.
  - destruct at_ as [ | rawData | transformedData];
      unfold try_block_after, bindM, lift, ret, set_processedData, dispatch_complete.
    + destruct (extract RAW_API_RESPONSE); [ | exact Hst].
      pose proof (notify_ok cb extract_step done Hst) as H1.
      destruct (notify cb extract_step done st) as [st1 [[] | e]];
        cbn [fst] in H1; [ | exact H1].
      pose proof (notify_ok cb transform_step active H1) as H2.
      destruct (notify cb transform_step active st1) as [st2 [[] | e]]; exact H2.
    + destruct (transform rawData); [ | exact Hst].
      pose proof (notify_ok cb transform_step done Hst) as H1.
      destruct (notify cb transform_step done st) as [st1 [[] | e]];
        cbn [fst] in H1; [ | exact H1].
      pose proof (notify_ok cb load_step active H1) as H2.
      destruct (notify cb load_step active st1) as [st2 [[] | e]]; exact H2.
    + set (st0 := {| processedData := load transformedData;
                     isProcessing := isProcessing st; events := events st |}).
      assert (H0 : state_ok RAW_API_RESPONSE st0).
      { split; [right; exact Hat | apply Hst]. }
      pose proof (notify_ok cb load_step done H0) as H1.
      pose proof (notify_processedData cb load_step done st0) as Hd.
      destruct (notify cb load_step done st0) as [st1 [[] | e]];
        cbn [fst] in H1, Hd; [ | exact H1].
      split; [exact (proj1 H1) | ].
      cbn [fst emit events]. apply Forall_app. split; [exact (proj2 H1) | ].
      constructor; [ | constructor]. cbn [event_ok]. rewrite Hd. exact Hat.
  - destruct at_ as [ | rawData | transformedData];
      unfold try_block_after, bindM, lift, ret, set_processedData, dispatch_complete.
    + destruct (extract RAW_API_RESPONSE) eqn:E; [ | exact I].
      destruct (notify cb extract_step done st) as [st1 [[] | e]]; [ | exact I].
      destruct (notify cb transform_step active st1) as [st2 [[] | e]];
        [exact E | exact I].
    + destruct (transform rawData) eqn:E; [ | exact I].
      destruct (notify cb transform_step done st) as [st1 [[] | e]]; [ | exact I].
      destruct (notify cb load_step active st1) as [st2 [[] | e]]; [ | exact I].
      exists rawData. auto.
    + set (st0 := {| processedData := load transformedData;
                     isProcessing := isProcessing st; events := events st |}).
      pose proof (notify_processedData cb load_step done st0) as Hd.
      destruct (notify cb load_step done st0) as [st1 [[] | e]];
        cbn [fst] in Hd; [ | exact I].
      cbn [snd]. rewrite Hd. right. exact Hat.
Qed.

Lemma reachable_ok (s : system) :
  reachable RAW_API_RESPONSE s ->
  state_ok RAW_API_RESPONSE (app s) /\
  Forall (promise_ok RAW_API_RESPONSE) (promises s).
Proof.
  induction 1 as [ | a s s' _ [IHst IHp] Hstep].
  - repeat split; simpl; auto.
  - destruct a as [cb | i]; simpl in Hstep.
    + pose proof (runETLPipeline_ok cb IHst) as [H1 H2].
      destruct (runETLPipeline cb (app s)) as [st p].
      injection Hstep as <-. simpl in *. split; [exact H1 | ].
      apply Forall_app. auto.
    + destruct (nth_error (promises s) i) as [[at_ cb | | ] | ] eqn:Hi;
        try discriminate.
      assert (Hat : suspended_ok RAW_API_RESPONSE at_).
      { apply nth_error_In in Hi. rewrite Forall_forall in IHp. exact (IHp _ Hi). }
      pose proof (resume_ok at_ cb Hat IHst) as [H1 H2].
      destruct (resume RAW_API_RESPONSE at_ cb (app s)) as [st p].
      injection Hstep as <-. simpl in *. split; [exact H1 | ].
      now apply Forall_replace_nth.
Qed.

(** X9: whatever calls are made and whenever the timers fire, and whatever
    fails on the way, the dataset that [getData] returns is either the initial
    empty one or what [transform] returns on what [extract] returns: no run
    publishes a partial or intermediate result.  The same holds of the value
    of every fulfilled promise, and the data of every completion event is
    such a result. *)
Theorem published_dataset (s : system) :
  reachable RAW_API_RESPONSE s ->
  (getData (app s) = [] \/ published_by RAW_API_RESPONSE (getData (app s))) /\
  (forall value, In (Fulfilled value) (promises s) ->
     value = [] \/ published_by RAW_API_RESPONSE value) /\
  (forall data, In (EtlComplete data) (events (app s)) ->
     published_by RAW_API_RESPONSE data).
Proof.
  intros H. apply reachable_ok in H as [[Hd He] Hp]. split; [exact Hd | split].
  - intros value Hin. rewrite Forall_forall in Hp. exact (Hp _ Hin).
  - intros data Hin. rewrite Forall_forall in He. exact (He _ Hin).
Qed.
End PublishedFacts.

Lemma published_dataset_witness :
  reachable sample_source sample_completed /\
  getData (app sample_completed) <> [] /\
  (getData (app sample_completed) = []
   \/ published_by sample_source (getData (app sample_completed))) /\
  (forall value, In (Fulfilled value) (promises sample_completed) ->
     value = [] \/ published_by sample_source value) /\
  (forall data, In (EtlComplete data) (events (app sample_completed)) ->
     published_by sample_source data).
Proof.
  assert (H : reachable sample_source sample_completed).
  { apply (@run_actions_reachable sample_source
             [Call None; TimerFires 0; TimerFires 0; TimerFires 0] initial_system).
    - apply reachable_initial.
    - vm_compute. reflexivity. }
  refine (conj H (conj _ (@published_dataset sample_source sample_completed H))).
  vm_compute. discriminate.
Defined.

(** ** The orchestrator: whole runs *)

Section RunFacts.
Variable RAW_API_RESPONSE : JsVal.

Lemma nth_error_snoc {A : Type} (l : list A) (x : A) :
  nth_error (l ++ [x]) (List.length l) = Some x.
Proof. induction l; simpl; auto. Qed.

Lemma replace_nth_snoc {A : Type} (l : list A) (x y : A) :
  replace_nth (List.length l) y (l ++ [x]) = l ++ [y].
Proof. induction l; simpl; congruence. Qed.

Lemma perform_timer_last (st : app_state) (l : list promise) (at_ : suspended)
    (cb : callback) :
  perform RAW_API_RESPONSE (TimerFires (List.length l))
    {| app := st; promises := l ++ [Pending at_ cb] |}
  = Some {| app := fst (resume RAW_API_RESPONSE at_ cb st);
            promises := l ++ [snd (resume RAW_API_RESPONSE at_ cb st)] |}.
Proof.
  cbn [perform app promises]. rewrite nth_error_snoc.
  destruct (resume RAW_API_RESPONSE at_ cb st) as [st' p].
  now rewrite replace_nth_snoc.
Qed.

Lemma perform_call (st : app_state) (l : list promise) (cb : callback) :
  perform RAW_API_RESPONSE (Call cb) {| app := st; promises := l |}
  = Some {| app := fst (runETLPipeline cb st);
            promises := l ++ [snd (runETLPipeline cb st)] |}.
Proof.
  cbn [perform app promises]. now destruct (runETLPipeline cb st).
Qed.

(** X10: a run that nothing interrupts.  When no run is in progress, Extract and
    Transform return and the progress callback (if there is one) does not
    throw, a call followed by its three timers ends with the promise
    fulfilled with the result of Transform, that result published, the six
    progress notifications made in order and followed by one completion event
    carrying the result, and the flag cleared. *)
Theorem complete_run (s : system) (cb : callback) (rawData : JsVal)
    (data : list canonical) :
  isETLProcessing (app s) = false ->
  extract RAW_API_RESPONSE = Ok rawData ->
  transform rawData = Ok data ->
  (forall f step status, cb = Some f -> f step status = Ok tt) ->
  let n := List.length (promises s) in
  run_actions RAW_API_RESPONSE
    [Call cb; TimerFires n; TimerFires n; TimerFires n] s
  = Some {| app := {| processedData := data;
                      isProcessing := false;
                      events := events (app s)
                                ++ notified cb
                                     [StepUpdate extract_step active;
                                      StepUpdate extract_step done;
                                      StepUpdate transform_step active;
                                      StepUpdate transform_step done;
                                      StepUpdate load_step active;
                                      StepUpdate load_step done]
                                ++ [EtlComplete data] |};
            promises := promises s ++ [Fulfilled data] |}.
Proof.
  intros Hidle Hextract Htransform Hcb n.
  destruct s as [[pd flag ev] ps]. simpl in Hidle, n. subst flag n.
  cbn [run_actions app promises events]. rewrite perform_call.
  unfold runETLPipeline. cbn [isProcessing].
  unfold try_block_from_start, bindM, ret.
  destruct cb as [f | ].
  - assert (Hf : forall step status, f step status = Ok tt) by (intros; now apply Hcb).
    unfold notify. rewrite Hf. cbn [with_finally fst snd].
    rewrite perform_timer_last. unfold resume, try_block_after, bindM, lift, ret, notify.
    rewrite Hextract, !Hf. cbn [with_finally fst snd].
    rewrite perform_timer_last. unfold resume, try_block_after, bindM, lift, ret, notify.
    rewrite Htransform, !Hf. cbn [with_finally fst snd].
    rewrite perform_timer_last.
    unfold resume, try_block_after, bindM, lift, ret, notify, set_processedData,
      dispatch_complete.
    rewrite !Hf. unfold set_isProcessing, emit, load. cbn.
    rewrite <- !app_assoc. reflexivity.
  - unfold notify. cbn [with_finally fst snd].
    rewrite perform_timer_last. unfold resume, try_block_after, bindM, lift, ret, notify.
    rewrite Hextract. cbn [with_finally fst snd].
    rewrite perform_timer_last. unfold resume, try_block_after, bindM, lift, ret, notify.
    rewrite Htransform. cbn [with_finally fst snd].
    rewrite perform_timer_last. reflexivity.
Qed.

(** X11: a progress callback that throws when it is told that Load is done ends
    the run after the dataset has been replaced: the new dataset is published,
    yet the promise is rejected with the error of the callback and no
    completion event is sent. *)
Theorem load_callback_failure (s : system) (i : nat) (transformedData : list canonical)
    (f : step_name -> step_status -> result unit) (e : js_error) :
  nth_error (promises s) i = Some (Pending (await_delay_500 transformedData) (Some f)) ->
  f load_step done = Throw e ->
  exists s',
    perform RAW_API_RESPONSE (TimerFires i) s = Some s' /\
    getData (app s') = transformedData /\
    nth_error (promises s') i = Some (Rejected e) /\
    isETLProcessing (app s') = false /\
    events (app s') = events (app s) ++ [StepUpdate load_step done].
Proof.
  intros Hi Hf. eexists. split.
  - cbn [perform]. rewrite Hi.
    unfold resume, try_block_after, bindM, lift, ret, notify, set_processedData.
    rewrite Hf. cbn [with_finally]. reflexivity.
  - cbn. repeat split. apply (nth_error_replace_nth _ _ _ Hi).
Qed.
End RunFacts.

Lemma complete_run_witness :
  let rawData := returned Null (extract sample_source) in
  let data := returned [] (transform rawData) in
  isETLProcessing (app initial_system) = false /\
  extract sample_source = Ok rawData /\
  transform rawData = Ok data /\
  run_actions sample_source
    [Call quiet_callback; TimerFires 0; TimerFires 0; TimerFires 0] initial_system
  = Some {| app := {| processedData := data;
                      isProcessing := false;
                      events := [StepUpdate extract_step active;
                                 StepUpdate extract_step done;
                                 StepUpdate transform_step active;
                                 StepUpdate transform_step done;
                                 StepUpdate load_step active;
                                 StepUpdate load_step done;
                                 EtlComplete data] |};
            promises := [Fulfilled data] |}.
Proof.
  intros rawData data.
  assert (H1 : isETLProcessing (app initial_system) = false) by reflexivity.
  assert (H2 : extract sample_source = Ok rawData) by (vm_compute; reflexivity).
  assert (H3 : transform rawData = Ok data) by (vm_compute; reflexivity).
  assert (H4 : forall f step status, quiet_callback = Some f -> f step status = Ok tt).
  { intros f step status E. injection E as <-. reflexivity. }
  exact (conj H1 (conj H2 (conj H3
           (@complete_run sample_source initial_system quiet_callback rawData data
              H1 H2 H3 H4)))).
Defined.

Lemma load_callback_failure_witness :
  let data := returned [] (transform (Arr [sample_pasteur])) in
  nth_error (promises sample_loading) 0
  = Some (Pending (await_delay_500 data) (Some late_failing_callback)) /\
  late_failing_callback load_step done = Throw UserError /\
  exists s',
    perform sample_source (TimerFires 0) sample_loading = Some s' /\
    getData (app s') = data /\
    nth_error (promises s') 0 = Some (Rejected UserError) /\
    isETLProcessing (app s') = false /\
    events (app s') = events (app sample_loading) ++ [StepUpdate load_step done].
Proof.
  intros data.
  assert (H1 : nth_error (promises sample_loading) 0
               = Some (Pending (await_delay_500 data) (Some late_failing_callback)))
    by reflexivity.
  assert (H2 : late_failing_callback load_step done = Throw UserError) by reflexivity.
  exact (conj H1 (conj H2
           (@load_callback_failure sample_source sample_loading 0 data
              late_failing_callback UserError H1 H2))).
Defined.

(** ** Extract *)

Lemma json_copy_no_undefined (v : JsVal) : no_undefined (json_copy v) = true.
Proof.
  induction v as [ | | b | x | s | elems IH | props IH] using JsVal_nested_ind;
    try reflexivity.
  - simpl. destruct (is_finite x); reflexivity.
  - cbn [json_copy no_undefined].
    induction IH as [ | v l Hv _ IHl]; [reflexivity | ].
    simpl. now rewrite Hv, IHl.
  - cbn [json_copy no_undefined].
    induction IH as [ | [k v] l Hv _ IHl]; [reflexivity | ].
    simpl in Hv.
    destruct v; try exact IHl;
      (cbn [forallb snd]; rewrite Hv; exact IHl).
Qed.

Lemma json_copy_textual (v : JsVal) : textual v = true -> json_copy v = v.
Proof.
  induction v as [ | | b | x | s | elems IH | props IH] using JsVal_nested_ind;
    try reflexivity; try discriminate.
  - cbn [textual json_copy]. intros H. f_equal.
    induction IH as [ | v l Hv _ IHl]; [reflexivity | ].
    simpl in H. apply andb_true_iff in H as [H1 H2].
    simpl. now rewrite (Hv H1), (IHl H2).
  - cbn [textual json_copy]. intros H. f_equal.
    induction IH as [ | [k v] l Hv _ IHl]; [reflexivity | ].
    simpl in H, Hv. apply andb_true_iff in H as [H1 H2].
    rewrite (IHl H2).
    destruct v; try discriminate H1; try reflexivity;
      now rewrite (Hv H1).
Qed.

(** X12: what [extract] returns is a copy in which no value is [undefined];
    and when the source holds only strings, booleans and [null] (in arrays and
    objects), the copy is the source itself, value for value. *)
Theorem extract_copy (RAW_API_RESPONSE : JsVal) :
  (forall raw, extract RAW_API_RESPONSE = Ok raw -> no_undefined raw = true) /\
  (forall resultats,
     get_property RAW_API_RESPONSE (lit "resultats") = Ok resultats ->
     textual resultats = true -> resultats <> Null ->
     extract RAW_API_RESPONSE = Ok resultats).
Proof.
  unfold extract. split.
  - intros raw H. inv_bind H.
    assert (Hraw : raw = json_copy a).
    { remember (json_copy a) as j eqn:Hj. clear Hj.
      destruct a; try discriminate H; cbv zeta in H;
        destruct j; congruence. }
    rewrite Hraw. apply json_copy_no_undefined.
  - intros resultats -> Ht Hn. cbn [bind].
    rewrite (json_copy_textual _ Ht).
    destruct resultats; try reflexivity; try discriminate Ht. congruence.
Qed.

(** ** visualization.js *)

(** X13: [truncateLabel] returns at most [maxLen] code units and the ellipsis:
    a label that fits is returned as it is, a longer one keeps its first
    [maxLen] code units and ends with the ellipsis, so that the result is one
    unit longer than [maxLen]; truncating twice is truncating once. *)
Theorem truncateLabel_bounds (label : js_string) (maxLen : nat) :
  (List.length (truncateLabel label maxLen) <= S maxLen)%nat /\
  firstn maxLen (truncateLabel label maxLen) = firstn maxLen label /\
  ((List.length label <= maxLen)%nat -> truncateLabel label maxLen = label) /\
  ((maxLen < List.length label)%nat ->
   truncateLabel label maxLen = firstn maxLen label ++ [ellipsis] /\
   List.length (truncateLabel label maxLen) = S maxLen) /\
  truncateLabel (truncateLabel label maxLen) maxLen = truncateLabel label maxLen.
Proof.
  unfold truncateLabel.
  destruct (Nat.ltb_spec maxLen (List.length label)) as [Hlt | Hle].
  - assert (Hlen : List.length (firstn maxLen label) = maxLen).
    { rewrite length_firstn. lia. }
    assert (Hfirst : firstn maxLen (firstn maxLen label ++ [ellipsis])
                     = firstn maxLen label).
    { rewrite firstn_app, Hlen, Nat.sub_diag. simpl. rewrite app_nil_r.
      rewrite <- Hlen at 1. apply firstn_all. }
    repeat split.
    + rewrite length_app, Hlen. simpl. lia.
    + exact Hfirst.
    + lia.
    + rewrite length_app, Hlen. simpl. lia.
    + rewrite length_app, Hlen. simpl.
      destruct (Nat.ltb_spec maxLen (maxLen + 1)) as [_ | Habs]; [ | lia].
      now rewrite Hfirst.
  - repeat split; try lia.
    destruct (Nat.ltb_spec maxLen (List.length label)); [lia | reflexivity].
Qed.

(** ** dataTable.js *)

(** X14: a building without a positive surface is classed [medium] by the
    pipeline, while its intensity is 0, which the table shows with the class
    of a low consumption. *)
Theorem table_class_without_surface (rawData : JsVal) (out : list canonical)
    (c : canonical) :
  transform rawData = Ok out ->
  In c out ->
  (surface_m2 c <=? 0)%float = true ->
  niveau_conso c = medium /\
  intensite_energetique c = 0%float /\
  getIntensityClass (intensite_energetique c) = lit "consumption-low".
Proof.
  intros Hout Hc Hs.
  apply (transform_member _ c Hout) in Hc
    as (records & record & r & _ & _ & _ & _ & ->).
  simpl in *. unfold getConsumptionLevel. rewrite Hs.
  rewrite (leb_zero_not_positive Hs). repeat split.
Qed.

Lemma table_class_without_surface_witness :
  let out := returned [] (transform (Arr [sample_pasteur; sample_hopital])) in
  let c := nth 1 out (add_computed empty_mapped) in
  transform (Arr [sample_pasteur; sample_hopital]) = Ok out /\
  In c out /\
  (surface_m2 c <=? 0)%float = true /\
  niveau_conso c = medium /\
  intensite_energetique c = 0%float /\
  getIntensityClass (intensite_energetique c) = lit "consumption-low".
Proof.
  intros out c.
  assert (H1 : transform (Arr [sample_pasteur; sample_hopital]) = Ok out)
    by (vm_compute; reflexivity).
  assert (H2 : In c out) by (vm_compute; auto).
  assert (H3 : (surface_m2 c <=? 0)%float = true) by (vm_compute; reflexivity).
  exact (conj H1 (conj H2 (conj H3 (@table_class_without_surface _ _ c H1 H2 H3)))).
Defined.

Lemma click_header_field (field : js_string) (st : sort_state) :
  sortField (click_header field st) = Some field.
Proof.
  unfold click_header. destruct (sortField st) as [current | ]; [ | reflexivity].
  destruct (str_eqb current field) eqn:E; [ | reflexivity].
  apply str_eqb_eq in E. now subst.
Qed.

Lemma str_eqb_refl (s : js_string) : str_eqb s s = true.
Proof. now apply str_eqb_eq. Qed.

(** X15: the sort of the table.  After any clicks on headers, the table is
    sorted by the column clicked last (the order of the data as loaded cannot
    be had back); a click on another column sorts by it in ascending order; a
    click on the column of the sort reverses the direction, so that two such
    clicks change nothing. *)
Theorem sort_header_clicks (field : js_string) (st : sort_state) :
  (forall clicks,
     sortField (fold_left (fun st f => click_header f st) (clicks ++ [field]) st)
     = Some field) /\
  (sortField st <> Some field -> sortDirection (click_header field st) = asc) /\
  (sortField st = Some field ->
   sortDirection (click_header field st)
   = match sortDirection st with asc => desc | desc => asc end /\
   click_header field (click_header field st) = st).
Proof.
  split; [ | split].
  - intros clicks. rewrite fold_left_app. simpl. apply click_header_field.
  - intros H. unfold click_header. destruct (sortField st) as [current | ];
      [ | reflexivity].
    destruct (str_eqb current field) eqn:E; [ | reflexivity].
    apply str_eqb_eq in E. congruence.
  - intros H. unfold click_header. rewrite H. rewrite str_eqb_refl.
    cbn [sortField sortDirection]. rewrite str_eqb_refl.
    split; [reflexivity | ].
    destruct st as [f d]. simpl in *. subst f. now destruct d.
Qed.

(** ** dataTable.js: the lines of the export *)

Lemma csv_escape_sep (s t x y : js_string) :
  not_quote_first x -> not_quote_first y ->
  csv_escape s ++ 34%N :: x = csv_escape t ++ 34%N :: y ->
  s = t /\ x = y.
Proof.
  intros Hx Hy. revert t. unfold csv_escape.
  induction s as [ | c s IH]; intros [ | d t]; simpl; intros H.
  - injection H as ->. auto.
  - exfalso. destruct (N.eqb_spec d 34) as [-> | Hd]; simpl in H.
    + injection H as ->. now apply Hx.
    + injection H as H _. now apply Hd.
  - exfalso. destruct (N.eqb_spec c 34) as [-> | Hc]; simpl in H.
    + injection H as H. subst y. now apply Hy.
    + injection H as H _. now apply Hc.
  - destruct (N.eqb_spec c 34) as [-> | Hc], (N.eqb_spec d 34) as [-> | Hd];
      simpl in H.
    + injection H as H. destruct (IH _ H) as [-> ->]. auto.
    + injection H as H _. now contradiction Hd.
    + injection H as H _. now contradiction Hc.
    + injection H as Hcd H. destruct (IH _ H) as [-> ->]. subst. auto.
Qed.

Lemma field_end_not_quote (x : js_string) : field_end x -> not_quote_first x.
Proof. intros [-> | (rest & ->)]; simpl; [exact I | discriminate]. Qed.

Lemma csv_field_sep (a b : option js_string) (x y : js_string) :
  field_end x -> field_end y ->
  csv_field a ++ x = csv_field b ++ y ->
  a = b /\ x = y.
Proof.
  intros Hx Hy H. destruct a as [s | ], b as [t | ]; simpl in H.
  - injection H as H. rewrite <- !app_assoc in H. simpl in H.
    destruct (@csv_escape_sep s t x y (field_end_not_quote Hx) (field_end_not_quote Hy) H)
      as [-> ->].
    auto.
  - exfalso. destruct Hy as [-> | (rest & ->)]; discriminate H.
  - exfalso. destruct Hx as [-> | (rest & ->)]; discriminate H.
  - auto.
Qed.

(** X16: a line of the export determines its values.  Two rows of as many
    values (a value may be missing) with the same line have the same values:
    a quote or a semicolon inside a value cannot be taken for the end of a
    field, and a missing value is not an empty text. *)
Theorem csv_line_injective (vals vals' : list (option js_string)) :
  List.length vals = List.length vals' ->
  csv_line vals = csv_line vals' ->
  vals = vals'.
Proof.
  unfold csv_line. revert vals'.
  induction vals as [ | a vals IH]; intros [ | b vals'] Hlen H;
    try discriminate Hlen; [reflexivity | ].
  injection Hlen as Hlen.
  destruct vals as [ | a2 vals], vals' as [ | b2 vals']; try discriminate Hlen.
  - simpl in H.
    assert (H' : csv_field a ++ [] = csv_field b ++ []) by now rewrite !app_nil_r.
    destruct (@csv_field_sep a b [] []) as [-> _];
      [now left | now left | exact H' | reflexivity].
  - change (csv_field a ++ 59%N :: join (lit ";") (map csv_field (a2 :: vals))
            = csv_field b ++ 59%N :: join (lit ";") (map csv_field (b2 :: vals'))) in H.
    destruct (@csv_field_sep a b (59%N :: join (lit ";") (map csv_field (a2 :: vals)))
                (59%N :: join (lit ";") (map csv_field (b2 :: vals'))))
      as [-> Hrest]; [right; eauto | right; eauto | exact H | ].
    injection Hrest as Hrest. f_equal. apply IH; assumption.
Qed.

Lemma csv_line_injective_witness :
  let vals := [Some (lit "a;b"); None; Some [34%N]] in
  let vals' := [Some (lit "a;b"); None; Some (34%N :: [])] in
  List.length vals = List.length vals' /\
  csv_line vals = 34%N :: lit "a;b" ++ [34; 59; 59; 34; 34; 34; 34]%N /\
  csv_line vals = csv_line vals' /\
  vals = vals'.
Proof.
  intros vals vals'.
  assert (H1 : List.length vals = List.length vals') by reflexivity.
  assert (H2 : csv_line vals = csv_line vals') by reflexivity.
  exact (conj H1 (conj eq_refl (conj H2 (@csv_line_injective vals vals' H1 H2)))).
Defined.

(** ** cartography.js *)

Lemma flat_map_all {A B : Type} (skip : A -> bool) (f : A -> B) (l : list A) :
  Forall (fun x => skip x = false) l ->
  flat_map (fun x => if skip x then [] else [f x]) l = map f l.
Proof.
  induction 1 as [ | x l Hx _ IH]; simpl; [reflexivity | ].
  now rewrite Hx, IH.
Qed.

(** X17: every building of a dataset that [transform] returned gets its marker:
    the map shows one marker for each record, in the order of the dataset,
    whatever the layer held before; without a layer nothing is drawn. *)
Theorem addMarkers_published (rawData : JsVal) (out : list canonical)
    (markersLayer : list marker) :
  transform rawData = Ok out ->
  addMarkers (Some markersLayer) out = Some (map marker_of out) /\
  addMarkers None out = None.
Proof.
  intros Hout. split; [ | reflexivity].
  unfold addMarkers. f_equal.
  apply (flat_map_all
           (fun building => negb (truthy_num (latitude building))
                            || negb (truthy_num (longitude building)))).
  apply Forall_forall. intros c Hc.
  apply (transform_member _ c Hout) in Hc
    as (records & record & r & _ & _ & _ & Hvalid & ->).
  unfold is_valid in Hvalid. rewrite !andb_true_iff in Hvalid.
  destruct Hvalid as [[[_ Hlat] Hlng] _]. simpl. now rewrite Hlat, Hlng.
Qed.

Lemma addMarkers_published_witness :
  let out := returned [] (transform (Arr [sample_pasteur; sample_hopital])) in
  transform (Arr [sample_pasteur; sample_hopital]) = Ok out /\
  addMarkers (Some []) out = Some (map marker_of out) /\
  addMarkers None out = None.
Proof.
  intros out.
  assert (H : transform (Arr [sample_pasteur; sample_hopital]) = Ok out)
    by (vm_compute; reflexivity).
  exact (conj H (@addMarkers_published _ out [] H)).
Defined.

(** X18: the views know every category of the pipeline: each label that
    [normalizeType] takes from its table has an icon of its own on the map and
    a badge class of its own in the table; the label given to a building
    without a category has neither, and gets the default icon and the badge of
    a school. *)
Theorem recognized_category_views (s : js_string) (label : js_string) :
  (map_get (toUpperCase s) type_map = Some label ->
   (exists icon, table_get_or TYPE_ICONS label default_icon = Text icon /\
                 icon <> default_icon) /\
   (exists class, getBadgeClass label = Text class /\
                  map_get label badge_map = Some class)) /\
  table_get_or TYPE_ICONS Autre default_icon = Text default_icon /\
  getBadgeClass Autre = Text (lit "ecole") /\
  map_get Autre badge_map = None.
Proof.
  split; [ | repeat split].
  intros H. apply map_get_In in H. simpl in H.
  repeat (destruct H as [[= _ <-] | H];
          [split; eexists; (split; [reflexivity | ]);
           [discriminate | reflexivity] | ]).
  contradiction.
Qed.

(** ** dataTable.js: the exported file *)

Lemma row_end_not_quote (z : js_string) : row_end z -> not_quote_first z.
Proof. intros [-> | (rest & ->)]; simpl; [exact I | discriminate]. Qed.

Lemma quoted_sep (s t x y : js_string) :
  not_quote_first x -> not_quote_first y ->
  csv_field (Some s) ++ x = csv_field (Some t) ++ y ->
  s = t /\ x = y.
Proof.
  intros Hx Hy H. simpl in H. injection H as H.
  rewrite <- !app_assoc in H. simpl in H.
  exact (@csv_escape_sep s t x y Hx Hy H).
Qed.

Lemma csv_line_cons (c c2 : js_string) (cells : list js_string) :
  csv_line (map Some (c :: c2 :: cells))
  = csv_field (Some c) ++ 59%N :: csv_line (map Some (c2 :: cells)).
Proof. reflexivity. Qed.

Lemma csv_line_sep (cells cells' : list js_string) (z z' : js_string) :
  cells <> [] -> cells' <> [] -> row_end z -> row_end z' ->
  csv_line (map Some cells) ++ z = csv_line (map Some cells') ++ z' ->
  cells = cells' /\ z = z'.
Proof.
  revert cells'.
  induction cells as [ | c cells IH]; intros [ | c' cells'] Hn Hn' Hz Hz' H;
    try congruence.
  destruct cells as [ | c2 cells], cells' as [ | c2' cells'].
  - change (csv_field (Some c) ++ z = csv_field (Some c') ++ z') in H.
    destruct (quoted_sep (row_end_not_quote Hz) (row_end_not_quote Hz') H)
      as [-> ->].
    auto.
  - exfalso. rewrite csv_line_cons, <- app_assoc in H.
    change (csv_field (Some c) ++ z
            = csv_field (Some c')
              ++ 59%N :: csv_line (map Some (c2' :: cells')) ++ z') in H.
    destruct (@quoted_sep c c' z (59%N :: csv_line (map Some (c2' :: cells')) ++ z'))
      as [_ Hzz]; [now apply row_end_not_quote | discriminate | exact H | ].
    destruct Hz as [-> | (rest & ->)]; discriminate Hzz.
  - exfalso. rewrite csv_line_cons, <- app_assoc in H.
    change (csv_field (Some c)
              ++ 59%N :: csv_line (map Some (c2 :: cells)) ++ z
            = csv_field (Some c') ++ z') in H.
    destruct (@quoted_sep c c' (59%N :: csv_line (map Some (c2 :: cells)) ++ z) z')
      as [_ Hzz]; [discriminate | now apply row_end_not_quote | exact H | ].
    destruct Hz' as [-> | (rest & ->)]; discriminate Hzz.
  - rewrite !csv_line_cons, <- !app_assoc in H.
    change (csv_field (Some c)
              ++ 59%N :: csv_line (map Some (c2 :: cells)) ++ z
            = csv_field (Some c')
              ++ 59%N :: csv_line (map Some (c2' :: cells')) ++ z') in H.
    destruct (@quoted_sep c c' (59%N :: csv_line (map Some (c2 :: cells)) ++ z)
                (59%N :: csv_line (map Some (c2' :: cells')) ++ z'))
      as [-> Hrest]; [discriminate | discriminate | exact H | ].
    injection Hrest as Hrest.
    destruct (IH (c2' :: cells')) as [-> ->]; try assumption; try discriminate.
    auto.
Qed.

Lemma csv_rows_sep (rows rows' : list (list js_string)) :
  Forall (fun cells => cells <> []) rows ->
  Forall (fun cells => cells <> []) rows' ->
  join [10%N] (map (fun cells => csv_line (map Some cells)) rows)
  = join [10%N] (map (fun cells => csv_line (map Some cells)) rows') ->
  rows = rows'.
Proof.
  intros Hrows. revert rows'.
  induction Hrows as [ | r rows Hr Hrows IH]; intros rows' Hrows' H.
  - destruct Hrows' as [ | [ | c' r'] rows' Hr' Hrows']; [reflexivity | congruence | ].
    exfalso. destruct rows', r'; discriminate H.
  - destruct Hrows' as [ | r' rows' Hr' Hrows'].
    + exfalso. destruct r as [ | c r]; [congruence | ].
      destruct rows, r; discriminate H.
    + destruct rows as [ | r2 rows], rows' as [ | r2' rows'].
      * simpl in H.
        destruct (@csv_line_sep r r' [] []) as [-> _];
          try assumption; try (now left); [ | reflexivity].
        now rewrite !app_nil_r.
      * exfalso.
        change (csv_line (map Some r)
                = csv_line (map Some r')
                  ++ 10%N :: join [10%N]
                       (map (fun cells => csv_line (map Some cells)) (r2' :: rows'))) in H.
        destruct (@csv_line_sep r r' []
                    (10%N :: join [10%N]
                       (map (fun cells => csv_line (map Some cells)) (r2' :: rows'))))
          as [_ Habs]; try assumption; [now left | right; eauto | | discriminate Habs].
        now rewrite app_nil_r.
      * exfalso.
        change (csv_line (map Some r)
                  ++ 10%N :: join [10%N]
                       (map (fun cells => csv_line (map Some cells)) (r2 :: rows))
                = csv_line (map Some r')) in H.
        destruct (@csv_line_sep r r'
                    (10%N :: join [10%N]
                       (map (fun cells => csv_line (map Some cells)) (r2 :: rows))) [])
          as [_ Habs]; try assumption; [right; eauto | now left | | discriminate Habs].
        now rewrite app_nil_r.
      * change (csv_line (map Some r)
                  ++ 10%N :: join [10%N]
                       (map (fun cells => csv_line (map Some cells)) (r2 :: rows))
                = csv_line (map Some r')
                  ++ 10%N :: join [10%N]
                       (map (fun cells => csv_line (map Some cells)) (r2' :: rows'))) in H.
        destruct (@csv_line_sep r r'
                    (10%N :: join [10%N]
                       (map (fun cells => csv_line (map Some cells)) (r2 :: rows)))
                    (10%N :: join [10%N]
                       (map (fun cells => csv_line (map Some cells)) (r2' :: rows'))))
          as [-> Hrest]; try assumption; [right; eauto | right; eauto | ].
        injection Hrest as Hrest. f_equal. apply IH; assumption.
Qed.

(** X19: the export loses nothing.  Two datasets with the same CSV text have the
    same rows, with the same texts in the ten columns: no quote, semicolon or
    line break inside a value can be taken for the end of a field or of a
    row. *)
Theorem csv_content_injective (filtered filtered' : list canonical) :
  csv_content filtered = csv_content filtered' ->
  map column_values filtered = map column_values filtered'.
Proof.
  unfold csv_content. intros H.
  assert (Hrows : forall l : list canonical,
            map csv_row l
            = map (fun cells => csv_line (map Some cells)) (map column_texts l)).
  { intros l. rewrite map_map. reflexivity. }
  assert (Hne : forall l : list canonical,
            Forall (fun cells => cells <> []) (map column_texts l)).
  { intros l. apply Forall_forall. intros cells Hin.
    apply in_map_iff in Hin as (row & <- & _). discriminate. }
  assert (Htexts : map column_texts filtered = map column_texts filtered').
  { apply csv_rows_sep; try apply Hne. rewrite <- !Hrows.
    set (headers := join (lit ";") COLUMN_LABELS) in H.
    destruct filtered as [ | r l], filtered' as [ | r' l']; [reflexivity | | | ].
    - exfalso.
      change (headers = headers ++ 10%N :: join [10%N] (map csv_row (r' :: l'))) in H.
      rewrite <- (app_nil_r headers) in H at 1.
      apply app_inv_head in H. discriminate H.
    - exfalso.
      change (headers ++ 10%N :: join [10%N] (map csv_row (r :: l)) = headers) in H.
      rewrite <- (app_nil_r headers) in H at 2.
      apply app_inv_head in H. discriminate H.
    - change (headers ++ 10%N :: join [10%N] (map csv_row (r :: l))
              = headers ++ 10%N :: join [10%N] (map csv_row (r' :: l'))) in H.
      apply app_inv_head in H. now injection H. }
  assert (Hvals : forall l : list canonical,
            map column_values l = map (map Some) (map column_texts l)).
  { intros l. rewrite map_map. reflexivity. }
  now rewrite !Hvals, Htexts.
Qed.

Lemma csv_content_injective_witness :
  let out := returned [] (transform (Arr [sample_pasteur; sample_hopital])) in
  let moved :=
    map (fun c =>
           {| nom := nom c; type := type c; adresse := lit "1 rue Haute";
              electricite_kwh := electricite_kwh c; gaz_kwh := gaz_kwh c;
              eau_m3 := eau_m3 c; surface_m2 := surface_m2 c; annee := annee c;
              latitude := latitude c; longitude := longitude c;
              classe_dpe := classe_dpe c; occupants := occupants c;
              energie_totale_kwh := energie_totale_kwh c;
              intensite_energetique := intensite_energetique c;
              intensite_eau := intensite_eau c;
              niveau_conso := niveau_conso c |}) out in
  csv_content out = csv_content moved /\
  map adresse out = [[]; []] /\
  map column_values out = map column_values moved.
Proof.
  intros out moved.
  assert (H : csv_content out = csv_content moved) by (vm_compute; reflexivity).
  exact (conj H (conj eq_refl (@csv_content_injective out moved H))).
Defined.

(** ** dataTable.js: the sort by a numeric column *)

Section SortByRank.
Variable A : Type.
Variable comparefn : A -> A -> float.
Variable position : A -> Z.
Variable comparable : A -> Prop.
Hypothesis comparefn_position : forall x y,
  comparable x -> comparable y ->
  (0 <? SortCompare comparefn x y)%float = (position y <? position x)%Z.

Lemma sort_insert_by_position (x : A) (l : list A) :
  comparable x -> Forall comparable l ->
  StronglySorted (fun a b => (position a <= position b)%Z) l ->
  StronglySorted (fun a b => (position a <= position b)%Z) (sort_insert comparefn x l).
Proof.
  intros Hx Hl Hs. induction Hs as [ | y l Hs IH Hy]; simpl.
  - repeat constructor.
  - apply Forall_cons_iff in Hl as [Hcy Hl].
    rewrite (comparefn_position Hx Hcy).
    destruct (Z.ltb_spec (position y) (position x)) as [Hlt | Hge].
    + constructor; [now apply IH | ].
      apply Forall_forall. intros z Hz.
      apply (Permutation_in _ (sort_insert_perm comparefn x l)) in Hz.
      destruct Hz as [<- | Hz]; [lia | ].
      rewrite Forall_forall in Hy. now apply Hy.
    + constructor; [now constructor | ].
      constructor; [lia | ].
      apply Forall_forall. intros z Hz. rewrite Forall_forall in Hy.
      specialize (Hy z Hz). lia.
Qed.

Lemma Array_sort_by_position (l : list A) :
  Forall comparable l ->
  StronglySorted (fun a b => (position a <= position b)%Z) (Array_sort comparefn l).
Proof.
  induction 1 as [ | x l Hx Hl IH]; simpl; [constructor | ].
  apply sort_insert_by_position; try assumption.
  apply Forall_forall. intros z Hz. apply Array_sort_In in Hz.
  rewrite Forall_forall in Hl. now apply Hl.
Qed.

Lemma Array_sort_sorted_fixed (l : list A) :
  Forall comparable l ->
  StronglySorted (fun a b => (position a <= position b)%Z) l ->
  Array_sort comparefn l = l.
Proof.
  intros Hl Hs. induction Hs as [ | x l Hs IH Hx]; [reflexivity | ].
  apply Forall_cons_iff in Hl as [Hcx Hl].
  simpl. fold (Array_sort comparefn l). rewrite (IH Hl).
  destruct l as [ | y l]; [reflexivity | ].
  simpl. apply Forall_cons_iff in Hl as [Hcy _].
  rewrite (comparefn_position Hcx Hcy).
  apply Forall_cons_iff in Hx as [Hxy _].
  destruct (Z.ltb_spec (position y) (position x)); [lia | reflexivity].
Qed.
End SortByRank.

Lemma StronglySorted_weaken {A : Type} (R R' : A -> A -> Prop) (P : A -> Prop)
    (l : list A) :
  (forall a b, P a -> P b -> R a b -> R' a b) ->
  Forall P l -> StronglySorted R l -> StronglySorted R' l.
Proof.
  intros HR Hl Hs. induction Hs as [ | x l Hs IH Hx]; constructor.
  - apply IH. now apply Forall_cons_iff in Hl.
  - apply Forall_cons_iff in Hl as [Hpx Hl].
    rewrite Forall_forall in *. intros y Hy. apply HR; auto.
Qed.

Lemma by_column_position (col : numeric_column) (direction : sort_direction)
    (x y : canonical) :
  is_nan (column_number col x) = false -> is_nan (column_number col y) = false ->
  (0 <? SortCompare (by_column col direction) x y)%float
  = (column_position col direction y <? column_position col direction x)%Z.
Proof.
  intros Hx Hy. rewrite SortCompare_positive. unfold by_column, column_position.
  destruct direction; rewrite sub_positive by assumption.
  - reflexivity.
  - destruct (Z.ltb_spec (frank (column_number col x)) (frank (column_number col y))),
             (Z.ltb_spec (- frank (column_number col y)) (- frank (column_number col x)));
      (reflexivity || lia).
Qed.

Lemma in_order_position (col : numeric_column) (direction : sort_direction)
    (a b : canonical) :
  is_nan (column_number col a) = false -> is_nan (column_number col b) = false ->
  (in_order col direction a b
   <-> (column_position col direction a <= column_position col direction b)%Z).
Proof.
  intros Ha Hb. unfold in_order, column_position.
  destruct direction; rewrite leb_rank by assumption; rewrite Z.leb_le; lia.
Qed.

(** X20: the sort of the table by a numeric column.  The sorted table has the
    rows of the filtered one.  When no value of the column is NaN, the rows
    are in the order of the column, ascending or descending as asked, and rows
    with equal values keep the order they had. *)
Theorem table_sort_numeric (col : numeric_column) (direction : sort_direction)
    (filtered : list canonical) :
  Permutation (sort_rows col direction filtered) filtered /\
  (Forall (fun row => is_nan (column_number col row) = false) filtered ->
   StronglySorted (in_order col direction) (sort_rows col direction filtered) /\
   forall t,
     filter (fun row => column_number col row =? t)%float
       (sort_rows col direction filtered)
     = filter (fun row => column_number col row =? t)%float filtered).
Proof.
  unfold sort_rows. split; [apply Array_sort_perm | ].
  intros Hnan. split.
  - apply (@StronglySorted_weaken _
             (fun a b => (column_position col direction a
                          <= column_position col direction b)%Z)
             (in_order col direction)
             (fun row => is_nan (column_number col row) = false)).
    + intros a b Ha Hb H. now apply in_order_position.
    + apply Forall_forall. intros row Hrow. apply Array_sort_In in Hrow.
      rewrite Forall_forall in Hnan. now apply Hnan.
    + apply (@Array_sort_by_position _ (by_column col direction)
               (column_position col direction)
               (fun row => is_nan (column_number col row) = false)).
      * intros x y. apply by_column_position.
      * exact Hnan.
  - intros t. apply Array_sort_filter. intros x y Hx Hy.
    destruct (@compared_not_nan (column_number col x) t) as [Nx Nt]; [auto | ].
    destruct (@compared_not_nan (column_number col y) t) as [Ny _]; [auto | ].
    rewrite eqb_rank in Hx, Hy by assumption. apply Z.eqb_eq in Hx, Hy.
    rewrite by_column_position by assumption.
    unfold column_position. destruct direction; apply Z.ltb_ge; lia.
Qed.

(** X21: the table sorted by total energy, descending, is the dataset in the
    order the pipeline gave it (when no total is NaN): that sort changes
    nothing. *)
Theorem table_sort_by_total (rawData : JsVal) (out : list canonical) :
  transform rawData = Ok out ->
  Forall (fun c => is_nan (energie_totale_kwh c) = false) out ->
  sort_rows col_energie_totale_kwh desc out = out.
Proof.
  intros Hout Hnan.
  apply (@Array_sort_sorted_fixed _ (by_column col_energie_totale_kwh desc)
           (column_position col_energie_totale_kwh desc)
           (fun row => is_nan (column_number col_energie_totale_kwh row) = false)).
  - intros x y. apply by_column_position.
  - exact Hnan.
  - apply transform_inv in Hout as (records & renamed & _ & _ & Heq).
    assert (Hpre : Forall (fun c => is_nan (energie_totale_kwh c) = false)
                     (map add_computed (filter is_valid renamed))).
    { apply Forall_forall. intros c Hc. rewrite Forall_forall in Hnan.
      apply Hnan. rewrite Heq. now apply Array_sort_In. }
    pose proof (Array_sort_non_increasing Hpre) as Hsorted. rewrite <- Heq in Hsorted.
    apply (@StronglySorted_weaken _ total_ge
             (fun a b => (column_position col_energie_totale_kwh desc a
                          <= column_position col_energie_totale_kwh desc b)%Z)
             (fun c => is_nan (energie_totale_kwh c) = false)); try assumption.
    intros a b Ha Hb H.
    apply (@in_order_position col_energie_totale_kwh desc a b Ha Hb). exact H.
Qed.

Lemma table_sort_by_total_witness :
  let records := [sample_no_elec; sample_margin; sample_pasteur; sample_hopital] in
  let out := returned [] (transform (Arr records)) in
  transform (Arr records) = Ok out /\
  Forall (fun c => is_nan (energie_totale_kwh c) = false) out /\
  sort_rows col_energie_totale_kwh desc out = out /\
  map nom (sort_rows col_surface_m2 asc out)
  = [lit "Clinique"; lit "Annexe"; 201%N :: lit "cole Pasteur"].
Proof.
  intros records out.
  assert (H1 : transform (Arr records) = Ok out) by (vm_compute; reflexivity).
  assert (H2 : Forall (fun c => is_nan (energie_totale_kwh c) = false) out)
    by (vm_compute; repeat constructor).
  refine (conj H1 (conj H2 (conj (@table_sort_by_total _ out H1 H2) _))).
  vm_compute. reflexivity.
Defined.

(** ** visualization.js: colours *)

Example colour_examples :
  parseInt_16 (lit "ff") = 255%float /\
  parseInt_16 (lit "0x1F") = 31%float /\
  parseInt_16 (lit " -7g") = (-7)%float /\
  is_nan (parseInt_16 (lit "g7")) = true /\
  is_nan (parseInt_16 (lit "")) = true /\
  is_nan (parseInt_16 (lit "0x")) = true /\
  map Number_toString_16 [255; 5; 0; 256; -26; 4095; 0.5; 10.75; infinity]%float
  = map lit ["ff"; "5"; "0"; "100"; "-1a"; "fff"; "0.8"; "a.c"; "Infinity"]%string /\
  interpolateColor (lit "#3B82f6") (lit "#10b981") 0 = lit "#3b82f6" /\
  interpolateColor (lit "#3b82f6") (lit "#10b981") 1 = lit "#10b981" /\
  interpolateColor (lit "#3b82f6") (lit "#10b981") 0.5 = lit "#269ebc" /\
  interpolateColor (lit "#000000") (lit "#ffffff") 0.5 = lit "#808080" /\
  generateColors (lit "#000000") (lit "#ffffff") 3
  = (map lit ["#00000099"; "#80808099"; "#ffffff99"]%string,
     map lit ["#000000"; "#808080"; "#ffffff"]%string) /\
  generateColors (lit "#102030") (lit "#ffffff") 1
  = ([lit "#10203099"], [lit "#102030"]).
Proof. vm_compute. repeat split. Qed.

Lemma is_hex_digit_In (c : code_unit) : is_hex_digit c = true -> In c hex_chars.
Proof.
  unfold is_hex_digit, digit_value, is_digit. intros H.
  assert (Hc : (48 <= c <= 57 \/ 97 <= c <= 102 \/ 65 <= c <= 70)%N).
  { destruct (N.leb_spec 48 c), (N.leb_spec c 57); simpl in H; [lia | | | ];
      (destruct (N.leb_spec 97 c), (N.leb_spec c 102); simpl in H; [lia | | | ];
       (destruct (N.leb_spec 65 c), (N.leb_spec c 70); simpl in H;
        [lia | discriminate H | discriminate H | discriminate H])). }
  assert (Hin : (c = 48 \/ c = 49 \/ c = 50 \/ c = 51 \/ c = 52 \/ c = 53 \/ c = 54
                 \/ c = 55 \/ c = 56 \/ c = 57 \/ c = 97 \/ c = 98 \/ c = 99
                 \/ c = 100 \/ c = 101 \/ c = 102 \/ c = 65 \/ c = 66 \/ c = 67
                 \/ c = 68 \/ c = 69 \/ c = 70)%N) by lia.
  unfold hex_chars. simpl. intuition auto.
Qed.

Lemma parseInt_16_byte (a b : code_unit) :
  In a hex_chars -> In b hex_chars ->
  parseInt_16 [a; b] = Number_of_nat (16 * hex_value a + hex_value b) /\
  (hex_value a < 16)%nat /\ (hex_value b < 16)%nat /\
  hex_digit (Z.of_nat (hex_value a)) = lower_hex a /\
  hex_digit (Z.of_nat (hex_value b)) = lower_hex b.
Proof.
  unfold hex_chars. simpl. intros Ha Hb.
  repeat destruct Ha as [<- | Ha]; try contradiction;
    repeat destruct Hb as [<- | Hb]; try contradiction;
    vm_compute; repeat split; lia.
Qed.

Lemma blend_check :
  let numbers := map Number_of_nat (seq 0 256) in
  forallb (fun x1 =>
             forallb (fun x2 =>
                        Leibniz.eqb (x1 + (x2 - x1) * 0)%float x1
                        && Leibniz.eqb (x1 + (x2 - x1) * 1)%float x2)
               numbers)
    numbers = true.
Proof. vm_compute. reflexivity. Qed.

Lemma print_check :
  forallb (fun v =>
             str_eqb (padStart (Number_toString_16 (Math_round (Number_of_nat v))) 2 48%N)
               (two_hex_digits v))
    (seq 0 256) = true.
Proof. vm_compute. reflexivity. Qed.

Lemma channel_endpoints (v1 v2 : nat) :
  (v1 < 256)%nat -> (v2 < 256)%nat ->
  channel v1 v2 0 = two_hex_digits v1 /\ channel v1 v2 1 = two_hex_digits v2.
Proof.
  intros H1 H2.
  assert (Hin : forall v, (v < 256)%nat -> In v (seq 0 256)).
  { intros v Hv. apply in_seq. lia. }
  pose proof blend_check as Hb. cbv zeta in Hb.
  rewrite forallb_forall in Hb.
  specialize (Hb _ (in_map Number_of_nat _ _ (Hin v1 H1))).
  rewrite forallb_forall in Hb.
  specialize (Hb _ (in_map Number_of_nat _ _ (Hin v2 H2))).
  rewrite andb_true_iff, !Leibniz.eqb_spec in Hb. destruct Hb as [Hb0 Hb1].
  pose proof print_check as Hp. rewrite forallb_forall in Hp.
  unfold channel. rewrite Hb0, Hb1. split; apply str_eqb_eq, Hp, Hin; assumption.
Qed.

Lemma two_hex_digits_lower (a b : code_unit) :
  In a hex_chars -> In b hex_chars ->
  parseInt_16 [a; b] = Number_of_nat (16 * hex_value a + hex_value b) /\
  (16 * hex_value a + hex_value b < 256)%nat /\
  two_hex_digits (16 * hex_value a + hex_value b) = [lower_hex a; lower_hex b].
Proof.
  intros Ha Hb.
  destruct (parseInt_16_byte Ha Hb) as (Hp & Hva & Hvb & Hla & Hlb).
  split; [exact Hp | ]. split; [lia | ].
  unfold two_hex_digits.
  replace ((16 * hex_value a + hex_value b) / 16)%nat with (hex_value a).
  - replace ((16 * hex_value a + hex_value b) mod 16)%nat with (hex_value b).
    + now rewrite Hla, Hlb.
    + rewrite Nat.add_comm, Nat.mul_comm, Nat.Div0.mod_add.
      symmetry. now apply Nat.mod_small.
  - rewrite Nat.add_comm, Nat.mul_comm, Nat.div_add by lia.
    rewrite Nat.div_small by assumption. reflexivity.
Qed.

(** A colour of six hexadecimal digits has three channels below 256, and
    [interpolateColor] works channel by channel. *)
Lemma interpolateColor_channels (hex1 hex2 : js_string) :
  is_hex_color hex1 = true -> is_hex_color hex2 = true ->
  exists r1 g1 b1 r2 g2 b2 : nat,
    (r1 < 256 /\ g1 < 256 /\ b1 < 256 /\ r2 < 256 /\ g2 < 256 /\ b2 < 256)%nat /\
    lower_color hex1
    = lit "#" ++ two_hex_digits r1 ++ two_hex_digits g1 ++ two_hex_digits b1 /\
    lower_color hex2
    = lit "#" ++ two_hex_digits r2 ++ two_hex_digits g2 ++ two_hex_digits b2 /\
    forall ratio,
      interpolateColor hex1 hex2 ratio
      = lit "#" ++ channel r1 r2 ratio ++ channel g1 g2 ratio ++ channel b1 b2 ratio.
Proof.
  intros H1 H2.
  destruct hex1 as [ | h1 [ | r1 [ | r1' [ | g1 [ | g1' [ | b1 [ | b1' [ | ? ?]]]]]]]];
    try discriminate H1.
  destruct hex2 as [ | h2 [ | r2 [ | r2' [ | g2 [ | g2' [ | b2 [ | b2' [ | ? ?]]]]]]]];
    try discriminate H2.
  cbn [is_hex_color forallb] in H1, H2.
  rewrite !andb_true_iff, N.eqb_eq in H1, H2.
  destruct H1 as (-> & Hr1 & Hr1' & Hg1 & Hg1' & Hb1 & Hb1' & _).
  destruct H2 as (-> & Hr2 & Hr2' & Hg2 & Hg2' & Hb2 & Hb2' & _).
  apply is_hex_digit_In in Hr1, Hr1', Hg1, Hg1', Hb1, Hb1', Hr2, Hr2', Hg2, Hg2', Hb2, Hb2'.
  destruct (two_hex_digits_lower Hr1 Hr1') as (Pr1 & Br1 & Lr1).
  destruct (two_hex_digits_lower Hg1 Hg1') as (Pg1 & Bg1 & Lg1).
  destruct (two_hex_digits_lower Hb1 Hb1') as (Pb1 & Bb1 & Lb1).
  destruct (two_hex_digits_lower Hr2 Hr2') as (Pr2 & Br2 & Lr2).
  destruct (two_hex_digits_lower Hg2 Hg2') as (Pg2 & Bg2 & Lg2).
  destruct (two_hex_digits_lower Hb2 Hb2') as (Pb2 & Bb2 & Lb2).
  exists (16 * hex_value r1 + hex_value r1')%nat, (16 * hex_value g1 + hex_value g1')%nat,
         (16 * hex_value b1 + hex_value b1')%nat, (16 * hex_value r2 + hex_value r2')%nat,
         (16 * hex_value g2 + hex_value g2')%nat, (16 * hex_value b2 + hex_value b2')%nat.
  split; [repeat split; assumption | ].
  rewrite Lr1, Lg1, Lb1, Lr2, Lg2, Lb2. repeat split.
  intros ratio. unfold interpolateColor, slice. cbn [skipn firstn Nat.sub].
  rewrite Pr1, Pg1, Pb1, Pr2, Pg2, Pb2. reflexivity.
Qed.

(** X22: the two ends of the colour scale.  For colours written as [#] and six
    hexadecimal digits, [interpolateColor] at ratio 0 is the first colour and
    at ratio 1 the second, with their digits in lower case. *)
Theorem interpolateColor_endpoints (hex1 hex2 : js_string) :
  is_hex_color hex1 = true -> is_hex_color hex2 = true ->
  interpolateColor hex1 hex2 0 = lower_color hex1 /\
  interpolateColor hex1 hex2 1 = lower_color hex2.
Proof.
  intros H1 H2.
  destruct (interpolateColor_channels _ _ H1 H2)
    as (r1 & g1 & b1 & r2 & g2 & b2 & (Br1 & Bg1 & Bb1 & Br2 & Bg2 & Bb2)
        & -> & -> & Hall).
  rewrite !Hall.
  destruct (channel_endpoints Br1 Br2) as [-> ->].
  destruct (channel_endpoints Bg1 Bg2) as [-> ->].
  destruct (channel_endpoints Bb1 Bb2) as [-> ->].
  split; reflexivity.
Qed.

Lemma interpolateColor_endpoints_witness :
  is_hex_color (lit "#3B82F6") = true /\ is_hex_color (lit "#10b981") = true /\
  interpolateColor (lit "#3B82F6") (lit "#10b981") 0 = lit "#3b82f6" /\
  interpolateColor (lit "#3B82F6") (lit "#10b981") 1 = lit "#10b981".
Proof.
  assert (H1 : is_hex_color (lit "#3B82F6") = true) by reflexivity.
  assert (H2 : is_hex_color (lit "#10b981") = true) by reflexivity.
  exact (conj H1 (conj H2 (@interpolateColor_endpoints _ _ H1 H2))).
Defined.

Lemma div_zero_positive (x : float) : (0 <? x)%float = true -> (0 / x)%float = 0%float.
Proof.
  intros H. apply Prim2SF_inj. rewrite div_spec.
  rewrite ltb_spec in H.
  change (Prim2SF 0) with (S754_zero false) in *.
  destruct (Prim2SF x) as [s | s | | s m e]; try discriminate H.
  - destruct s; [discriminate H | reflexivity].
  - destruct s; [discriminate H | reflexivity].
Qed.

Lemma first_ratio (count : nat) :
  (if (1 <? Number_of_nat count)%float
   then (Number_of_nat 0 / (Number_of_nat count - 1))%float
   else 0%float) = 0%float.
Proof.
  destruct (1 <? Number_of_nat count)%float eqn:H; [ | reflexivity].
  change (Number_of_nat 0) with 0%float. apply div_zero_positive.
  rewrite sub_positive by (reflexivity || apply round_to_float_not_nan).
  rewrite ltb_rank in H by (reflexivity || apply round_to_float_not_nan).
  exact H.
Qed.

(** X23: [generateColors] gives as many border colours as asked and as many
    background colours, each the border colour followed by [99]; for colours
    written as [#] and six hexadecimal digits, the first colour is the first
    colour given, whatever the count. *)
Theorem generateColors_shape (color1 color2 : js_string) (count : nat) :
  let bg := fst (generateColors color1 color2 count) in
  let border := snd (generateColors color1 color2 count) in
  List.length border = count /\
  bg = map (fun c => c ++ lit "99") border /\
  (is_hex_color color1 = true -> is_hex_color color2 = true ->
   (0 < count)%nat ->
   forall default, nth 0 border default = lower_color color1).
Proof.
  unfold generateColors. cbn [fst snd]. split; [ | split].
  - now rewrite length_map, length_seq.
  - reflexivity.
  - intros H1 H2 Hcount default. destruct count as [ | n]; [lia | ].
    cbn [seq map nth]. rewrite first_ratio.
    destruct (interpolateColor_channels _ _ H1 H2)
      as (r1 & g1 & b1 & r2 & g2 & b2 & (Br1 & Bg1 & Bb1 & Br2 & Bg2 & Bb2)
          & -> & _ & Hall).
    rewrite Hall.
    destruct (channel_endpoints Br1 Br2) as [-> _].
    destruct (channel_endpoints Bg1 Bg2) as [-> _].
    destruct (channel_endpoints Bb1 Bb2) as [-> _].
    reflexivity.
Qed.

(** ** Transform as a function of the batch *)

Lemma rename_fields_raw (record : JsVal) :
  is_nullish record = false ->
  rename_fields record =
  (let* nom := cleanString (raw_field record "nom_batiment") in
   let* type := normalizeType (raw_field record "type_infra") in
   let* adresse := cleanString (raw_field record "adresse_postale") in
   let* electricite_kwh := toNumber (raw_field record "conso_elec_kwh") in
   let* gaz_kwh := toNumber (raw_field record "conso_gaz_kwh") in
   let* eau_m3 := toNumber (raw_field record "conso_eau_m3") in
   let* surface_m2 := toNumber (raw_field record "surface_m2") in
   let* annee := toNumber (raw_field record "annee") in
   let* latitude := toFloat (raw_field record "lat") in
   let* longitude := toFloat (raw_field record "lng") in
   let* classe_dpe := cleanString (raw_field record "dpe_classe") in
   let* occupants := toNumber (raw_field record "nb_occupants") in
   Ok (Mapped.make nom type adresse electricite_kwh gaz_kwh eau_m3 surface_m2
         annee latitude longitude classe_dpe (or_zero occupants))).
Proof.
  intros Hrec.
  assert (Hget : forall name, get_property record (lit name) = Ok (raw_field record name)).
  { intros name. apply get_property_raw_field; intros ->; discriminate Hrec. }
  unfold rename_fields. rewrite !Hget. reflexivity.
Qed.

Lemma rename_fields_same (record record' : JsVal) :
  same_read_fields record record' -> rename_fields record = rename_fields record'.
Proof.
  intros [Hnull Hsame]. destruct (is_nullish record) eqn:Hrec.
  - destruct record; try discriminate Hrec;
      destruct record'; try discriminate Hnull; reflexivity.
  - rewrite (rename_fields_raw _ Hrec), (rename_fields_raw record') by congruence.
    unfold read_fields, converted_fields in Hsame.
    repeat match goal with
           | H : Forall _ (_ :: _) |- _ =>
               apply Forall_cons_iff in H; destruct H as [-> H]
           end.
    reflexivity.
Qed.

(** X24: [transform] reads twelve properties of a raw record and nothing else:
    batches whose records agree, one by one, on these properties (whatever
    other properties they have, and in whatever order they are written) give
    the same result, or the same error. *)
Theorem transform_reads_only (records records' : list JsVal) :
  Forall2 same_read_fields records records' ->
  transform (Arr records) = transform (Arr records').
Proof.
  intros H. unfold transform.
  assert (Hmap : mapM rename_fields records = mapM rename_fields records').
  { induction H as [ | record record' l l' Hsame _ IH]; [reflexivity | ].
    simpl. now rewrite (rename_fields_same Hsame), IH. }
  now rewrite Hmap.
Qed.

Lemma transform_reads_only_witness :
  Forall2 same_read_fields [sample_pasteur; sample_hopital]
    [sample_pasteur; sample_hopital_annotated] /\
  sample_hopital <> sample_hopital_annotated /\
  transform (Arr [sample_pasteur; sample_hopital])
  = transform (Arr [sample_pasteur; sample_hopital_annotated]).
Proof.
  assert (H : Forall2 same_read_fields [sample_pasteur; sample_hopital]
                [sample_pasteur; sample_hopital_annotated]).
  { repeat constructor. }
  refine (conj H (conj _ (@transform_reads_only _ _ H))).
  discriminate.
Defined.

Lemma mapM_app {A B : Type} (f : A -> result B) (l l' : list A) (out : list B) :
  mapM f (l ++ l') = Ok out ->
  exists r r', mapM f l = Ok r /\ mapM f l' = Ok r' /\ out = r ++ r'.
Proof.
  revert out. induction l as [ | x l IH]; simpl; intros out H.
  - exists [], out. auto.
  - inv_bind H. inv_bind H. injection H as <-.
    destruct (IH _ E0) as (r & r' & Hr & Hr' & ->).
    exists (a :: r), r'. rewrite E, Hr. auto.
Qed.

(** X25: a batch can be split.  When [transform] returns on a batch made of two
    parts, it returns on each part, and the result for the batch has the
    records of the two results, rearranged. *)
Theorem transform_split (part part' : list JsVal) (out : list canonical) :
  transform (Arr (part ++ part')) = Ok out ->
  exists out1 out2,
    transform (Arr part) = Ok out1 /\
    transform (Arr part') = Ok out2 /\
    Permutation out (out1 ++ out2).
Proof.
  intros H. apply transform_inv in H as (records & renamed & Heq & Hmap & ->).
  injection Heq as <-.
  apply mapM_app in Hmap as (r & r' & Hr & Hr' & ->).
  unfold transform. rewrite Hr, Hr'. do 2 eexists. repeat split.
  rewrite filter_app, map_app.
  rewrite (Array_sort_perm by_total_desc (_ ++ _)).
  apply Permutation_app; symmetry; apply Array_sort_perm.
Qed.

Lemma transform_split_witness :
  let part := [sample_pasteur; sample_no_elec] in
  let part' := [sample_hopital] in
  let out := returned [] (transform (Arr (part ++ part'))) in
  transform (Arr (part ++ part')) = Ok out /\
  exists out1 out2,
    transform (Arr part) = Ok out1 /\
    transform (Arr part') = Ok out2 /\
    Permutation out (out1 ++ out2).
Proof.
  intros part part' out.
  assert (H : transform (Arr (part ++ part')) = Ok out) by (vm_compute; reflexivity).
  exact (conj H (@transform_split part part' out H)).
Defined.

Lemma mapM_Permutation {A B : Type} (f : A -> result B) (l l' : list A) (r : list B) :
  Permutation l l' -> mapM f l = Ok r ->
  exists r', mapM f l' = Ok r' /\ Permutation r r'.
Proof.
  intros Hp. revert r. induction Hp as [ | x l l' _ IH | x y l | l l' l'' _ IH1 _ IH2];
    intros r H.
  - exists r. auto.
  - simpl in H. inv_bind H. inv_bind H. injection H as <-.
    destruct (IH _ E0) as (r' & Hr' & Hperm).
    exists (a :: r'). simpl. rewrite E, Hr'. auto.
  - simpl in H. inv_bind H. inv_bind H. injection H as <-.
    inv_bind E0. inv_bind E0. injection E0 as <-.
    exists (a1 :: a :: a2). simpl. rewrite E1, E, E2. split; [reflexivity | constructor].
  - destruct (IH1 _ H) as (r' & Hr' & Hperm).
    destruct (IH2 _ Hr') as (r'' & Hr'' & Hperm').
    exists r''. split; [assumption | now transitivity r'].
Qed.

Lemma filter_Permutation {A : Type} (keep : A -> bool) (l l' : list A) :
  Permutation l l' -> Permutation (filter keep l) (filter keep l').
Proof.
  induction 1 as [ | x l l' _ IH | x y l | l l' l'' _ IH1 _ IH2]; simpl.
  - constructor.
  - destruct (keep x); [now constructor | assumption].
  - destruct (keep x), (keep y); try reflexivity. constructor.
  - now transitivity (filter keep l').
Qed.

Lemma sorted_Permutation_eq (l l' : list canonical) :
  strictly_decreasing l -> non_increasing l' -> Permutation l l' -> l = l'.
Proof.
  intros Hl. revert l'. induction Hl as [ | x t Ht IH Hx]; intros l' Hl' Hp.
  - apply Permutation_nil in Hp. now subst.
  - destruct l' as [ | y t']; [apply Permutation_sym, Permutation_nil in Hp; discriminate | ].
    apply StronglySorted_inv in Hl' as [Ht' Hy].
    rewrite Forall_forall in Hx, Hy.
    assert (Hxy : x = y).
    { assert (Hxin : In x (y :: t')) by (apply (Permutation_in _ Hp); now left).
      assert (Hyin : In y (x :: t)) by (apply (Permutation_in _ (Permutation_sym Hp)); now left).
      destruct Hxin as [-> | Hxin]; [reflexivity | ].
      destruct Hyin as [-> | Hyin]; [reflexivity | ].
      exfalso. specialize (Hx _ Hyin). specialize (Hy _ Hxin).
      apply total_ge_rank in Hy as (Ny & Nx & Hy).
      rewrite ltb_rank in Hx by assumption. apply Z.ltb_lt in Hx. lia. }
    subst y. f_equal. apply IH; [assumption | ].
    now apply Permutation_cons_inv in Hp.
Qed.

Lemma strictly_decreasing_not_nan (l : list canonical) :
  strictly_decreasing l -> (2 <= List.length l)%nat ->
  Forall (fun c => is_nan (energie_totale_kwh c) = false) l.
Proof.
  intros Hl Hlen. destruct Hl as [ | x t Ht Hx]; [simpl in Hlen; lia | ].
  destruct t as [ | y t]; [simpl in Hlen; lia | ].
  rewrite Forall_forall in Hx.
  assert (Nx : is_nan (energie_totale_kwh x) = false).
  { destruct (@compared_not_nan (energie_totale_kwh y) (energie_totale_kwh x)) as [_ N];
      [left; apply Hx; now left | exact N]. }
  constructor; [exact Nx | ].
  apply Forall_forall. intros c Hc.
  destruct (@compared_not_nan (energie_totale_kwh c) (energie_totale_kwh x)) as [N _];
    [left; now apply Hx | exact N].
Qed.

(** X26: when the totals of the output are all different, the order of the
    source does not matter: [transform] returns the same dataset, in the same
    order, on every rearrangement of the batch. *)
Theorem transform_order_independent (records records' : list JsVal)
    (out : list canonical) :
  Permutation records records' ->
  transform (Arr records) = Ok out ->
  strictly_decreasing out ->
  transform (Arr records') = Ok out.
Proof.
  intros Hp Hout Hstrict.
  apply transform_inv in Hout as (l & renamed & Heq & Hmap & Hsorted).
  injection Heq as <-.
  destruct (mapM_Permutation _ Hp Hmap) as (renamed' & Hmap' & Hperm).
  unfold transform. rewrite Hmap'. simpl. f_equal.
  set (presort := map add_computed (filter is_valid renamed)) in *.
  set (presort' := map add_computed (filter is_valid renamed')).
  assert (Hpre : Permutation presort presort').
  { apply Permutation_map, filter_Permutation, Hperm. }
  assert (Hout' : Permutation out (Array_sort by_total_desc presort')).
  { rewrite Hsorted, (Array_sort_perm by_total_desc presort), Hpre.
    symmetry. apply Array_sort_perm. }
  symmetry. destruct (Nat.le_gt_cases 2 (List.length out)) as [Hlen | Hlen].
  - apply sorted_Permutation_eq; try assumption.
    apply Array_sort_non_increasing.
    pose proof (strictly_decreasing_not_nan Hstrict Hlen) as Hnan.
    rewrite Forall_forall in *. intros c Hc. apply Hnan.
    apply (Permutation_in _ (Permutation_sym Hout')).
    now apply Array_sort_In.
  - destruct out as [ | c [ | c' out]]; [ | | simpl in Hlen; lia].
    + apply Permutation_nil in Hout'. now rewrite Hout'.
    + apply Permutation_length_1_inv in Hout'. now rewrite Hout'.
Qed.

Lemma transform_order_independent_witness :
  let records := [sample_margin; sample_no_elec; sample_pasteur; sample_hopital] in
  let out := returned [] (transform (Arr records)) in
  Permutation records (rev records) /\
  transform (Arr records) = Ok out /\
  strictly_decreasing out /\
  transform (Arr (rev records)) = Ok out.
Proof.
  intros records out.
  assert (H1 : Permutation records (rev records)) by apply Permutation_rev.
  assert (H2 : transform (Arr records) = Ok out) by (vm_compute; reflexivity).
  assert (H3 : strictly_decreasing out) by (vm_compute; repeat constructor).
  exact (conj H1 (conj H2 (conj H3
           (@transform_order_independent records (rev records) out H1 H2 H3)))).
Defined.
